(** * PageRank: a shallow embedding of [pagerank.py]

    The three functions of the estimator core, [transition_model],
    [sample_pagerank] and [iterate_pagerank], and the function [crawl] that
    builds their input are transcribed statement by statement.

    - A Python [dict] keeps its keys in insertion order, and the order in
      which [iterate_pagerank] walks the corpus is observable (ranks are
      overwritten while the walk is still going on), so a dictionary is an
      association list with the update-or-append discipline of [d[k] = v].
    - A Python [set] of page names is a [gset string].
    - Every failure the interpreter can raise in these functions
      ([ZeroDivisionError], [KeyError], [IndexError], [ValueError]) is a
      value of the [result] monad.
    - Python numbers are abstracted by the class [Number], with two
      instances: exact rationals [Q], in which the general theorems are
      stated, and IEEE binary64 ([float]), the arithmetic the interpreter
      really uses, in which roundings can be observed by evaluation.
    - [random.choices] is driven by an explicit stream of raw draws, so a
      statement about every stream is a statement about every run.
    - [while True] is a recursion on a bound on the number of passes; a run
      that needs more passes than the bound is [None], and termination is a
      theorem, not an assumption.
    - The directory [crawl] reads is the list of its files with their
      texts, so failures of the file system are outside the model, and
      [re.findall] is a backtracking matcher for the constructs of the one
      pattern the program uses.
    - Theorems that need exact arithmetic say so; where the binary64 run
      differs (a loop that does not end, a sum that is rounded) the
      difference is stated on the [float] instance.

    Definitions come first (the program, then the quantities used to state
    and prove its properties), theorems after them. *)

From Stdlib Require Import ZArith QArith Qabs Qround Lia Lqa Floats Ascii String.
From stdpp Require Import base decidable option list gmap strings.

Set Warnings "-clear-no-such-hyp".
Local Open Scope Z_scope.

(** ** Exceptions and the result monad *)

Inductive exn : Set :=
| ZeroDivisionError
| KeyError
| IndexError
| ValueError.

Inductive result (A : Type) : Type :=
| Ok (a : A)
| Raise (e : exn).
Arguments Ok {A} a.
Arguments Raise {A} e.

#[export] Instance result_bind : MBind result := λ A B k m,
  match m with
  | Ok a => k a
  | Raise e => Raise e
  end.

#[export] Instance result_ret : MRet result := λ A a, Ok a.

(** A [for] loop whose body can raise: the loop stops at the first failure. *)
Fixpoint for_each {A S : Type} (body : S -> A -> result S) (l : list A) (s : S)
  : result S :=
  match l with
  | [] => Ok s
  | a :: l' => s' ← body s a; for_each body l' s'
  end.

(** ** Insertion-ordered dictionaries *)

Module Dict.
Section Dict.
Context {V : Type}.

(** [d[k]]: the caller turns [None] into [KeyError]. *)
Fixpoint get (d : list (string * V)) (k : string) : option V :=
  match d with
  | [] => None
  | (k', v) :: d' => if decide (k = k') then Some v else get d' k
  end.

(** [d[k] = v]: overwrite where the key sits, or append a new entry. *)
Fixpoint set (d : list (string * V)) (k : string) (v : V) : list (string * V) :=
  match d with
  | [] => [(k, v)]
  | (k', v') :: d' =>
      if decide (k = k') then (k', v) :: d' else (k', v') :: set d' k v
  end.

Definition keys (d : list (string * V)) : list string := map fst d.
Definition values (d : list (string * V)) : list V := map snd d.

Definition lookup (d : list (string * V)) (k : string) : result V :=
  match get d k with
  | Some v => Ok v
  | None => Raise KeyError
  end.
End Dict.
End Dict.

(** The link graph: page name to the set of pages it links to. *)
Abbreviation corpus_t := (list (string * gset string)).

(** ** Numbers *)

Class Number (F : Type) := {
  of_int : Z -> F;          (* an [int] operand promoted to the float type *)
  add : F -> F -> F;
  sub : F -> F -> F;
  mul : F -> F -> F;
  quot : F -> F -> F;       (* [/] once the divisor is known to be nonzero *)
  absv : F -> F;            (* [abs] *)
  lt : F -> F -> bool;      (* [<] *)
  finite : F -> bool;       (* [math.isfinite] *)
}.

(** Exact rational arithmetic. *)
#[export] Instance Q_Number : Number Q := {|
  of_int := inject_Z;
  add := Qplus;
  sub := Qminus;
  mul := Qmult;
  quot := Qdiv;
  absv := Qabs;
  lt x y := negb (Qle_bool y x);
  finite _ := true;
|}.

(** IEEE 754 binary64, the representation of a Python [float].  An [int] is
    converted with round-to-nearest-even, as [float(n)] does.  Python rounds
    the quotient of two [int]s once; dividing the converted operands gives
    the same double as long as both are below 2^53, which page counts, link
    counts and sample counts are. *)
Definition float_of_int (z : Z) : float :=
  SF2Prim (SpecFloat.binary_normalize FloatOps.prec FloatOps.emax z 0 false).

Definition float_finite (x : float) : bool :=
  match PrimFloat.classify x with
  | NaN | PInf | NInf => false
  | _ => true
  end.

#[export] Instance float_Number : Number float := {|
  of_int := float_of_int;
  add := PrimFloat.add;
  sub := PrimFloat.sub;
  mul := PrimFloat.mul;
  quot := PrimFloat.div;
  absv := PrimFloat.abs;
  lt := PrimFloat.ltb;
  finite := float_finite;
|}.

(** ** The program *)

Section Program.
Context {F : Type} {NF : Number F}.

(** [x / k] with [k] an [int]: Python raises on a zero divisor. *)
Definition div_int (x : F) (k : Z) : result F :=
  if decide (k = 0) then Raise ZeroDivisionError else Ok (quot x (of_int k)).

(** The literal [0.0005]. *)
Definition threshold : F := quot (of_int 5) (of_int 10000).

(** *** [transition_model] (lines 52-91) *)

(** The inner loop of lines 75-78: the keys of the corpus outside [linked]. *)
Definition collect_unlinked (corpus : corpus_t) (linked : gset string)
  : gset string :=
  foldl (λ unlinked key,
           if decide (key ∈ linked) then unlinked else {[key]} ∪ unlinked)
        ∅ (Dict.keys corpus).

(** The loop of lines 66-78, over the state [(model, linked, unlinked)].
    The inner loop reuses the name [key], but the outer loop binds it afresh
    at its next iteration and nothing reads it in between. *)
Definition scan_corpus (corpus : corpus_t) (page : string)
  : list (string * F) * gset string * gset string :=
  foldl (λ '(model, linked, unlinked) '(key, value),
           let model := Dict.set model key (of_int 0) in
           if decide (key ≠ page) then (model, linked, unlinked)
           else (model, value, collect_unlinked corpus value))
        ([], ∅, ∅) corpus.

(** The body of the loop of lines 84-89. *)
Definition assign_prob (linked : gset string) (damping_factor base_prob : F)
    (model : list (string * F)) (key : string) : result (list (string * F)) :=
  if decide (key ∈ linked) then
    q ← div_int damping_factor (Z.of_nat (size linked));
    Ok (Dict.set model key (add base_prob q))
  else Ok (Dict.set model key base_prob).

Definition transition_model (corpus : corpus_t) (page : string)
    (damping_factor : F) : result (list (string * F)) :=
  let p1 := sub (of_int 1) damping_factor in
  let '(model, linked, unlinked) := scan_corpus corpus page in
  let linked_count := Z.of_nat (size linked) in
  let unlinked_count := Z.of_nat (size unlinked) in
  let total := linked_count + unlinked_count in
  base_prob ← div_int p1 total;
  for_each (assign_prob linked damping_factor base_prob)
           (Dict.keys model) model.

(** *** [random.choices]

    The generator is a stream of raw draws; a call consumes one draw and
    returns the element at that draw reduced modulo the population size.
    Every element the library can return is returned for some draw. *)

(** [random.choices(population)[0]]: indexing an empty list fails. *)
Definition choices (raw : nat) (population : list string) : result string :=
  match population !! (raw `mod` length population)%nat with
  | Some x => Ok x
  | None => Raise IndexError
  end.

(** [random.choices(population, weights=weights)[0]]: the cumulative
    weights are summed from the left and must be as many as the
    population; their last element must exist, and the total must be
    positive and finite. *)
Definition choices_weighted (raw : nat) (population : list string)
    (weights : list F) : result string :=
  if decide (length weights ≠ length population) then Raise ValueError
  else
    match weights with
    | [] => Raise IndexError
    | w :: ws =>
        let total := add (foldl add w ws) (of_int 0) in
        if negb (lt (of_int 0) total) || negb (finite total)
        then Raise ValueError
        else choices raw population
    end.

(** *** [sample_pagerank] (lines 94-122) *)

(** [rank[sample] += 1 / n]: the subscript is read before the right-hand
    side is evaluated. *)
Definition record_visit (rank : list (string * F)) (sample : string) (n : Z)
  : result (list (string * F)) :=
  old ← Dict.lookup rank sample;
  inc ← div_int (of_int 1) n;
  Ok (Dict.set rank sample (add old inc)).

(** The loop of lines 110-120; [i] is the loop variable and indexes the
    draw consumed by the iteration. *)
Fixpoint walk (corpus : corpus_t) (damping_factor : F) (n : Z)
    (rng : nat -> nat) (steps i : nat) (sample : string)
    (rank : list (string * F)) : result (list (string * F)) :=
  match steps with
  | O => Ok rank
  | S steps' =>
      model ← transition_model corpus sample damping_factor;
      let next_pages := Dict.keys model in
      let probabilities := Dict.values model in
      sample' ← choices_weighted (rng i) next_pages probabilities;
      rank' ← record_visit rank sample' n;
      walk corpus damping_factor n rng steps' (S i) sample' rank'
  end.

Definition sample_pagerank (corpus : corpus_t) (damping_factor : F) (n : Z)
    (rng : nat -> nat) : result (list (string * F)) :=
  let rank := foldl (λ rank key, Dict.set rank key (of_int 0))
                    [] (Dict.keys corpus) in
  sample ← choices (rng 0%nat) (Dict.keys corpus);
  rank ← record_visit rank sample n;
  walk corpus damping_factor n rng (Z.to_nat (n - 1)) 1%nat sample rank.

(** *** [iterate_pagerank] (lines 125-167) *)

(** The loop of lines 150-154 for one [key]: [page] runs over the corpus
    and reads the rank map as it stands. *)
Definition add_incoming (corpus : corpus_t) (ranks : list (string * F))
    (key : string) (sigma : F) (page : string) : result F :=
  links ← Dict.lookup corpus page;
  if decide (key ∈ links) then
    let num_links := Z.of_nat (size links) in
    r ← Dict.lookup ranks page;
    q ← div_int r num_links;
    Ok (add sigma q)
  else Ok sigma.

(** Lines 147-157: the value computed for [key] from the rank map. *)
Definition new_value (corpus : corpus_t) (damping_factor : F)
    (ranks : list (string * F)) (key : string) : result F :=
  let N := Z.of_nat (length corpus) in
  new ← div_int (sub (of_int 1) damping_factor) N;
  sigma ← for_each (add_incoming corpus ranks key) (Dict.keys corpus)
                   (of_int 0);
  let sigma := mul damping_factor sigma in
  Ok (add new sigma).

(** The body of the loop of lines 145-162, over the state [(ranks, count)]:
    the new value is stored into [ranks] before the next key is handled. *)
Definition update_page (corpus : corpus_t) (damping_factor : F)
    (st : list (string * F) * Z) (key : string)
  : result (list (string * F) * Z) :=
  let '(ranks, count) := st in
  new ← new_value corpus damping_factor ranks key;
  old ← Dict.lookup ranks key;
  let count := if lt (absv (sub old new)) threshold then count + 1 else count in
  Ok (Dict.set ranks key new, count).

(** One pass of the [while] body, lines 143-162. *)
Definition sweep (corpus : corpus_t) (damping_factor : F)
    (ranks : list (string * F)) : result (list (string * F) * Z) :=
  for_each (update_page corpus damping_factor) (Dict.keys corpus) (ranks, 0).

(** [while True] under a bound on the number of passes: [None] when the
    bound is used up before the loop breaks. *)
Fixpoint loop (corpus : corpus_t) (damping_factor : F) (fuel : nat)
    (ranks : list (string * F)) : option (result (list (string * F))) :=
  match fuel with
  | O => None
  | S fuel' =>
      match sweep corpus damping_factor ranks with
      | Raise e => Some (Raise e)
      | Ok (ranks', count) =>
          if decide (count = Z.of_nat (length corpus)) then Some (Ok ranks')
          else loop corpus damping_factor fuel' ranks'
      end
  end.

(** Lines 134-140. *)
Definition initial_ranks (corpus : corpus_t) : result (list (string * F)) :=
  let N := Z.of_nat (length corpus) in
  for_each (λ ranks key, r ← div_int (of_int 1) N; Ok (Dict.set ranks key r))
           (Dict.keys corpus) [].

Definition iterate_pagerank (corpus : corpus_t) (damping_factor : F)
    (fuel : nat) : option (result (list (string * F))) :=
  match initial_ranks corpus with
  | Raise e => Some (Raise e)
  | Ok ranks => loop corpus damping_factor fuel ranks
  end.
End Program.

(** ** Small graphs *)

(** A single page without links. *)
Definition lone : corpus_t := [("A", ∅)].

(** A links to B, which has no links. *)
Definition chain : corpus_t := [("A", {["B"]}); ("B", ∅)].

(** Two pages linking to each other. *)
Definition pair : corpus_t := [("A", {["B"]}); ("B", {["A"]})].

(** A and B link to each other and to C, which has no links. *)
Definition tri : corpus_t :=
  [("A", {["B"; "C"]}); ("B", {["A"; "C"]}); ("C", ∅)].

(** Three pages, each with an outgoing link. *)
Definition triangle : corpus_t :=
  [("A", {["B"]}); ("B", {["A"; "C"]}); ("C", {["A"]})].

(** A cycle A -> B -> C -> A and a page D that links to A and that no page
    links to, in the key order A, D, C, B. *)
Definition cyc4 : corpus_t :=
  [("A", {["B"]}); ("D", {["A"]}); ("C", {["A"]}); ("B", {["C"]})].

(** Two damping factors in (0,1) that binary64 holds exactly: the largest
    double below 1, which the literal [0.9999999999999999] denotes, and
    2^-60. *)
Definition below_one : float := 0x1.fffffffffffffp-1%float.
Definition tiny : float := 0x1p-60%float.

(** The rational number a finite double stands for (0 for an infinity or a
    NaN). *)
Definition float_to_Q (x : float) : Q :=
  match Prim2SF x with
  | SpecFloat.S754_finite s m e =>
      (inject_Z (if s then Z.neg m else Z.pos m) * Qpower (2 # 1) e)%Q
  | _ => 0%Q
  end.

(** ** The data-model invariants *)

(** Keys of a dictionary are unique. *)
Definition unique_keys (corpus : corpus_t) : Prop := NoDup (Dict.keys corpus).

(** Closed corpus: every link target is itself a page. *)
Definition closed (corpus : corpus_t) : Prop :=
  Forall (λ kv, kv.2 ⊆ list_to_set (Dict.keys corpus)) corpus.

Definition no_self_loops (corpus : corpus_t) : Prop :=
  Forall (λ kv, kv.1 ∉ kv.2) corpus.

Definition valid (corpus : corpus_t) : Prop :=
  unique_keys corpus ∧ closed corpus ∧ no_self_loops corpus.

#[export] Instance valid_dec corpus : Decision (valid corpus).
Proof. unfold valid, unique_keys, closed, no_self_loops. apply _. Defined.

(** Sum of a list of rationals, and of the values of a rank map. *)
Definition Qsum (l : list Q) : Q := foldr Qplus 0%Q l.
Definition total_rank (ranks : list (string * Q)) : Q := Qsum (Dict.values ranks).

(** ** Rank maps as functions, and the program on them

    The definitions below restate the loops of the program on rank
    functions [string → F]; the lemmas further down show that the program
    run on a dictionary computes them. *)

(** Rank maps as functions: the value read for a page, and a point update. *)
Definition upd {V : Type} (r : string → V) (k : string) (v : V) : string → V :=
  λ q, if decide (q = k) then v else r q.

(** A dictionary laid out from a key list and a value function. *)
Definition tabulate {V : Type} (f : string → V) (ks : list string) : list (string * V) :=
  map (λ k, (k, f k)) ks.

Section Derived.
Context {F : Type} {NF : Number F}.

(** The value [transition_model] stores for [key] when the links of the
    current page are [linked] and [total] pages were counted. *)
Definition prob (linked : gset string) (damping_factor : F) (total : Z)
    (key : string) : F :=
  let base_prob := quot (sub (of_int 1) damping_factor) (of_int total) in
  if decide (key ∈ linked)
  then add base_prob (quot damping_factor (of_int (Z.of_nat (size linked))))
  else base_prob.

(** The sum accumulated by lines 148-154 for [key], reading ranks from [r]. *)
Definition incoming (corpus : corpus_t) (r : string → F) (key : string) : F :=
  foldl (λ sigma '(page, links),
           if decide (key ∈ links)
           then add sigma (quot (r page) (of_int (Z.of_nat (size links))))
           else sigma)
        (of_int 0) corpus.

(** The value of lines 147-157 for [key], reading ranks from [r]. *)
Definition new_rank (corpus : corpus_t) (d : F) (r : string → F) (key : string)
  : F :=
  add (quot (sub (of_int 1) d) (of_int (Z.of_nat (length corpus))))
      (mul d (incoming corpus r key)).

(** The effect of lines 147-162 for [key] on the rank function and on
    [count]. *)
Definition page_step (corpus : corpus_t) (d : F) (st : (string → F) * Z)
    (key : string) : (string → F) * Z :=
  let new := new_rank corpus d st.1 key in
  (upd st.1 key new,
   if lt (absv (sub (st.1 key) new)) threshold then (st.2 + 1)%Z else st.2).

(** The loop of lines 145-162 over some of the keys. *)
Definition pass (corpus : corpus_t) (d : F) (todo : list string)
    (st : (string → F) * Z) : (string → F) * Z :=
  foldl (page_step corpus d) st todo.

(** A whole pass, lines 143-162, with [count] starting at 0. *)
Definition sweep_fun (corpus : corpus_t) (d : F) (r : string → F)
  : (string → F) * Z :=
  pass corpus d (Dict.keys corpus) (r, 0%Z).

(** The [while] loop on rank functions. *)
Fixpoint loop_fun (corpus : corpus_t) (d : F) (fuel : nat) (r : string → F)
  : option (string → F) :=
  match fuel with
  | O => None
  | S fuel' =>
      let '(r', count) := sweep_fun corpus d r in
      if decide (count = Z.of_nat (length corpus)) then Some r'
      else loop_fun corpus d fuel' r'
  end.

(** The ranks of lines 139-140. *)
Definition uniform (corpus : corpus_t) : string → F :=
  λ _, quot (of_int 1) (of_int (Z.of_nat (length corpus))).

(** Whether the change of page [k] in the pass from [r] over [todo] is below
    the threshold (line 159). *)
Definition settled (corpus : corpus_t) (d : F) (todo : list string)
    (r : string → F) (k : string) : bool :=
  lt (absv (sub (r k) ((pass corpus d todo (r, 0%Z)).1 k))) threshold.

(** The rank functions at the start of each pass of the [while] loop. *)
Definition sweeps_fun (corpus : corpus_t) (d : F) (n : nat) : string → F :=
  Nat.iter n (λ r, (sweep_fun corpus d r).1) (uniform corpus).

(** The loop ends with pass number n + 1 when that pass is the first to
    count every page. *)
Definition converged (corpus : corpus_t) (d : F) (n : nat) : Prop :=
  (sweep_fun corpus d (sweeps_fun corpus d n)).2 = Z.of_nat (length corpus).

#[export] Instance converged_dec corpus d n : Decision (converged corpus d n).
Proof. unfold converged. apply _. Defined.

(** The synchronous pass that the specification asks for (section 4.3):
    every new value is computed from the rank map of the previous pass and
    stored into a separate map, which replaces the old one afterwards. *)
Definition sweep_synchronous (corpus : corpus_t) (damping_factor : F)
    (ranks : list (string * F)) : result (list (string * F) * Z) :=
  for_each
    (λ '(fresh, count) key,
       new ← new_value corpus damping_factor ranks key;
       old ← Dict.lookup ranks key;
       let count :=
         if lt (absv (sub old new)) threshold then (count + 1)%Z else count in
       Ok (Dict.set fresh key new, count))
    (Dict.keys corpus) ([], 0%Z).

(** The rank map a key really sees: pages before it in corpus order hold
    the values of the running pass, the others those of the previous one. *)
Definition mixed (pre : list string) (new old : list (string * F))
  : list (string * F) :=
  map (λ kv, (kv.1, if decide (kv.1 ∈ pre)
                    then default kv.2 (Dict.get new kv.1) else kv.2)) old.

End Derived.

(** The rank map at the start of pass number n + 1, as the code builds it. *)
Fixpoint sweeps {F : Type} {NF : Number F} (corpus : corpus_t) (d : F) (n : nat)
  : result (list (string * F)) :=
  match n with
  | O => initial_ranks corpus
  | S n' => ranks ← sweeps corpus d n'; st ← sweep corpus d ranks; Ok st.1
  end.

(** ** Exact arithmetic: the quantities the proofs measure *)

Local Open Scope Q_scope.

(** The number of pages, as the divisor the code uses. *)
Definition pages (corpus : corpus_t) : Q := inject_Z (Z.of_nat (length corpus)).

(** The pages drawn by the loop of lines 110-120, in order. *)
Fixpoint walk_trace (corpus : corpus_t) (d : Q) (rng : nat → nat)
    (steps i : nat) (sample : string) : list string :=
  match steps with
  | O => []
  | S steps' =>
      match transition_model corpus sample d with
      | Ok model =>
          match choices_weighted (rng i) (Dict.keys model) (Dict.values model) with
          | Ok sample' =>
              sample' :: walk_trace corpus d rng steps' (S i) sample'
          | Raise _ => []
          end
      | Raise _ => []
      end
  end.

(** The pages on which a visit is recorded (lines 108 and 120), in order. *)
Definition visits (corpus : corpus_t) (d : Q) (n : Z) (rng : nat → nat)
  : list string :=
  match choices (rng 0%nat) (Dict.keys corpus) with
  | Ok sample => sample :: walk_trace corpus d rng (Z.to_nat (n - 1)) 1 sample
  | Raise _ => []
  end.

(** How often page [q] occurs in a trace. *)
Definition visit_count (q : string) (trace : list string) : nat :=
  length (filter (λ s, s = q) trace).

(** The rank function after the increments for a trace have been added,
    one at a time and in order. *)
Definition tally (f : string → Q) (inc : Q) (trace : list string) : string → Q :=
  foldl (λ g s, upd g s (g s + inc)) f trace.

(** The share of the rank of a page with link set [links] that goes to
    [key]: 1/|links| when [key] is linked, nothing otherwise. *)
Definition weight (links : gset string) (key : string) : Q :=
  if decide (key ∈ links) then 1 / inject_Z (Z.of_nat (size links)) else 0.

(** The sum of the recurrence: rank(q)/outdegree(q) over the pages q that
    link to [key]. *)
Definition lin (corpus : corpus_t) (r : string → Q) (key : string) : Q :=
  Qsum (map (λ kv, weight kv.2 key * r kv.1) corpus).

(** The total share the keys of [todo] take from a page with link set
    [links]. *)
Definition colsum (links : gset string) (todo : list string) : Q :=
  Qsum (map (weight links) todo).

(** The outgoing links of a page, empty for a name that is not a page. *)
Definition links_of (corpus : corpus_t) (page : string) : gset string :=
  default ∅ (Dict.get corpus page).

(** The constant term (1 - d)/N of the recurrence. *)
Definition teleport (corpus : corpus_t) (d : Q) : Q := (1 - d) / pages corpus.

(** What the keys of [todo] receive in total from the rank function [g]. *)
Definition inflow (corpus : corpus_t) (g : string → Q) (todo : list string) : Q :=
  Qsum (map (lin corpus g) todo).

(** The pass of lines 145-162 with constant term [b], as a function on rank
    functions. *)
Definition gs (corpus : corpus_t) (b d : Q) (todo : list string)
    (g : string → Q) : string → Q :=
  foldl (λ g k, upd g k (b + d * lin corpus g k)) g todo.

(** A weighted sum of the absolute changes [e]: a key is weighted by 1 minus
    d times the share of its rank that goes to keys handled after it in the
    same pass. *)
Fixpoint wsum (corpus : corpus_t) (d : Q) (e : string → Q) (todo : list string)
  : Q :=
  match todo with
  | [] => 0
  | k :: t => (1 - d * colsum (links_of corpus k) t) * Qabs (e k) + wsum corpus d e t
  end.

(** The part of a rank change that is already passed on within the pass. *)
Fixpoint carried (corpus : corpus_t) (d : Q) (e : string → Q) (todo : list string)
  : Q :=
  match todo with
  | [] => 0
  | k :: t => d * colsum (links_of corpus k) t * Qabs (e k) + carried corpus d e t
  end.

(** Powers of the damping factor. *)
Fixpoint qpow (d : Q) (n : nat) : Q :=
  match n with
  | O => 1
  | S n' => d * qpow d n'
  end.

(** The change of each page in pass number n + 1. *)
Definition change (corpus : corpus_t) (d : Q) (n : nat) (q : string) : Q :=
  sweeps_fun corpus d (S n) q - sweeps_fun corpus d n q.

(** Line 159 for page [k] in pass number n + 1. *)
Definition small_change (corpus : corpus_t) (d : Q) (n : nat) (k : string) : Prop :=
  Qabs (sweeps_fun corpus d n k - sweeps_fun corpus d (S n) k) < 5 / 10000.


Local Close Scope Q_scope.

(** ** [crawl] (lines 25-49)

    The directory is the list of its entries in the order [os.listdir]
    returns them, each a file name with the text [f.read()] gives for it;
    texts and names are sequences of code points below 256.  A run in
    which [os.listdir], [open] or [f.read()] raises (a missing directory, a
    subdirectory or an unreadable file with a name in [.html], a text that
    does not decode) has no listing of this kind: there [crawl] returns
    nothing, and the statements about [crawl] speak of the corpus it
    returns when it does.  The pattern of line 39 is run by a backtracking
    matcher for the constructs it uses. *)

(** One element of a pattern: a literal character, a greedy or lazy
    repetition of a character class, or the start or end of the group. *)
Inductive item : Type :=
| Chr (c : ascii)
| Star (p : ascii → bool)
| Plus (p : ascii → bool)
| LazyStar (p : ascii → bool)
| Open
| Close.

(** [p*]: as many characters as possible, giving back one at a time while
    the rest of the pattern fails. *)
Fixpoint greedy_star {R : Type} (p : ascii → bool)
    (k : list ascii → option R) (s : list ascii) : option R :=
  match s with
  | c :: s' =>
      if p c then
        match greedy_star p k s' with
        | Some r => Some r
        | None => k s
        end
      else k s
  | [] => k []
  end.

(** [p+]: one character, then [p*]. *)
Definition greedy_plus {R : Type} (p : ascii → bool)
    (k : list ascii → option R) (s : list ascii) : option R :=
  match s with
  | c :: s' => if p c then greedy_star p k s' else None
  | [] => None
  end.

(** [p*?]: as few characters as possible, taking one more while the rest of
    the pattern fails. *)
Fixpoint lazy_star {R : Type} (p : ascii → bool)
    (k : list ascii → option R) (s : list ascii) : option R :=
  match k s with
  | Some r => Some r
  | None =>
      match s with
      | c :: s' => if p c then lazy_star p k s' else None
      | [] => None
      end
  end.

(** A match of a pattern at the start of [s]: the text of the group and what
    is left of [s] after the match.  [opened] is the text from the start of
    the group on. *)
Fixpoint match_items (items : list item) (opened group s : list ascii)
  : option (list ascii * list ascii) :=
  match items with
  | [] => Some (group, s)
  | Chr c :: items' =>
      match s with
      | c' :: s' =>
          if decide (c = c') then match_items items' opened group s' else None
      | [] => None
      end
  | Star p :: items' => greedy_star p (match_items items' opened group) s
  | Plus p :: items' => greedy_plus p (match_items items' opened group) s
  | LazyStar p :: items' => lazy_star p (match_items items' opened group) s
  | Open :: items' => match_items items' s group s
  | Close :: items' =>
      match_items items' opened (take (length opened - length s) opened) s
  end.

(** [re.findall] for a pattern with one group: the leftmost match is looked
    for at every position from left to right, and the search goes on where
    a match ended; [skip] counts the characters of the last match still to
    be passed over. *)
Fixpoint findall (pattern : list item) (s : list ascii) (skip : nat)
  : list (list ascii) :=
  match s with
  | [] =>
      match skip, match_items pattern [] [] [] with
      | O, Some (group, _) => [group]
      | _, _ => []
      end
  | c :: s' =>
      match skip with
      | S skip' => findall pattern s' skip'
      | O =>
          match match_items pattern [] [] s with
          | Some (group, rest) =>
              group :: findall pattern s' (length s - length rest - 1)
          | None => findall pattern s' 0
          end
      end
  end.

(** [\s] on code points below 256. *)
Definition is_space (c : ascii) : bool :=
  let n := nat_of_ascii c in
  ((9 <=? n) && (n <=? 13) || (28 <=? n) && (n <=? 32)
   || (n =? 133) || (n =? 160))%nat.

(** The double quote, [>] and [<]. *)
Definition dquote : ascii := "034"%char.
Definition gt_sign : ascii := ">"%char.
Definition lt_sign : ascii := "<"%char.

(** [[^c]]. *)
Definition other_than (c : ascii) : ascii → bool :=
  λ c', if decide (c' = c) then false else true.

(** The pattern of line 39: [<a], then [\s+], then [[^>]*?], then [href=]
    and a double quote, then the group (any run of characters other than
    the double quote, taken greedily), then a double quote. *)
Definition href_pattern : list item :=
  [Chr lt_sign; Chr "a"; Plus is_space; LazyStar (other_than gt_sign);
   Chr "h"; Chr "r"; Chr "e"; Chr "f"; Chr "="; Chr dquote;
   Open; Star (other_than dquote); Close; Chr dquote]%char.

(** Line 39. *)
Definition find_links (contents : string) : list string :=
  map string_of_list_ascii
      (findall href_pattern (list_ascii_of_string contents) 0).

(** [filename.endswith(".html")]. *)
Definition is_html (filename : string) : bool :=
  bool_decide (list_ascii_of_string ".html" `suffix_of`
               list_ascii_of_string filename).

(** The body of the loop of lines 34-40. *)
Definition read_page (pages : corpus_t) (entry : string * string) : corpus_t :=
  let '(filename, contents) := entry in
  if is_html filename then
    let links := find_links contents in
    Dict.set pages filename (list_to_set links ∖ {[filename]})
  else pages.

(** The body of the loop of lines 43-47. *)
Definition keep_known (pages : corpus_t) (filename : string) : result corpus_t :=
  links ← Dict.lookup pages filename;
  Ok (Dict.set pages filename
        (filter (λ link, link ∈ Dict.keys pages) links)).

Definition crawl (directory : list (string * string)) : result corpus_t :=
  let pages := foldl read_page [] directory in
  for_each keep_known (Dict.keys pages) pages.

(** ** Texts with anchors

    Vocabulary for the statements about the pattern of line 39. *)

(** The literal [href=] with the opening quote. *)
Definition href_chars : list ascii := list_ascii_of_string "href=" ++ [dquote].

(** The text of an anchor up to the closing quote of its target: [<a], the
    attributes, [href=] and the quoted target. *)
Definition anchor (attrs target : list ascii) : list ascii :=
  [lt_sign; "a"%char] ++ attrs ++ href_chars ++ target ++ [dquote].

(** In [attrs] followed by [href_chars], the literal begins nowhere inside
    [attrs]. *)
Fixpoint href_last (attrs : list ascii) : bool :=
  match attrs with
  | [] => true
  | _ :: attrs' =>
      negb (bool_decide (href_chars `prefix_of` attrs ++ href_chars))
      && href_last attrs'
  end.

(** The text has no [<a] followed by a white-space character. *)
Fixpoint no_anchor (text : list ascii) : bool :=
  match text with
  | [] => true
  | c1 :: text' =>
      match text' with
      | c2 :: c3 :: _ =>
          negb (bool_decide (c1 = lt_sign) && bool_decide (c2 = "a"%char)
                && is_space c3)
      | _ => true
      end && no_anchor text'
  end.

(** A directory of three files, two of them pages. *)
Definition link_to (target : string) : string :=
  string_of_list_ascii
    (anchor [" "%char] (list_ascii_of_string target) ++ [gt_sign]).

Definition site : list (string * string) :=
  [("1.html", link_to "2.html");
   ("2.html", link_to "1.html" +:+ "and" +:+ link_to "elsewhere.html");
   ("notes.txt", link_to "1.html")].

(** ** The program at work *)

(** Damping 0.85 on the graph A <-> B, both -> C: from A, 0.05 for A and
    0.475 for B and C. *)
Example transition_model_tri :
  transition_model tri "A" (17 # 20)%Q =
    Ok [("A", (1 - (17 # 20)) / 3);
        ("B", (1 - (17 # 20)) / 3 + (17 # 20) / 2);
        ("C", (1 - (17 # 20)) / 3 + (17 # 20) / 2)]%Q.
Proof. reflexivity. Qed.

(** A page that is not in the corpus leaves [total] at 0. *)
Example transition_model_unknown_page :
  transition_model tri "Z" (17 # 20)%Q = Raise ZeroDivisionError.
Proof. reflexivity. Qed.

(** Four samples with the draws 0, 1, 2, 3: A, B, C, A. *)
Example sample_pagerank_tri :
  sample_pagerank tri (1 # 2)%Q 4 (λ i, i) =
    Ok [("A", 0 + 1 / 4 + 1 / 4); ("B", 0 + 1 / 4); ("C", 0 + 1 / 4)]%Q.
Proof. reflexivity. Qed.

(** The first draw on an empty corpus indexes an empty list. *)
Example sample_pagerank_empty :
  sample_pagerank [] (1 # 2)%Q 5 (λ i, i) = Raise IndexError.
Proof. reflexivity. Qed.

(** Two pages linking to each other keep the rank 1/2 each. *)
Example iterate_pagerank_pair :
  ∃ a b, iterate_pagerank pair (17 # 20)%Q 1 = Some (Ok [("A", a); ("B", b)]) ∧
         (a == 1 # 2)%Q ∧ (b == 1 # 2)%Q.
Proof. eexists _, _. repeat split; vm_compute; reflexivity. Qed.

(** In binary64 the one-page graph ends at 0.15000000000000002. *)
Example iterate_pagerank_float :
  iterate_pagerank lone 0x1.b333333333333p-1%float 2 =
    Some (Ok [("A", 0x1.3333333333334p-3%float)]).
Proof. vm_compute. reflexivity. Qed.

(** The runs used further down behave in binary64 as they do over the
    rationals: the in-place pass on A -> B gives B the value 0.375 and counts
    no page; the loop on [tri] with damping 0.85 returns at its sixth pass;
    on [triangle] with damping 0.5 it returns at its fifth pass with ranks
    that add up to more than 1 + 2^-15. *)
Example sweep_chain_float :
  sweep chain 0.5%float [("A", 0.5%float); ("B", 0.5%float)] =
    Ok ([("A", 0.25%float); ("B", 0.375%float)], 0).
Proof. vm_compute. reflexivity. Qed.

Example iterate_pagerank_tri_float :
  iterate_pagerank tri 0x1.b333333333333p-1%float 5 = None ∧
  ∃ r, iterate_pagerank tri 0x1.b333333333333p-1%float 6 = Some (Ok r).
Proof. split; [|eexists]; vm_compute; reflexivity. Qed.

Example iterate_pagerank_triangle_float :
  iterate_pagerank triangle 0.5%float 4 = None ∧
  ∃ r, iterate_pagerank triangle 0.5%float 5 = Some (Ok r) ∧
       PrimFloat.ltb (1 + 0x1p-15) (foldl PrimFloat.add 0%float (Dict.values r))
       = true.
Proof. split; [|eexists; split]; vm_compute; reflexivity. Qed.

(** Nine additions of the double nearest to 1/9 give 1.0000000000000002. *)
Example sample_pagerank_above_one :
  sample_pagerank lone 0x1.b333333333333p-1%float 9 (λ _, 0%nat) =
    Ok [("A", 0x1.0000000000001p+0%float)].
Proof. vm_compute. reflexivity. Qed.

(** The quotient 5/10000 is the double that the literal [0.0005] denotes. *)
Example threshold_float : threshold = 0x1.0624dd2f1a9fcp-11%float.
Proof. vm_compute. reflexivity. Qed.

(** The pattern of line 39 on a text with two anchors, and [crawl] on the
    three files of [site]: the text file is skipped, and so is the link to
    a page that is not in the directory. *)
Example find_links_two :
  find_links (link_to "1.html" +:+ "and" +:+ link_to "elsewhere.html") =
    ["1.html"; "elsewhere.html"].
Proof. vm_compute. reflexivity. Qed.

(** The pattern does not ask for [href] to be a whole attribute name: the
    first attribute that ends in [href=] is taken. *)
Example find_links_data_href :
  find_links (string_of_list_ascii
                (anchor (list_ascii_of_string " data-") (list_ascii_of_string "y")
                 ++ list_ascii_of_string " href=" ++ [dquote; "x"; dquote; gt_sign]%char))
    = ["y"].
Proof. vm_compute. reflexivity. Qed.

Example crawl_site :
  crawl site = Ok [("1.html", {["2.html"]}); ("2.html", {["1.html"]})].
Proof. vm_compute. reflexivity. Qed.

(** ** Dictionaries: reading after writing, keys after writing *)

Section DictFacts.
Context {V : Type}.
Implicit Types (d : list (string * V)) (k : string) (v : V).

Lemma get_set_eq d k v : Dict.get (Dict.set d k v) k = Some v.
Proof.
  induction d as [|[k' v'] d IH]; simpl.
  - by rewrite decide_True.
  - destruct (decide (k = k')) as [->|Hne]; simpl.
    + by rewrite decide_True.
    + by rewrite decide_False.
Qed.

Lemma get_set_ne d k k' v :
  k' ≠ k → Dict.get (Dict.set d k v) k' = Dict.get d k'.
Proof.
  intros Hne. induction d as [|[k0 v0] d IH]; simpl.
  - by rewrite decide_False.
  - destruct (decide (k = k0)) as [->|Hk]; simpl.
    + by rewrite !decide_False.
    + by rewrite IH.
Qed.

Lemma get_Some_keys d k v : Dict.get d k = Some v → k ∈ Dict.keys d.
Proof.
  induction d as [|[k' v'] d IH]; simpl; [done|].
  destruct (decide (k = k')) as [->|Hne]; intros Hg.
  - apply list_elem_of_here.
  - apply list_elem_of_further. auto.
Qed.

Lemma get_is_Some d k : k ∈ Dict.keys d → is_Some (Dict.get d k).
Proof.
  induction d as [|[k' v'] d IH]; simpl.
  - intros Hin. by apply not_elem_of_nil in Hin.
  - intros Hin. destruct (decide (k = k')); [by eexists|].
    apply IH. apply elem_of_cons in Hin as [?|?]; [done|done].
Qed.

(** Writing to a key that is present leaves the key order alone. *)
Lemma keys_set_present d k v :
  k ∈ Dict.keys d → Dict.keys (Dict.set d k v) = Dict.keys d.
Proof.
  induction d as [|[k' v'] d IH]; simpl.
  - intros Hin. by apply not_elem_of_nil in Hin.
  - intros Hin. destruct (decide (k = k')) as [->|Hne]; simpl; [done|].
    f_equal. apply IH. apply elem_of_cons in Hin as [?|?]; [done|done].
Qed.

(** Writing to a fresh key appends it. *)
Lemma set_fresh d k v : k ∉ Dict.keys d → Dict.set d k v = d ++ [(k, v)].
Proof.
  induction d as [|[k' v'] d IH]; simpl; [done|].
  intros Hnin. apply not_elem_of_cons in Hnin as [Hne Hnin].
  rewrite decide_False by done. by rewrite IH.
Qed.

(** The entry found for the key of a member of a duplicate-free dictionary
    is that member. *)
Lemma get_member d k v :
  NoDup (Dict.keys d) → (k, v) ∈ d → Dict.get d k = Some v.
Proof.
  induction d as [|[k' v'] d IH]; simpl.
  - intros _ Hin. by apply not_elem_of_nil in Hin.
  - intros Hnd Hin. apply NoDup_cons in Hnd as [Hk' Hnd].
    apply elem_of_cons in Hin as [Heq|Hin].
    + inversion Heq; subst. by rewrite decide_True.
    + destruct (decide (k = k')) as [->|Hne]; [|by apply IH].
      exfalso. apply Hk'. unfold Dict.keys.
      change k' with (fst (k', v)). by apply list_elem_of_fmap_2.
Qed.

Lemma get_Some_member d k v : Dict.get d k = Some v → (k, v) ∈ d.
Proof.
  induction d as [|[k' v'] d IH]; simpl; [done|].
  destruct (decide (k = k')) as [->|Hne]; intros Hg.
  - inversion Hg; subst. apply list_elem_of_here.
  - apply list_elem_of_further. auto.
Qed.

Lemma keys_tabulate (f : string → V) ks : Dict.keys (tabulate f ks) = ks.
Proof.
  unfold Dict.keys, tabulate. rewrite map_map. simpl. apply map_id.
Qed.

Lemma values_tabulate (f : string → V) ks :
  Dict.values (tabulate f ks) = map f ks.
Proof. unfold Dict.values, tabulate. by rewrite map_map. Qed.

Lemma get_tabulate (f : string → V) ks k :
  k ∈ ks → Dict.get (tabulate f ks) k = Some (f k).
Proof.
  induction ks as [|k' ks IH]; simpl.
  - intros Hin. by apply not_elem_of_nil in Hin.
  - intros Hin. destruct (decide (k = k')) as [->|Hne]; [done|].
    apply IH. apply elem_of_cons in Hin as [?|?]; [done|done].
Qed.

End DictFacts.

Section TabulateFacts.
Context {V : Type}.
Implicit Types (f g : string → V) (ks : list string).

Lemma tabulate_ext f g ks :
  (∀ k, k ∈ ks → f k = g k) → tabulate f ks = tabulate g ks.
Proof.
  intros Hfg. unfold tabulate. apply map_ext_in. intros k Hk.
  rewrite Hfg; [done|]. by apply list_elem_of_In.
Qed.

Lemma set_tabulate_absent f ks k v :
  k ∉ ks → tabulate (upd f k v) ks = tabulate f ks.
Proof.
  intros Hnin. apply tabulate_ext. intros q Hq. unfold upd.
  rewrite decide_False; [done|]. intros ->. done.
Qed.

(** [d[k] = v] on a tabulated dictionary is a point update of the function. *)
Lemma set_tabulate f ks k v :
  NoDup ks → k ∈ ks → Dict.set (tabulate f ks) k v = tabulate (upd f k v) ks.
Proof.
  induction ks as [|k' ks IH]; simpl; intros Hnd Hin.
  - by apply not_elem_of_nil in Hin.
  - apply NoDup_cons in Hnd as [Hk' Hnd].
    destruct (decide (k = k')) as [->|Hne].
    + unfold upd at 1. rewrite decide_True by done.
      f_equal. symmetry. by apply set_tabulate_absent.
    + unfold upd at 1. rewrite decide_False by done.
      f_equal. apply IH; [done|].
      apply elem_of_cons in Hin as [?|?]; [done|done].
Qed.

(** A dictionary with duplicate-free keys is the tabulation of its reads. *)
Lemma tabulate_get (d : list (string * V)) (dflt : V) :
  NoDup (Dict.keys d) →
  d = tabulate (λ k, default dflt (Dict.get d k)) (Dict.keys d).
Proof.
  intros Hnd. unfold tabulate, Dict.keys. rewrite map_map.
  rewrite <- (map_id d) at 1. apply map_ext_in. intros [k v] Hin.
  simpl. rewrite (get_member d k v); [done|done|]. by apply list_elem_of_In.
Qed.

(** Filling a fresh dictionary key by key, as in [rank[key] = 0.0]. *)
Lemma fill_tabulate (v0 : V) ks (pre : list string) :
  NoDup (pre ++ ks) →
  foldl (λ d k, Dict.set d k v0) (tabulate (λ _, v0) pre) ks =
    tabulate (λ _, v0) (pre ++ ks).
Proof.
  revert pre. induction ks as [|k ks IH]; intros pre Hnd; simpl.
  - by rewrite app_nil_r.
  - rewrite set_fresh.
    + replace (tabulate (λ _, v0) pre ++ [(k, v0)])
        with (tabulate (λ _ : string, v0) (pre ++ [k])).
      * rewrite IH; [by rewrite <- app_assoc|]. by rewrite <- app_assoc.
      * unfold tabulate. by rewrite map_app.
    + rewrite keys_tabulate. apply NoDup_app in Hnd as (_ & Hdisj & _).
      intros Hin. apply (Hdisj k Hin). apply list_elem_of_here.
Qed.

(** A loop that writes [val k] at every key [k] it visits. *)
Lemma for_each_set (body : list (string * V) → string → result (list (string * V)))
    (val : string → V) ks :
  NoDup ks →
  (∀ f k, k ∈ ks →
     body (tabulate f ks) k = Ok (Dict.set (tabulate f ks) k (val k))) →
  ∀ todo f, todo ⊆ ks →
    for_each body todo (tabulate f ks) =
      Ok (tabulate (λ q, if decide (q ∈ todo) then val q else f q) ks).
Proof.
  intros Hnd Hbody todo. induction todo as [|k todo IH]; intros f Hsub.
  - done.
  - simpl. rewrite Hbody by set_solver. simpl.
    rewrite set_tabulate by (done || set_solver).
    rewrite IH by set_solver. f_equal. apply tabulate_ext. intros q _.
    unfold upd. destruct (decide (q ∈ todo)) as [Hq|Hq].
    + rewrite decide_True; [done|]. by apply list_elem_of_further.
    + destruct (decide (q = k)) as [->|Hne].
      * rewrite decide_True; [done|]. apply list_elem_of_here.
      * rewrite decide_False; [done|]. rewrite elem_of_cons. tauto.
Qed.
End TabulateFacts.

(** ** [transition_model]: what it returns *)

Section ModelFacts.
Context {F : Type} {NF : Number F}.

(** The set collected by lines 75-78. *)
Lemma collect_unlinked_spec (corpus : corpus_t) (linked : gset string) :
  collect_unlinked corpus linked = list_to_set (Dict.keys corpus) ∖ linked.
Proof.
  unfold collect_unlinked.
  assert (Hgen : ∀ ks (acc : gset string),
    foldl (λ unlinked key,
             if decide (key ∈ linked) then unlinked else {[key]} ∪ unlinked)
          acc ks = acc ∪ (list_to_set ks ∖ linked)).
  { induction ks as [|k ks IH]; intros acc; simpl.
    - set_solver.
    - rewrite IH. destruct (decide (k ∈ linked)); set_solver. }
  rewrite Hgen. set_solver.
Qed.

(** The state after the loop of lines 66-78. *)
Lemma scan_corpus_spec (corpus : corpus_t) (page : string) :
  unique_keys corpus →
  scan_corpus corpus page =
    (tabulate (λ _, of_int 0) (Dict.keys corpus),
     default ∅ (Dict.get corpus page),
     default ∅ (collect_unlinked corpus <$> Dict.get corpus page)).
Proof.
  unfold unique_keys, scan_corpus.
  set (step := λ '(model, linked, unlinked) '(key, value), _).
  assert (Hgen : ∀ (cs : corpus_t) pre l0 u0,
    NoDup (pre ++ Dict.keys cs) →
    foldl step (tabulate (λ _, of_int 0) pre, l0, u0) cs =
      (tabulate (λ _, of_int 0) (pre ++ Dict.keys cs),
       default l0 (Dict.get cs page),
       default u0 (collect_unlinked corpus <$> Dict.get cs page))).
  { induction cs as [|[k v] cs IH]; intros pre l0 u0 Hnd; simpl.
    - by rewrite app_nil_r.
    - assert (Hfresh : k ∉ pre).
      { apply NoDup_app in Hnd as (_ & Hdisj & _). intros Hin.
        apply (Hdisj k Hin). apply list_elem_of_here. }
      rewrite set_fresh by (by rewrite keys_tabulate).
      replace (tabulate (λ _ : string, of_int 0) pre ++ [(k, of_int 0)])
        with (tabulate (λ _ : string, of_int 0) (pre ++ [k]))
        by (unfold tabulate; by rewrite map_app).
      assert (Hnd' : NoDup ((pre ++ [k]) ++ Dict.keys cs))
        by (by rewrite <- app_assoc).
      destruct (decide (k ≠ page)) as [Hne|Heq].
      + rewrite IH by done. rewrite <- app_assoc. simpl.
        by rewrite decide_False.
      + assert (k = page) as -> by (by destruct (decide (k = page))).
        rewrite IH by done. rewrite <- app_assoc. simpl.
        rewrite decide_True by done.
        assert (Hnone : Dict.get cs page = None).
        { destruct (Dict.get cs page) eqn:Hg; [|done].
          apply get_Some_keys in Hg. exfalso.
          rewrite <- app_assoc in Hnd'. simpl in Hnd'.
          apply NoDup_app in Hnd' as (_ & _ & Hnd').
          apply NoDup_cons in Hnd' as [Hnin _]. done. }
        by rewrite Hnone. }
  intros Hnd. apply (Hgen corpus [] ∅ ∅). done.
Qed.

(** For a page of the corpus, [transition_model] returns normally, with one
    entry per page in corpus order.  No division can fail: [total] counts at
    least the page itself, and the link count divides only for a member of
    the link set. *)
Lemma transition_model_spec (corpus : corpus_t) (page : string)
    (linked : gset string) (damping_factor : F) :
  unique_keys corpus →
  Dict.get corpus page = Some linked →
  transition_model corpus page damping_factor =
    Ok (tabulate
          (prob linked damping_factor
             (Z.of_nat (size (linked ∪ list_to_set (Dict.keys corpus)))))
          (Dict.keys corpus)).
Proof.
  intros Hnd Hget. unfold transition_model.
  rewrite scan_corpus_spec by done. rewrite Hget. simpl.
  rewrite collect_unlinked_spec.
  set (keyset := list_to_set (Dict.keys corpus) : gset string).
  assert (Htotal : (Z.of_nat (size linked) + Z.of_nat (size (keyset ∖ linked)))%Z
                   = Z.of_nat (size (linked ∪ keyset))).
  { rewrite <- Nat2Z.inj_add. f_equal.
    rewrite <- size_union by set_solver. f_equal.
    apply set_eq. intros x. rewrite !elem_of_union, elem_of_difference.
    destruct (decide (x ∈ linked)); tauto. }
  rewrite Htotal.
  assert (Hpos : Z.of_nat (size (linked ∪ keyset)) ≠ 0).
  { assert (page ∈ linked ∪ keyset) as Hin.
    { apply elem_of_union_r. apply elem_of_list_to_set.
      eapply get_Some_keys, Hget. }
    assert (size (linked ∪ keyset) ≠ 0%nat); [|lia].
    intros Hz. apply size_empty_inv in Hz. set_solver. }
  unfold div_int at 1. rewrite decide_False by done. simpl.
  rewrite keys_tabulate.
  erewrite for_each_set with (val := prob linked damping_factor _); [|done| |done].
  - f_equal. apply tabulate_ext. intros k Hk. by rewrite decide_True.
  - intros f k Hk. unfold assign_prob, prob.
    destruct (decide (k ∈ linked)) as [Hin|Hnin]; [|done].
    unfold div_int. rewrite decide_False; [done|].
    assert (size linked ≠ 0%nat); [|lia].
    intros Hz. apply size_empty_inv in Hz. set_solver.
Qed.
End ModelFacts.

(** ** Counting pages *)

Lemma keys_length {V : Type} (d : list (string * V)) :
  length (Dict.keys d) = length d.
Proof. unfold Dict.keys. apply length_map. Qed.

(** In a closed corpus the links of a page are among the keys. *)
Lemma closed_links (corpus : corpus_t) (page : string) (linked : gset string) :
  closed corpus → Dict.get corpus page = Some linked →
  linked ⊆ list_to_set (Dict.keys corpus).
Proof.
  intros Hcl Hget. apply get_Some_member in Hget.
  unfold closed in Hcl. rewrite Forall_forall in Hcl.
  apply (Hcl (page, linked)). done.
Qed.

(** With unique keys and a closed corpus, [total] is the number of pages. *)
Lemma total_closed (corpus : corpus_t) (page : string) (linked : gset string) :
  unique_keys corpus → closed corpus → Dict.get corpus page = Some linked →
  size (linked ∪ list_to_set (Dict.keys corpus)) = length corpus.
Proof.
  intros Hnd Hcl Hget.
  rewrite (subseteq_union_1_L linked) by (by eapply closed_links).
  rewrite size_list_to_set by done. apply keys_length.
Qed.

(** The keys that belong to a set of pages are at most as many as the set,
    and exactly as many when the set is among the keys. *)
Lemma count_members_le (ks : list string) (linked : gset string) :
  NoDup ks → (length (filter (λ k, k ∈ linked) ks) ≤ size linked)%nat.
Proof.
  intros Hnd.
  rewrite <- (size_list_to_set (C := gset string) (filter (λ k, k ∈ linked) ks))
    by (by apply NoDup_filter).
  apply subseteq_size. intros x. rewrite elem_of_list_to_set, list_elem_of_filter.
  tauto.
Qed.

Lemma count_members_closed (ks : list string) (linked : gset string) :
  NoDup ks → linked ⊆ list_to_set ks →
  length (filter (λ k, k ∈ linked) ks) = size linked.
Proof.
  intros Hnd Hsub.
  rewrite <- (size_list_to_set (C := gset string) (filter (λ k, k ∈ linked) ks))
    by (by apply NoDup_filter).
  f_equal. apply set_eq. intros x.
  rewrite elem_of_list_to_set, list_elem_of_filter.
  split; [tauto|]. intros Hx. split; [done|].
  apply Hsub in Hx. by apply elem_of_list_to_set in Hx.
Qed.

(** ** Sums of rationals *)

Local Open Scope Q_scope.

Lemma Qsum_cons (x : Q) (l : list Q) : Qsum (x :: l) = x + Qsum l.
Proof. reflexivity. Qed.

Lemma Qsum_const (x : Q) {A : Type} (l : list A) :
  Qsum (map (λ _, x) l) == inject_Z (Z.of_nat (length l)) * x.
Proof.
  induction l as [|a l IH].
  - simpl. ring.
  - cbn [map Qsum foldr length]. rewrite IH.
    rewrite Nat2Z.inj_succ. unfold Z.succ. rewrite inject_Z_plus.
    change (inject_Z 1) with 1. ring.
Qed.

(** A sum of a constant plus an indicator term. *)
Lemma Qsum_indicator (b e : Q) (P : string → Prop) `{!∀ k, Decision (P k)}
    (ks : list string) :
  Qsum (map (λ k, if decide (P k) then b + e else b) ks) ==
    inject_Z (Z.of_nat (length ks)) * b +
    inject_Z (Z.of_nat (length (filter P ks))) * e.
Proof.
  induction ks as [|k ks IH].
  - simpl. ring.
  - cbn [map Qsum foldr length]. rewrite IH. rewrite filter_cons.
    rewrite Nat2Z.inj_succ. unfold Z.succ. rewrite inject_Z_plus.
    change (inject_Z 1) with 1.
    destruct (decide (P k)).
    + cbn [length]. rewrite Nat2Z.inj_succ. unfold Z.succ.
      rewrite inject_Z_plus. change (inject_Z 1) with 1. ring.
    + ring.
Qed.

Lemma inject_Z_nat_pos (n : nat) : (0 < n)%nat → 0 < inject_Z (Z.of_nat n).
Proof.
  intros Hn. change 0 with (inject_Z 0). rewrite <- Zlt_Qlt. lia.
Qed.

(** ** [transition_model] over the rationals *)

Lemma pages_pos (corpus : corpus_t) (page : string) (linked : gset string) :
  Dict.get corpus page = Some linked → 0 < pages corpus.
Proof.
  intros Hget. apply inject_Z_nat_pos.
  destruct corpus; [done|simpl; lia].
Qed.

(** The entries of the returned map, read back by key. *)
Lemma transition_model_entries (corpus : corpus_t) (page : string)
    (linked : gset string) (d : Q) :
  unique_keys corpus → closed corpus →
  Dict.get corpus page = Some linked →
  ∃ model,
    transition_model corpus page d = Ok model ∧
    model = tabulate (prob linked d (Z.of_nat (length corpus))) (Dict.keys corpus).
Proof.
  intros Hnd Hcl Hget. eexists. split.
  - apply transition_model_spec; done.
  - by rewrite (total_closed corpus page linked).
Qed.

(** C3. In a closed corpus, for a page with k > 0 outgoing links L,
    [transition_model] returns a map over the pages of the corpus that gives
    every page q exactly (1 - d)/N + (d/k if q is in L, else 0). *)
Theorem transition_model_linked (corpus : corpus_t) (page : string)
    (linked : gset string) (d : Q) :
  unique_keys corpus → closed corpus →
  Dict.get corpus page = Some linked →
  (0 < size linked)%nat →
  0 < d ∧ d < 1 →
  ∃ model,
    transition_model corpus page d = Ok model ∧
    Dict.keys model = Dict.keys corpus ∧
    ∀ q, q ∈ Dict.keys corpus →
      ∃ v, Dict.get model q = Some v ∧
           v == (1 - d) / pages corpus +
                (if decide (q ∈ linked)
                 then d / inject_Z (Z.of_nat (size linked)) else 0).
Proof.
  intros Hnd Hcl Hget Hk Hd.
  destruct (transition_model_entries corpus page linked d) as (model & Hrun & ->);
    [done..|].
  exists (tabulate (prob linked d (Z.of_nat (length corpus))) (Dict.keys corpus)).
  split; [done|]. split; [apply keys_tabulate|].
  intros q Hq. eexists. split; [by apply get_tabulate|].
  unfold prob, pages. simpl. destruct (decide (q ∈ linked)); [reflexivity|].
  change (inject_Z 1) with 1. rewrite Qplus_0_r. reflexivity.
Qed.

Lemma transition_model_linked_witness :
  ∃ model,
    transition_model tri "A" (1 # 2) = Ok model ∧
    Dict.keys model = Dict.keys tri ∧
    ∀ q, q ∈ Dict.keys tri →
      ∃ v, Dict.get model q = Some v ∧
           v == (1 - (1 # 2)) / pages tri +
                (if decide (q ∈ ({["B"; "C"]} : gset string))
                 then (1 # 2) / inject_Z (Z.of_nat (size ({["B"; "C"]} : gset string)))
                 else 0).
Proof.
  apply (transition_model_linked tri "A" {["B"; "C"]} (1 # 2)).
  - apply (bool_decide_unpack _). vm_compute. reflexivity.
  - apply (bool_decide_unpack _). vm_compute. reflexivity.
  - vm_compute. reflexivity.
  - vm_compute. lia.
  - split; reflexivity.
Defined.

(** X12.  For a page with at least one link, in a closed corpus, the
    entries of the model add up to exactly 1, for every damping factor. *)
Lemma transition_model_linked_sum (corpus : corpus_t) (page : string)
    (linked : gset string) (d : Q) :
  unique_keys corpus → closed corpus →
  Dict.get corpus page = Some linked →
  (0 < size linked)%nat →
  ∃ model, transition_model corpus page d = Ok model ∧ total_rank model == 1.
Proof.
  intros Hnd Hcl Hget Hk.
  destruct (transition_model_entries corpus page linked d) as (model & Hrun & ->);
    [done..|].
  eexists. split; [done|].
  unfold total_rank. rewrite values_tabulate. unfold prob. simpl.
  rewrite (Qsum_indicator _ _ (λ k, k ∈ linked)).
  rewrite count_members_closed by (done || by eapply closed_links).
  rewrite keys_length.
  pose proof (pages_pos corpus page linked Hget) as HN. unfold pages in HN.
  pose proof (inject_Z_nat_pos (size linked) Hk) as HK.
  field. split; lra.
Qed.

(** C10, as the code has it.  For a page with no outgoing links every page
    of the corpus gets the same value, the quotient (1 - d)/N as the
    arithmetic in use computes it, whatever the damping factor.  Over exact
    rationals and for a damping factor in (0,1) the entries therefore add
    up to 1 - d, which is not 1. *)
Theorem transition_model_dangling (corpus : corpus_t) (page : string)
    (linked : gset string) (d : Q) :
  unique_keys corpus →
  Dict.get corpus page = Some linked →
  size linked = 0%nat →
  0 < d ∧ d < 1 →
  (∀ (F : Type) (NF : Number F) (d' : F),
     transition_model corpus page d' =
       Ok (tabulate
             (λ _, quot (sub (of_int 1) d') (of_int (Z.of_nat (length corpus))))
             (Dict.keys corpus))) ∧
  ∃ model,
    transition_model corpus page d = Ok model ∧
    Dict.keys model = Dict.keys corpus ∧
    (∀ q, q ∈ Dict.keys corpus →
       ∃ v, Dict.get model q = Some v ∧ v == (1 - d) / pages corpus) ∧
    total_rank model == 1 - d ∧
    ¬ total_rank model == 1.
Proof.
  intros Hnd Hget Hk Hd. apply size_empty_inv in Hk.
  apply leibniz_equiv in Hk. subst linked. split.
  { intros F NF d'. rewrite (transition_model_spec corpus page ∅ d' Hnd Hget).
    rewrite (union_empty_l_L (list_to_set (Dict.keys corpus))).
    rewrite size_list_to_set by done. rewrite keys_length.
    reflexivity. }
  eexists. split; [by apply transition_model_spec|].
  rewrite (union_empty_l_L (list_to_set (Dict.keys corpus))).
  rewrite size_list_to_set by done. rewrite keys_length.
  split; [apply keys_tabulate|].
  assert (Hsum : total_rank
            (tabulate (prob (F := Q) ∅ d (Z.of_nat (length corpus)))
               (Dict.keys corpus)) == 1 - d).
  { unfold total_rank. rewrite values_tabulate.
    rewrite (map_ext _ (λ _, (1 - d) / inject_Z (Z.of_nat (length corpus))))
      by (intros q; unfold prob; by rewrite decide_False by set_solver).
    rewrite Qsum_const. rewrite keys_length.
    pose proof (pages_pos corpus page ∅ Hget) as HN. unfold pages in HN.
    field. lra. }
  split; [|split; [done|]].
  - intros q Hq. eexists. split; [by apply get_tabulate|].
    unfold prob. rewrite decide_False by set_solver. reflexivity.
  - rewrite Hsum. lra.
Qed.

Lemma transition_model_dangling_witness :
  (∀ (F : Type) (NF : Number F) (d' : F),
     transition_model tri "C" d' =
       Ok (tabulate
             (λ _, quot (sub (of_int 1) d') (of_int (Z.of_nat (length tri))))
             (Dict.keys tri))) ∧
  ∃ model,
    transition_model tri "C" (17 # 20) = Ok model ∧
    Dict.keys model = Dict.keys tri ∧
    (∀ q, q ∈ Dict.keys tri →
       ∃ v, Dict.get model q = Some v ∧ v == (1 - (17 # 20)) / pages tri) ∧
    total_rank model == 1 - (17 # 20) ∧
    ¬ total_rank model == 1.
Proof.
  apply (transition_model_dangling tri "C" ∅ (17 # 20)).
  - apply (bool_decide_unpack _). vm_compute. reflexivity.
  - vm_compute. reflexivity.
  - vm_compute. reflexivity.
  - split; reflexivity.
Defined.

(** C10 in binary64, the arithmetic of the interpreter, with the damping
    factor 2^-60, which lies in (0,1): on the one-page graph 1 - d rounds to
    1.0, the page gets the value 1.0, and the entries add up to exactly 1,
    not to something else. *)
Lemma transition_model_dangling_rounds :
  valid lone ∧ Dict.get lone "A" = Some ∅ ∧
  PrimFloat.ltb 0 tiny = true ∧ PrimFloat.ltb tiny 1 = true ∧
  transition_model lone "A" tiny = Ok [("A", 1%float)] ∧
  foldl PrimFloat.add 0%float (Dict.values [("A", 1%float)]) = 1%float ∧
  float_to_Q 1 == 1.
Proof.
  split; [apply (bool_decide_unpack _); vm_compute; reflexivity|].
  repeat split; vm_compute; reflexivity.
Qed.

(** C2 at the one-page graph: the only page has no links, and the map
    returned for it holds the single value 3/20 = 1 - 17/20, so its entries
    do not add up to 1. *)
Theorem transition_model_lone :
  valid lone ∧
  transition_model lone "A" (17 # 20) = Ok [("A", (1 - (17 # 20)) / 1)] ∧
  total_rank [("A", (1 - (17 # 20)) / 1)] == 3 # 20 ∧
  ¬ total_rank [("A", (1 - (17 # 20)) / 1)] == 1.
Proof.
  split; [apply (bool_decide_unpack _); vm_compute; reflexivity|].
  split; [reflexivity|]. split; [reflexivity|]. intros Heq. discriminate Heq.
Qed.

(** ** [sample_pagerank]: the steps that do not depend on the arithmetic *)

Section SampleFacts.
Context {F : Type} {NF : Number F}.

(** Drawing from a non-empty population returns one of its elements. *)
Lemma choices_nonempty (raw : nat) (population : list string) :
  population ≠ [] →
  ∃ x, choices raw population = Ok x ∧ x ∈ population.
Proof.
  intros Hne. unfold choices.
  assert (Hlt : (raw `mod` length population < length population)%nat).
  { apply Nat.mod_upper_bound. destruct population; [done|simpl; lia]. }
  apply lookup_lt_is_Some_2 in Hlt as [x Hx]. rewrite Hx.
  exists x. split; [done|]. by eapply list_elem_of_lookup_2.
Qed.

(** Lines 104-105. *)
Lemma zero_ranks (ks : list string) :
  NoDup ks →
  foldl (λ rank key, Dict.set rank key (of_int 0)) [] ks =
    tabulate (λ _, of_int 0) ks.
Proof. intros Hnd. by apply (fill_tabulate (of_int 0) ks []). Qed.

(** [rank[sample] += 1 / n] on a page of the map. *)
Lemma record_visit_spec (f : string → F) (ks : list string) (sample : string)
    (n : Z) :
  NoDup ks → sample ∈ ks →
  record_visit (tabulate f ks) sample n =
    if decide (n = 0%Z) then Raise ZeroDivisionError
    else Ok (tabulate
               (upd f sample (add (f sample) (quot (of_int 1) (of_int n)))) ks).
Proof.
  intros Hnd Hin. unfold record_visit, Dict.lookup.
  rewrite get_tabulate by done. simpl. unfold div_int.
  destruct (decide (n = 0%Z)); [done|]. simpl.
  by rewrite set_tabulate.
Qed.

(** What [sample_pagerank] does when the sample count is below 1: the loop
    of lines 110-120 has no iteration, so only the first draw and the first
    increment run. *)
Lemma sample_pagerank_few (corpus : corpus_t) (damping_factor : F) (n : Z)
    (rng : nat → nat) :
  unique_keys corpus → (n < 1)%Z →
  sample_pagerank corpus damping_factor n rng =
    match choices (rng 0%nat) (Dict.keys corpus) with
    | Raise e => Raise e
    | Ok sample =>
        if decide (n = 0%Z) then Raise ZeroDivisionError
        else Ok (tabulate
                   (upd (λ _, of_int 0) sample
                      (add (of_int 0) (quot (of_int 1) (of_int n))))
                   (Dict.keys corpus))
    end.
Proof.
  intros Hnd Hn. unfold sample_pagerank. rewrite zero_ranks by done.
  destruct (decide (corpus = [])) as [->|Hne]; [done|].
  destruct (choices_nonempty (rng 0%nat) (Dict.keys corpus)) as (s & Hs & Hin).
  { by destruct corpus. }
  rewrite Hs. simpl. rewrite record_visit_spec by done.
  destruct (decide (n = 0%Z)); [done|]. simpl.
  replace (Z.to_nat (n - 1)) with 0%nat by lia. done.
Qed.
End SampleFacts.

(** C6, as the code has it.  [sample_pagerank] checks neither argument.  On
    an empty graph the first draw fails with [IndexError], whatever n is; on
    a non-empty graph, n = 0 fails with [ZeroDivisionError] at the first
    increment, and n < 0 returns normally, the first drawn page holding
    0.0 + 1/n and every other page 0.0. *)
Theorem sample_pagerank_unchecked (corpus : corpus_t) (d : Q) (n : Z)
    (rng : nat → nat) :
  unique_keys corpus →
  (corpus = [] → sample_pagerank corpus d n rng = Raise IndexError) ∧
  (corpus ≠ [] → n = 0%Z →
     sample_pagerank corpus d n rng = Raise ZeroDivisionError) ∧
  (corpus ≠ [] → (n < 0)%Z →
     ∃ sample,
       sample ∈ Dict.keys corpus ∧
       sample_pagerank corpus d n rng =
         Ok (tabulate (upd (λ _, 0) sample (0 + 1 / inject_Z n))
               (Dict.keys corpus))).
Proof.
  intros Hnd. split; [|split].
  - intros ->. done.
  - intros Hne ->. rewrite sample_pagerank_few by (done || lia).
    destruct (choices_nonempty (rng 0%nat) (Dict.keys corpus)) as (s & Hs & Hin).
    { by destruct corpus. }
    by rewrite Hs.
  - intros Hne Hn. rewrite sample_pagerank_few by (done || lia).
    destruct (choices_nonempty (rng 0%nat) (Dict.keys corpus)) as (s & Hs & Hin).
    { by destruct corpus. }
    rewrite Hs. exists s. split; [done|].
    rewrite decide_False by lia. done.
Qed.

Lemma sample_pagerank_unchecked_witness :
  (lone = [] → sample_pagerank lone (17 # 20) (-1) (λ _, 0%nat) = Raise IndexError) ∧
  (lone ≠ [] → (-1)%Z = 0%Z →
     sample_pagerank lone (17 # 20) (-1) (λ _, 0%nat) = Raise ZeroDivisionError) ∧
  (lone ≠ [] → (-1 < 0)%Z →
     ∃ sample,
       sample ∈ Dict.keys lone ∧
       sample_pagerank lone (17 # 20) (-1) (λ _, 0%nat) =
         Ok (tabulate (upd (λ _, 0) sample (0 + 1 / inject_Z (-1)))
               (Dict.keys lone))).
Proof.
  apply (sample_pagerank_unchecked lone (17 # 20) (-1) (λ _, 0%nat)).
  apply (bool_decide_unpack _). vm_compute. reflexivity.
Defined.

(** C6 at n = -1 on the one-page graph: no failure, the page is returned
    with the value 0 + 1/(-1), that is -1. *)
Lemma sample_pagerank_negative_count :
  valid lone ∧ (-1 < 1)%Z ∧
  sample_pagerank lone (17 # 20) (-1) (λ _, 0%nat) =
    Ok [("A", 0 + 1 / inject_Z (-1))] ∧
  0 + 1 / inject_Z (-1) == -1.
Proof.
  split; [apply (bool_decide_unpack _); vm_compute; reflexivity|].
  split; [lia|]. split; reflexivity.
Qed.

(** ** [sample_pagerank] over the rationals *)

Lemma tally_count (f : string → Q) (inc : Q) (trace : list string) (q : string) :
  tally f inc trace q ==
    f q + inject_Z (Z.of_nat (visit_count q trace)) * inc.
Proof.
  unfold tally, visit_count. revert f.
  induction trace as [|s trace IH]; intros f; simpl.
  - ring.
  - rewrite IH. rewrite filter_cons. unfold upd.
    destruct (decide (s = q)) as [->|Hne].
    + rewrite decide_True by done. cbn [length].
      rewrite Nat2Z.inj_succ. unfold Z.succ. rewrite inject_Z_plus.
      change (inject_Z 1) with 1. ring.
    + rewrite decide_False by done. reflexivity.
Qed.

Lemma Qsum_map_ext {A : Type} (f g : A → Q) (l : list A) :
  (∀ a, a ∈ l → f a == g a) → Qsum (map f l) == Qsum (map g l).
Proof.
  induction l as [|a l IH]; intros Hfg; simpl; [reflexivity|].
  rewrite (Hfg a) by apply list_elem_of_here. rewrite IH; [reflexivity|].
  intros b Hb. apply Hfg. by apply list_elem_of_further.
Qed.

Lemma Qsum_map_plus {A : Type} (f g : A → Q) (l : list A) :
  Qsum (map (λ a, f a + g a) l) == Qsum (map f l) + Qsum (map g l).
Proof.
  induction l as [|a l IH]; simpl; [ring|]. rewrite IH. ring.
Qed.

Lemma Qsum_map_scale {A : Type} (c : Q) (f : A → Q) (l : list A) :
  Qsum (map (λ a, f a * c) l) == Qsum (map f l) * c.
Proof.
  induction l as [|a l IH]; simpl; [ring|]. rewrite IH. ring.
Qed.

(** Every visit is counted at exactly one key. *)
Lemma visit_count_total (ks trace : list string) :
  NoDup ks → Forall (λ s, s ∈ ks) trace →
  Qsum (map (λ q, inject_Z (Z.of_nat (visit_count q trace))) ks) ==
    inject_Z (Z.of_nat (length trace)).
Proof.
  intros Hnd. induction trace as [|s trace IH]; intros Hin.
  - unfold visit_count. simpl. rewrite Qsum_const. ring.
  - apply Forall_cons in Hin as [Hs Hin]. specialize (IH Hin).
    cbn [length]. rewrite Nat2Z.inj_succ. unfold Z.succ. rewrite inject_Z_plus.
    rewrite <- IH. clear IH Hin. unfold visit_count.
    induction ks as [|k ks IHk]; [by apply not_elem_of_nil in Hs|].
    apply NoDup_cons in Hnd as [Hk Hnd]. cbn [map]. rewrite !Qsum_cons.
    rewrite filter_cons.
    apply elem_of_cons in Hs as [->|Hs].
    + rewrite decide_True by done. cbn [length].
      rewrite Nat2Z.inj_succ. unfold Z.succ. rewrite inject_Z_plus.
      rewrite (Qsum_map_ext _
                 (λ q, inject_Z (Z.of_nat (length (filter (λ s, s = q) trace)))) ks).
      * ring.
      * intros q Hq. rewrite filter_cons. rewrite decide_False; [reflexivity|].
        intros ->. done.
    + rewrite decide_False by (intros ->; done).
      rewrite IHk by done. ring.
Qed.

(** Every weight handed to [random.choices] is positive, so the weighted
    draw never fails on a non-empty population. *)
Lemma prob_pos (linked : gset string) (d : Q) (total : Z) (q : string) :
  0 <= d → d < 1 → (0 < total)%Z → 0 < prob linked d total q.
Proof.
  intros Hd0 Hd1 Htot. unfold prob. simpl.
  assert (Hbase : 0 < (inject_Z 1 - d) / inject_Z total).
  { apply Qlt_shift_div_l.
    - change 0 with (inject_Z 0). by rewrite <- Zlt_Qlt.
    - change (inject_Z 1) with 1. lra. }
  destruct (decide (q ∈ linked)); [|done].
  assert (0 <= d / inject_Z (Z.of_nat (size linked))); [|lra].
  destruct (size linked) as [|k].
  { unfold Qdiv. change (/ inject_Z (Z.of_nat 0)) with 0. lra. }
  apply Qle_shift_div_l; [|lra]. apply inject_Z_nat_pos. lia.
Qed.

Lemma foldl_Qplus_pos (w : Q) (ws : list Q) :
  0 < w → Forall (λ x, 0 < x) ws → 0 < foldl Qplus w ws.
Proof.
  revert w. induction ws as [|x ws IH]; intros w Hw Hall; simpl; [done|].
  apply Forall_cons in Hall as [Hx Hall]. apply IH; [lra|done].
Qed.

Lemma choices_weighted_pos (raw : nat) (population : list string)
    (weights : list Q) :
  length weights = length population → population ≠ [] →
  Forall (λ x, 0 < x) weights →
  choices_weighted raw population weights = choices raw population.
Proof.
  intros Hlen Hne Hall. unfold choices_weighted.
  rewrite decide_False by (intros Hx; done).
  destruct weights as [|w ws]; [by destruct population|].
  apply Forall_cons in Hall as [Hw Hall].
  pose proof (foldl_Qplus_pos w ws Hw Hall) as Hpos. simpl.
  assert (Hle : Qle_bool (foldl Qplus w ws + inject_Z 0) (inject_Z 0) = false).
  { destruct (Qle_bool _ _) eqn:Hb; [|done].
    apply Qle_bool_iff in Hb. change (inject_Z 0) with 0 in Hb. lra. }
  by rewrite Hle.
Qed.

(** The loop of lines 110-120 runs to its end and adds 1/n at every page of
    its trace. *)
Lemma walk_spec (corpus : corpus_t) (d : Q) (n : Z) (rng : nat → nat) :
  unique_keys corpus → 0 <= d → d < 1 → n ≠ 0%Z →
  ∀ steps i sample f,
    sample ∈ Dict.keys corpus →
    let trace := walk_trace corpus d rng steps i sample in
    walk corpus d n rng steps i sample (tabulate f (Dict.keys corpus)) =
      Ok (tabulate (tally f (1 / inject_Z n) trace) (Dict.keys corpus)) ∧
    length trace = steps ∧
    Forall (λ s, s ∈ Dict.keys corpus) trace.
Proof.
  intros Hnd Hd0 Hd1 Hn. induction steps as [|steps IH]; intros i sample f Hin.
  - simpl. done.
  - destruct (get_is_Some corpus sample Hin) as [linked Hget].
    cbn [walk walk_trace].
    rewrite (transition_model_spec corpus sample linked d Hnd Hget). simpl.
    rewrite keys_tabulate, values_tabulate.
    rewrite choices_weighted_pos; cycle 1.
    { by rewrite length_map. }
    { intros Hnil. rewrite Hnil in Hin. by apply not_elem_of_nil in Hin. }
    { apply Forall_forall. intros x Hx. apply list_elem_of_In in Hx.
      apply in_map_iff in Hx as (q & <- & Hq).
      apply prob_pos; [done..|].
      assert (size (linked ∪ list_to_set (Dict.keys corpus)) ≠ 0%nat); [|lia].
      intros Hz. apply size_empty_inv in Hz.
      assert (sample ∈ (list_to_set (Dict.keys corpus) : gset string))
        by (by apply elem_of_list_to_set).
      set_solver. }
    destruct (choices_nonempty (rng i) (Dict.keys corpus)) as (s & Hs & Hsin).
    { intros Hnil. rewrite Hnil in Hin. by apply not_elem_of_nil in Hin. }
    rewrite Hs. simpl. rewrite record_visit_spec by done.
    rewrite decide_False by done. simpl.
    destruct (IH (S i) s (upd f s (f s + inject_Z 1 / inject_Z n)) Hsin)
      as (Hrun & Hlen & Hall).
    split; [|split].
    + exact Hrun.
    + simpl. by rewrite Hlen.
    + by apply Forall_cons.
Qed.

(** The whole of [sample_pagerank] for n >= 1 on a non-empty dictionary. *)
Lemma sample_pagerank_counts (corpus : corpus_t) (d : Q) (n : Z)
    (rng : nat → nat) :
  unique_keys corpus → corpus ≠ [] → 0 < d ∧ d < 1 → (1 <= n)%Z →
  ∃ rank,
    sample_pagerank corpus d n rng = Ok rank ∧
    Dict.keys rank = Dict.keys corpus ∧
    length (visits corpus d n rng) = Z.to_nat n ∧
    (∀ q, q ∈ Dict.keys corpus →
       ∃ v, Dict.get rank q = Some v ∧
            v == inject_Z (Z.of_nat (visit_count q (visits corpus d n rng)))
                 / inject_Z n) ∧
    total_rank rank == 1.
Proof.
  intros Hnd Hne [Hd0 Hd1] Hn.
  unfold sample_pagerank, visits. rewrite zero_ranks by done.
  destruct (choices_nonempty (rng 0%nat) (Dict.keys corpus)) as (s & Hs & Hin).
  { by destruct corpus. }
  rewrite Hs. simpl. rewrite record_visit_spec by done.
  rewrite decide_False by lia. simpl.
  destruct (walk_spec corpus d n rng Hnd) with
    (steps := Z.to_nat (n - 1)) (i := 1%nat) (sample := s)
    (f := upd (λ _ : string, inject_Z 0) s (inject_Z 0 + inject_Z 1 / inject_Z n))
    as (Hrun & Hlen & Hall); [lra|done|lia|done|].
  set (trace := walk_trace corpus d rng (Z.to_nat (n - 1)) 1 s) in *.
  assert (HnQ : 0 < inject_Z n).
  { change 0 with (inject_Z 0). rewrite <- Zlt_Qlt. lia. }
  assert (Hval : ∀ q,
    tally (upd (λ _ : string, inject_Z 0) s (inject_Z 0 + inject_Z 1 / inject_Z n))
      (1 / inject_Z n) trace q ==
    inject_Z (Z.of_nat (visit_count q (s :: trace))) / inject_Z n).
  { intros q. rewrite tally_count. unfold visit_count, upd.
    rewrite filter_cons. change (inject_Z 0) with 0. change (inject_Z 1) with 1.
    destruct (decide (q = s)) as [->|Hq].
    - rewrite decide_True by done. cbn [length].
      rewrite Nat2Z.inj_succ. unfold Z.succ. rewrite inject_Z_plus.
      change (inject_Z 1) with 1. field. lra.
    - rewrite decide_False by done. field. lra. }
  eexists. split; [exact Hrun|]. split; [apply keys_tabulate|].
  split; [simpl; rewrite Hlen; lia|]. split.
  - intros q Hq. eexists. split; [by apply get_tabulate|]. apply Hval.
  - unfold total_rank. rewrite values_tabulate.
    rewrite (Qsum_map_ext _ _ _ (λ q _, Hval q)).
    rewrite (Qsum_map_scale (/ inject_Z n)
               (λ q, inject_Z (Z.of_nat (visit_count q (s :: trace))))).
    rewrite visit_count_total by (done || by apply Forall_cons).
    simpl length. rewrite Hlen.
    replace (Z.of_nat (S (Z.to_nat (n - 1)))) with n by lia.
    field. lra.
Qed.




(** ** [iterate_pagerank]: one pass as a function on rank functions *)

Section SweepFacts.
Context {F : Type} {NF : Number F}.

Lemma add_incoming_run (corpus : corpus_t) (r : string → F) (key : string)
    (sigma : F) (page : string) (links : gset string) :
  Dict.get corpus page = Some links →
  add_incoming corpus (tabulate r (Dict.keys corpus)) key sigma page =
    Ok (if decide (key ∈ links)
        then add sigma (quot (r page) (of_int (Z.of_nat (size links))))
        else sigma).
Proof.
  intros Hget. unfold add_incoming, Dict.lookup. rewrite Hget. simpl.
  destruct (decide (key ∈ links)) as [Hin|Hnin]; [|done].
  rewrite get_tabulate by (by eapply get_Some_keys). simpl.
  unfold div_int. rewrite decide_False; [done|].
  assert (size links ≠ 0%nat); [|lia].
  intros Hz. apply size_empty_inv in Hz. set_solver.
Qed.

Lemma incoming_run (corpus : corpus_t) (r : string → F) (key : string) :
  unique_keys corpus →
  for_each (add_incoming corpus (tabulate r (Dict.keys corpus)) key)
           (Dict.keys corpus) (of_int 0) =
    Ok (incoming corpus r key).
Proof.
  intros Hnd. unfold incoming.
  assert (Hgen : ∀ (cs : corpus_t) sigma,
    (∀ page links, (page, links) ∈ cs → Dict.get corpus page = Some links) →
    for_each (add_incoming corpus (tabulate r (Dict.keys corpus)) key)
             (Dict.keys cs) sigma =
      Ok (foldl (λ sigma '(page, links),
                   if decide (key ∈ links)
                   then add sigma (quot (r page) (of_int (Z.of_nat (size links))))
                   else sigma) sigma cs)).
  { induction cs as [|[page links] cs IH]; intros sigma Hcs; [done|].
    cbn [Dict.keys map fst for_each foldl].
    rewrite (add_incoming_run corpus r key sigma page links)
      by apply Hcs, list_elem_of_here.
    cbn [mbind result_bind]. apply IH.
    intros page' links' Hin. apply Hcs. by apply list_elem_of_further. }
  apply Hgen. intros page links Hin. by apply get_member.
Qed.

Lemma new_value_run (corpus : corpus_t) (d : F) (r : string → F) (key : string) :
  unique_keys corpus → corpus ≠ [] →
  new_value corpus d (tabulate r (Dict.keys corpus)) key =
    Ok (new_rank corpus d r key).
Proof.
  intros Hnd Hne. unfold new_value, div_int.
  rewrite decide_False by (destruct corpus; [done|simpl; lia]).
  simpl. by rewrite incoming_run.
Qed.

Lemma update_page_run (corpus : corpus_t) (d : F) (r : string → F) (count : Z)
    (key : string) :
  unique_keys corpus → key ∈ Dict.keys corpus →
  update_page corpus d (tabulate r (Dict.keys corpus), count) key =
    Ok (tabulate (page_step corpus d (r, count) key).1 (Dict.keys corpus),
        (page_step corpus d (r, count) key).2).
Proof.
  intros Hnd Hin. unfold update_page.
  rewrite new_value_run; [|done|].
  - simpl. unfold Dict.lookup. rewrite get_tabulate by done. simpl.
    by rewrite set_tabulate.
  - intros ->. by apply not_elem_of_nil in Hin.
Qed.

Lemma pass_run (corpus : corpus_t) (d : F) (todo : list string) :
  unique_keys corpus → todo ⊆ Dict.keys corpus →
  ∀ r count,
    for_each (update_page corpus d) todo (tabulate r (Dict.keys corpus), count) =
      Ok (tabulate (pass corpus d todo (r, count)).1 (Dict.keys corpus),
          (pass corpus d todo (r, count)).2).
Proof.
  intros Hnd. induction todo as [|key todo IH]; intros Hsub r count; [done|].
  cbn [for_each]. rewrite update_page_run by (done || set_solver).
  cbn [mbind result_bind]. unfold pass. cbn [foldl].
  destruct (page_step corpus d (r, count) key) as [r1 count1].
  apply IH. set_solver.
Qed.

(** Lines 143-162 never raise on a dictionary corpus. *)
Lemma sweep_run (corpus : corpus_t) (d : F) (r : string → F) :
  unique_keys corpus →
  sweep corpus d (tabulate r (Dict.keys corpus)) =
    Ok (tabulate (sweep_fun corpus d r).1 (Dict.keys corpus),
        (sweep_fun corpus d r).2).
Proof. intros Hnd. unfold sweep, sweep_fun. by apply pass_run. Qed.

Lemma initial_ranks_run (corpus : corpus_t) :
  unique_keys corpus →
  initial_ranks corpus = Ok (tabulate (uniform corpus) (Dict.keys corpus)).
Proof.
  intros Hnd. unfold initial_ranks.
  destruct (decide (corpus = [])) as [->|Hne]; [done|].
  change [] with (tabulate (uniform corpus) []).
  assert (Hdiv : div_int (of_int 1) (Z.of_nat (length corpus)) =
                 Ok (quot (of_int 1) (of_int (Z.of_nat (length corpus))))).
  { unfold div_int. rewrite decide_False; [done|].
    destruct corpus; [done|simpl; lia]. }
  set (body := λ (ranks : list (string * F)) (key : string),
                 r ← div_int (of_int 1) (Z.of_nat (length corpus));
                 Ok (Dict.set ranks key r)).
  assert (Hbody : ∀ ranks key,
    body ranks key =
      Ok (Dict.set ranks key (quot (of_int 1) (of_int (Z.of_nat (length corpus)))))).
  { intros ranks key. unfold body. by rewrite Hdiv. }
  clearbody body.
  assert (Hgen : ∀ todo pre, NoDup (pre ++ todo) →
    for_each body todo (tabulate (uniform corpus) pre) =
      Ok (tabulate (uniform corpus) (pre ++ todo))).
  { induction todo as [|k todo IH]; intros pre Hpre.
    - cbn [for_each]. by rewrite app_nil_r.
    - cbn [for_each]. rewrite Hbody. cbn [mbind result_bind].
      rewrite set_fresh.
      + replace (tabulate (uniform corpus) pre ++
                   [(k, quot (of_int 1) (of_int (Z.of_nat (length corpus))))])
          with (tabulate (uniform corpus) (pre ++ [k]))
          by (unfold tabulate; by rewrite map_app).
        rewrite IH; by rewrite <- app_assoc.
      + rewrite keys_tabulate. apply NoDup_app in Hpre as (_ & Hdisj & _).
        intros Hin. apply (Hdisj k Hin). apply list_elem_of_here. }
  by apply (Hgen (Dict.keys corpus) []).
Qed.

Lemma loop_run (corpus : corpus_t) (d : F) (fuel : nat) :
  unique_keys corpus →
  ∀ r, loop corpus d fuel (tabulate r (Dict.keys corpus)) =
         (λ r', Ok (tabulate r' (Dict.keys corpus))) <$> loop_fun corpus d fuel r.
Proof.
  intros Hnd. induction fuel as [|fuel IH]; intros r; [done|].
  cbn [loop loop_fun]. rewrite sweep_run by done.
  destruct (sweep_fun corpus d r) as [r' count]. simpl.
  destruct (decide (count = Z.of_nat (length corpus))); [done|]. apply IH.
Qed.

(** [iterate_pagerank] either is still looping when the bound is reached or
    returns a rank map over the pages of the corpus; it raises nothing. *)
Lemma iterate_pagerank_run (corpus : corpus_t) (d : F) (fuel : nat) :
  unique_keys corpus →
  iterate_pagerank corpus d fuel =
    (λ r', Ok (tabulate r' (Dict.keys corpus))) <$>
      loop_fun corpus d fuel (uniform corpus).
Proof.
  intros Hnd. unfold iterate_pagerank. rewrite initial_ranks_run by done.
  by apply loop_run.
Qed.

(** C8. On a graph with a page without outgoing links, [transition_model]
    at that page returns normally and [iterate_pagerank] raises nothing, in
    particular no [ZeroDivisionError], whatever the arithmetic and the
    damping factor: the initial ranks are built, every pass of the loop
    body completes, and the loop never ends in an exception.  A link count
    divides only after a membership test in the link set has succeeded, so
    it is at least 1. *)
Theorem dangling_page_safe (corpus : corpus_t) (page : string)
    (linked : gset string) (d : F) :
  unique_keys corpus →
  Dict.get corpus page = Some linked →
  size linked = 0%nat →
  (∃ model, transition_model corpus page d = Ok model) ∧
  (∃ ranks, initial_ranks corpus = Ok ranks) ∧
  (∀ r, ∃ ranks' count,
     sweep corpus d (tabulate r (Dict.keys corpus)) = Ok (ranks', count)) ∧
  (∀ fuel e, iterate_pagerank corpus d fuel ≠ Some (Raise e)).
Proof.
  intros Hnd Hget Hk. split; [|split; [|split]].
  - eexists. by apply transition_model_spec.
  - eexists. by apply initial_ranks_run.
  - intros r. eexists _, _. by apply sweep_run.
  - intros fuel e. rewrite iterate_pagerank_run by done.
    destruct (loop_fun corpus d fuel (uniform corpus)); simpl; congruence.
Qed.
End SweepFacts.

Lemma dangling_page_safe_witness :
  (∃ model, transition_model tri "C" 0x1.b333333333333p-1%float = Ok model) ∧
  (∃ ranks, initial_ranks (F := float) tri = Ok ranks) ∧
  (∀ r, ∃ ranks' count,
     sweep tri 0x1.b333333333333p-1%float (tabulate r (Dict.keys tri)) =
       Ok (ranks', count)) ∧
  (∀ fuel e,
     iterate_pagerank tri 0x1.b333333333333p-1%float fuel ≠ Some (Raise e)).
Proof.
  apply (dangling_page_safe tri "C" ∅ 0x1.b333333333333p-1%float).
  - apply (bool_decide_unpack _). vm_compute. reflexivity.
  - vm_compute. reflexivity.
  - vm_compute. reflexivity.
Defined.

(** ** The recurrence as a weighted sum *)

Lemma weight_nonneg (links : gset string) (key : string) : 0 <= weight links key.
Proof.
  unfold weight. destruct (decide (key ∈ links)); [|lra].
  destruct (size links) as [|k].
  - unfold Qdiv. change (/ inject_Z (Z.of_nat 0)) with 0. lra.
  - apply Qle_shift_div_l; [|lra]. apply inject_Z_nat_pos. lia.
Qed.

Lemma Qsum_nonneg {A : Type} (f : A → Q) (l : list A) :
  (∀ a, a ∈ l → 0 <= f a) → 0 <= Qsum (map f l).
Proof.
  induction l as [|a l IH]; intros Hf; simpl; [lra|].
  assert (0 <= f a) by apply Hf, list_elem_of_here.
  assert (0 <= Qsum (map f l)); [|fold (Qsum (map f l)); lra].
  apply IH. intros b Hb. apply Hf. by apply list_elem_of_further.
Qed.

Lemma Qsum_le {A : Type} (f g : A → Q) (l : list A) :
  (∀ a, a ∈ l → f a <= g a) → Qsum (map f l) <= Qsum (map g l).
Proof.
  induction l as [|a l IH]; intros Hfg; simpl; [lra|].
  assert (f a <= g a) by apply Hfg, list_elem_of_here.
  assert (Qsum (map f l) <= Qsum (map g l)).
  { apply IH. intros b Hb. apply Hfg. by apply list_elem_of_further. }
  fold (Qsum (map f l)). fold (Qsum (map g l)). lra.
Qed.

Lemma colsum_nonneg (links : gset string) (todo : list string) :
  0 <= colsum links todo.
Proof. apply Qsum_nonneg. intros k _. apply weight_nonneg. Qed.

(** The keys share out at most the whole rank of a page, and exactly the
    whole rank when the links of the page are keys. *)
Lemma colsum_count (links : gset string) (todo : list string) :
  colsum links todo ==
    inject_Z (Z.of_nat (length (filter (λ k, k ∈ links) todo)))
    * (1 / inject_Z (Z.of_nat (size links))).
Proof.
  unfold colsum, weight.
  rewrite (Qsum_map_ext _
             (λ k, if decide (k ∈ links)
                   then 0 + 1 / inject_Z (Z.of_nat (size links)) else 0) todo)
    by (intros k _; destruct (decide (k ∈ links)); ring).
  rewrite (Qsum_indicator 0 _ (λ k, k ∈ links)). ring.
Qed.

Lemma colsum_le_1 (links : gset string) (todo : list string) :
  NoDup todo → colsum links todo <= 1.
Proof.
  intros Hnd. rewrite colsum_count.
  pose proof (count_members_le todo links Hnd) as Hle.
  destruct (size links) as [|n] eqn:Hsz.
  - replace (length (filter (λ k, k ∈ links) todo)) with 0%nat by lia.
    vm_compute. discriminate.
  - assert (Hpos : 0 < inject_Z (Z.of_nat (S n))) by (apply inject_Z_nat_pos; lia).
    assert (Hnum : inject_Z (Z.of_nat (length (filter (λ k, k ∈ links) todo)))
                   <= inject_Z (Z.of_nat (S n))).
    { rewrite <- Zle_Qle. lia. }
    unfold Qdiv. rewrite Qmult_1_l.
    apply Qle_shift_div_r; [done|]. lra.
Qed.


(** The code's left-to-right accumulation computes [lin]. *)
Lemma incoming_lin (corpus : corpus_t) (r : string → Q) (key : string) :
  incoming corpus r key == lin corpus r key.
Proof.
  unfold incoming, lin.
  assert (Hgen : ∀ (cs : corpus_t) sigma,
    foldl (λ sigma '(page, links),
             if decide (key ∈ links)
             then add sigma (quot (r page) (of_int (Z.of_nat (size links))))
             else sigma) sigma cs ==
      sigma + Qsum (map (λ kv, weight kv.2 key * r kv.1) cs)).
  { induction cs as [|[page links] cs IH]; intros sigma.
    - simpl. ring.
    - cbn [foldl map]. rewrite IH, Qsum_cons. unfold weight. simpl.
      destruct (decide (key ∈ links)); field.
      assert (size links ≠ 0%nat).
      { intros Hz. apply size_empty_inv in Hz. set_solver. }
      assert (0 < inject_Z (Z.of_nat (size links)))
        by (apply inject_Z_nat_pos; lia).
      lra. }
  rewrite Hgen. simpl. ring.
Qed.

Lemma new_rank_lin (corpus : corpus_t) (d : Q) (r : string → Q) (key : string) :
  new_rank corpus d r key == teleport corpus d + d * lin corpus r key.
Proof.
  unfold new_rank, teleport, pages. simpl. rewrite incoming_lin. reflexivity.
Qed.

(** [lin] reads the rank function only at the keys, is monotone in absolute
    value, and is linear. *)
Lemma lin_ext (corpus : corpus_t) (r1 r2 : string → Q) (key : string) :
  (∀ page, page ∈ Dict.keys corpus → r1 page == r2 page) →
  lin corpus r1 key == lin corpus r2 key.
Proof.
  intros Hr. unfold lin. apply Qsum_map_ext. intros [page links] Hin. simpl.
  rewrite (Hr page); [reflexivity|].
  unfold Dict.keys. change page with (fst (page, links)).
  apply list_elem_of_In. apply in_map. by apply list_elem_of_In.
Qed.

Lemma lin_sub (corpus : corpus_t) (r1 r2 : string → Q) (key : string) :
  lin corpus (λ q, r1 q - r2 q) key == lin corpus r1 key - lin corpus r2 key.
Proof.
  unfold lin. induction corpus as [|[page links] cs IH].
  - simpl. ring.
  - cbn [map]. rewrite !Qsum_cons. cbn [fst snd]. rewrite IH. ring.
Qed.

Lemma lin_abs (corpus : corpus_t) (r : string → Q) (key : string) :
  Qabs (lin corpus r key) <= lin corpus (λ q, Qabs (r q)) key.
Proof.
  unfold lin. induction corpus as [|[page links] cs IH].
  - simpl. done.
  - cbn [map]. rewrite !Qsum_cons. cbn [fst snd].
    eapply Qle_trans; [apply Qabs_triangle|].
    rewrite Qabs_Qmult.
    rewrite (Qabs_pos (weight links key)) by apply weight_nonneg.
    lra.
Qed.

(** Changing the rank of one page moves [lin] by that page's share. *)
Lemma lin_upd_absent (corpus : corpus_t) (g : string → Q) (k : string) (v : Q)
    (key : string) :
  k ∉ Dict.keys corpus → lin corpus (upd g k v) key == lin corpus g key.
Proof.
  intros Hk. apply lin_ext. intros page Hpage. unfold upd.
  rewrite decide_False; [reflexivity|]. intros ->. done.
Qed.

Lemma lin_upd (corpus : corpus_t) (g : string → Q) (k : string) (v : Q)
    (key : string) :
  unique_keys corpus → k ∈ Dict.keys corpus →
  lin corpus (upd g k v) key ==
    lin corpus g key + weight (links_of corpus k) key * (v - g k).
Proof.
  unfold unique_keys. induction corpus as [|[page links] cs IH]; intros Hnd Hk.
  - by apply not_elem_of_nil in Hk.
  - cbn [Dict.keys map fst] in Hnd, Hk. apply NoDup_cons in Hnd as [Hpage Hnd].
    unfold lin in *. cbn [map]. rewrite !Qsum_cons. cbn [fst snd].
    unfold links_of. cbn [Dict.get].
    destruct (decide (k = page)) as [->|Hne].
    + pose proof (lin_upd_absent cs g page v key Hpage) as Hrest.
      unfold lin in Hrest. rewrite Hrest. unfold upd.
      rewrite decide_True by done. simpl. ring.
    + apply elem_of_cons in Hk as [?|Hk]; [done|].
      specialize (IH Hnd Hk). unfold links_of in IH. rewrite IH.
      unfold upd at 1. rewrite decide_False by done. ring.
Qed.

Lemma inflow_upd (corpus : corpus_t) (g : string → Q) (k : string) (v : Q)
    (todo : list string) :
  unique_keys corpus → k ∈ Dict.keys corpus →
  inflow corpus (upd g k v) todo ==
    inflow corpus g todo + colsum (links_of corpus k) todo * (v - g k).
Proof.
  intros Hnd Hk. unfold inflow, colsum.
  induction todo as [|key todo IH].
  - simpl. ring.
  - cbn [map]. rewrite !Qsum_cons. rewrite IH. rewrite lin_upd by done. ring.
Qed.

(** Summing over receivers first or over senders first. *)
Lemma inflow_by_sender (corpus : corpus_t) (g : string → Q) (todo : list string) :
  inflow corpus g todo ==
    Qsum (map (λ kv, colsum kv.2 todo * g kv.1) corpus).
Proof.
  unfold inflow, colsum. induction todo as [|key todo IH].
  - simpl. rewrite (Qsum_map_ext _ (λ _, 0)) by (intros; ring).
    rewrite Qsum_const. ring.
  - cbn [map]. rewrite Qsum_cons, IH. unfold lin.
    rewrite <- Qsum_map_plus. apply Qsum_map_ext. intros kv _.
    rewrite Qsum_cons. ring.
Qed.

(** No page gives out more than it has. *)
Lemma inflow_le (corpus : corpus_t) (g : string → Q) (todo : list string) :
  NoDup todo → (∀ q, 0 <= g q) →
  inflow corpus g todo <= Qsum (map g (Dict.keys corpus)).
Proof.
  intros Hnd Hg. rewrite inflow_by_sender. unfold Dict.keys. rewrite map_map.
  apply Qsum_le. intros [page links] _. simpl.
  pose proof (colsum_le_1 links todo Hnd). pose proof (Hg page).
  pose proof (colsum_nonneg links todo). nra.
Qed.

(** ** One pass in exact arithmetic *)

Lemma gs_other (corpus : corpus_t) (b d : Q) (todo : list string)
    (g : string → Q) (q : string) :
  q ∉ todo → gs corpus b d todo g q = g q.
Proof.
  unfold gs. revert g. induction todo as [|k todo IH]; intros g Hq; [done|].
  apply not_elem_of_cons in Hq as [Hne Hq]. cbn [foldl].
  rewrite IH by done. unfold upd. by rewrite decide_False.
Qed.

Lemma gs_ext (corpus : corpus_t) (b d : Q) (todo : list string)
    (g1 g2 : string → Q) :
  (∀ q, g1 q == g2 q) → ∀ q, gs corpus b d todo g1 q == gs corpus b d todo g2 q.
Proof.
  unfold gs. revert g1 g2. induction todo as [|k todo IH]; intros g1 g2 Hg q.
  - apply Hg.
  - cbn [foldl]. apply IH. intros q'. unfold upd.
    destruct (decide (q' = k)); [|apply Hg].
    rewrite (lin_ext corpus g1 g2 k); [reflexivity|]. intros page _. apply Hg.
Qed.

(** The difference of two passes is the pass without constant term on the
    difference. *)
Lemma gs_sub (corpus : corpus_t) (b d : Q) (todo : list string)
    (x y : string → Q) (q : string) :
  gs corpus b d todo y q - gs corpus b d todo x q ==
    gs corpus 0 d todo (λ q, y q - x q) q.
Proof.
  unfold gs. revert x y. induction todo as [|k todo IH]; intros x y.
  - simpl. reflexivity.
  - cbn [foldl]. rewrite IH. apply gs_ext. intros q'. unfold upd.
    destruct (decide (q' = k)); [|reflexivity].
    rewrite lin_sub. ring.
Qed.

(** The code's pass computes [gs] with constant term (1 - d)/N. *)
Lemma pass_gs (corpus : corpus_t) (d : Q) (todo : list string) :
  ∀ r count q,
    (pass corpus d todo (r, count)).1 q ==
      gs corpus (teleport corpus d) d todo r q.
Proof.
  unfold pass, gs. induction todo as [|k todo IH]; intros r count q.
  - simpl. reflexivity.
  - cbn [foldl]. unfold page_step at 2. cbn [fst snd].
    rewrite IH. apply gs_ext. intros q'. unfold upd.
    destruct (decide (q' = k)); [|reflexivity]. apply new_rank_lin.
Qed.

(** ** The pass contracts a weighted sum of changes *)

Lemma wsum_ext (corpus : corpus_t) (d : Q) (e1 e2 : string → Q) (todo : list string) :
  (∀ k, k ∈ todo → e1 k == e2 k) → wsum corpus d e1 todo == wsum corpus d e2 todo.
Proof.
  induction todo as [|k t IH]; intros He; [reflexivity|].
  cbn [wsum]. rewrite (He k) by apply list_elem_of_here.
  rewrite IH; [reflexivity|]. intros k' Hk'. apply He.
  by apply list_elem_of_further.
Qed.

Lemma carried_ext (corpus : corpus_t) (d : Q) (e1 e2 : string → Q)
    (todo : list string) :
  (∀ k, k ∈ todo → e1 k == e2 k) →
  carried corpus d e1 todo == carried corpus d e2 todo.
Proof.
  induction todo as [|k t IH]; intros He; [reflexivity|].
  cbn [carried]. rewrite (He k) by apply list_elem_of_here.
  rewrite IH; [reflexivity|]. intros k' Hk'. apply He.
  by apply list_elem_of_further.
Qed.

(** The key step: the weighted changes after a pass without constant term,
    plus what the old values carried, are paid for by d times the inflow of
    the old absolute values. *)
Lemma gs_absorb (corpus : corpus_t) (d : Q) (todo : list string) :
  unique_keys corpus → 0 <= d → d < 1 →
  NoDup todo → todo ⊆ Dict.keys corpus →
  ∀ e,
    wsum corpus d (gs corpus 0 d todo e) todo + carried corpus d e todo <=
      d * inflow corpus (λ q, Qabs (e q)) todo.
Proof.
  intros Hnd Hd0 Hd1. induction todo as [|k t IH]; intros Hndt Hsub e.
  - simpl. change (inflow corpus (λ q, Qabs (e q)) []) with 0. lra.
  - apply NoDup_cons in Hndt as [Hk Hndt].
    assert (Hkin : k ∈ Dict.keys corpus) by set_solver.
    set (v := 0 + d * lin corpus e k).
    set (e1 := upd e k v).
    assert (Hgs : ∀ q, gs corpus 0 d (k :: t) e q = gs corpus 0 d t e1 q) by done.
    specialize (IH Hndt ltac:(set_solver) e1).
    cbn [wsum carried]. unfold inflow. cbn [map]. rewrite Qsum_cons.
    fold (inflow corpus (λ q, Qabs (e q)) t).
    rewrite (wsum_ext corpus d (gs corpus 0 d (k :: t) e) (gs corpus 0 d t e1) t)
      by (intros; by rewrite Hgs).
    rewrite Hgs, gs_other by done.
    rewrite (carried_ext corpus d e1 e t) in IH.
    2:{ intros k' Hk'. unfold e1, upd. rewrite decide_False; [reflexivity|].
        intros ->. done. }
    assert (Hin : inflow corpus (λ q, Qabs (e1 q)) t ==
                  inflow corpus (λ q, Qabs (e q)) t
                  + colsum (links_of corpus k) t * (Qabs v - Qabs (e k))).
    { rewrite <- (inflow_upd corpus (λ q, Qabs (e q)) k (Qabs v) t) by done.
      unfold inflow. apply Qsum_map_ext. intros key _. apply lin_ext.
      intros page _. unfold e1, upd. destruct (decide (page = k)); reflexivity. }
    rewrite Hin in IH.
    assert (He1k : e1 k = v) by (unfold e1, upd; by rewrite decide_True).
    rewrite He1k.
    assert (Hv : Qabs v <= d * lin corpus (λ q, Qabs (e q)) k).
    { unfold v. rewrite Qplus_0_l, Qabs_Qmult, (Qabs_pos d) by done.
      pose proof (lin_abs corpus e k). nra. }
    pose proof (colsum_nonneg (links_of corpus k) t) as Hc0.
    pose proof (colsum_le_1 (links_of corpus k) t Hndt) as Hc1.
    pose proof (Qabs_nonneg v). pose proof (Qabs_nonneg (e k)).
    nra.
Qed.

(** What the old values carried is at least what [wsum] discounts. *)
Lemma wsum_carried (corpus : corpus_t) (d : Q) (e : string → Q)
    (todo : list string) :
  0 <= d → d < 1 → NoDup todo →
  d * Qsum (map (λ q, Qabs (e q)) todo) - carried corpus d e todo
    <= d * wsum corpus d e todo.
Proof.
  intros Hd0 Hd1. induction todo as [|k t IH]; intros Hnd.
  - simpl. lra.
  - apply NoDup_cons in Hnd as [Hk Hnd]. specialize (IH Hnd).
    cbn [map wsum carried]. rewrite Qsum_cons.
    pose proof (colsum_nonneg (links_of corpus k) t) as Hc0.
    pose proof (colsum_le_1 (links_of corpus k) t Hnd) as Hc1.
    pose proof (Qabs_nonneg (e k)).
    assert (0 <= d * colsum (links_of corpus k) t * Qabs (e k) * (1 - d)).
    { repeat apply Qmult_le_0_compat; lra. }
    nra.
Qed.

(** One pass without constant term shrinks [wsum] by the factor d. *)
Lemma gs_contracts (corpus : corpus_t) (d : Q) (e : string → Q) :
  unique_keys corpus → 0 <= d → d < 1 →
  wsum corpus d (gs corpus 0 d (Dict.keys corpus) e) (Dict.keys corpus)
    <= d * wsum corpus d e (Dict.keys corpus).
Proof.
  intros Hnd Hd0 Hd1.
  pose proof (gs_absorb corpus d (Dict.keys corpus) Hnd Hd0 Hd1 Hnd
                ltac:(done) e) as Habs.
  pose proof (inflow_le corpus (λ q, Qabs (e q)) (Dict.keys corpus) Hnd
                (λ q, Qabs_nonneg (e q))) as Hin.
  pose proof (wsum_carried corpus d e (Dict.keys corpus) Hd0 Hd1 Hnd) as Hc.
  nra.
Qed.

(** Every single change is bounded by the weighted sum. *)
Lemma wsum_bounds (corpus : corpus_t) (d : Q) (e : string → Q)
    (todo : list string) (k : string) :
  0 <= d → d < 1 → NoDup todo → k ∈ todo →
  (1 - d) * Qabs (e k) <= wsum corpus d e todo.
Proof.
  intros Hd0 Hd1. induction todo as [|k' t IH]; intros Hnd Hk.
  - by apply not_elem_of_nil in Hk.
  - apply NoDup_cons in Hnd as [Hk' Hnd]. cbn [wsum].
    pose proof (colsum_nonneg (links_of corpus k') t) as Hc0.
    pose proof (colsum_le_1 (links_of corpus k') t Hnd) as Hc1.
    pose proof (Qabs_nonneg (e k')).
    assert (Hw : 0 <= wsum corpus d e t).
    { clear -Hd0 Hd1 Hnd. induction t as [|k2 t IH2]; [simpl; lra|].
      apply NoDup_cons in Hnd as [_ Hnd]. cbn [wsum].
      pose proof (colsum_nonneg (links_of corpus k2) t).
      pose proof (colsum_le_1 (links_of corpus k2) t Hnd).
      pose proof (Qabs_nonneg (e k2)). specialize (IH2 Hnd).
      assert (0 <= (1 - d * colsum (links_of corpus k2) t) * Qabs (e k2)).
      { apply Qmult_le_0_compat; [nra|done]. }
      lra. }
    apply elem_of_cons in Hk as [->|Hk].
    + assert ((1 - d) * Qabs (e k') <=
              (1 - d * colsum (links_of corpus k') t) * Qabs (e k')).
      { apply Qmult_le_compat_r; [nra|done]. }
      lra.
    + specialize (IH Hnd Hk).
      assert (0 <= (1 - d * colsum (links_of corpus k') t) * Qabs (e k')).
      { apply Qmult_le_0_compat; [nra|done]. }
      lra.
Qed.

(** ** Geometric decay *)

Lemma Qmult_le_weak_l (z x y : Q) : 0 <= z → x <= y → z * x <= z * y.
Proof.
  intros Hz Hxy. rewrite !(Qmult_comm z). by apply Qmult_le_compat_r.
Qed.

Lemma qpow_range (d : Q) (n : nat) : 0 <= d → d < 1 → 0 <= qpow d n ∧ qpow d n <= 1.
Proof.
  intros Hd0 Hd1. induction n as [|n [IH0 IH1]]; simpl; [lra|]. nra.
Qed.

Lemma qpow_decay (d : Q) (n : nat) :
  0 <= d → d < 1 →
  qpow d n * (1 + inject_Z (Z.of_nat n) * (1 - d)) <= 1.
Proof.
  intros Hd0 Hd1. induction n as [|n IH].
  - simpl. change (inject_Z (Z.of_nat 0)) with 0. lra.
  - rewrite Nat2Z.inj_succ. unfold Z.succ. rewrite inject_Z_plus.
    change (inject_Z 1) with 1. cbn [qpow].
    destruct (qpow_range d n Hd0 Hd1) as [Hp0 Hp1].
    set (p := qpow d n) in *. set (m := inject_Z (Z.of_nat n)) in *.
    assert (Hm : 0 <= m).
    { unfold m. change 0 with (inject_Z 0). rewrite <- Zle_Qle. lia. }
    assert (H1 : d * (p * (1 + m * (1 - d))) <= d * 1) by (apply Qmult_le_weak_l; lra).
    assert (H2 : d * p * (1 - d) <= 1 * (1 - d)).
    { apply Qmult_le_compat_r; [nra|lra]. }
    nra.
Qed.

Lemma eventually_small (d w eps : Q) :
  0 <= d → d < 1 → 0 <= w → 0 < eps → ∃ n, qpow d n * w < eps.
Proof.
  intros Hd0 Hd1 Hw Heps.
  set (x := w / (eps * (1 - d))).
  assert (Hden : 0 < eps * (1 - d)) by nra.
  assert (Hx : 0 <= x) by (apply Qle_shift_div_l; lra).
  exists (Z.to_nat (Qceiling x)).
  pose proof (Qle_ceiling x) as Hceil.
  assert (Hc0 : (0 <= Qceiling x)%Z).
  { rewrite Zle_Qle. change (inject_Z 0) with 0. lra. }
  pose proof (qpow_decay d (Z.to_nat (Qceiling x)) Hd0 Hd1) as Hdecay.
  rewrite Z2Nat.id in Hdecay by done.
  destruct (qpow_range d (Z.to_nat (Qceiling x)) Hd0 Hd1) as [Hp0 Hp1].
  set (p := qpow d (Z.to_nat (Qceiling x))) in *.
  set (m := inject_Z (Qceiling x)) in *.
  assert (Hwx : w == x * (eps * (1 - d))) by (unfold x; field; lra).
  assert (Hwm : w <= m * (eps * (1 - d))).
  { rewrite Hwx. apply Qmult_le_compat_r; lra. }
  assert (Hlt : w < eps * (1 + m * (1 - d))) by nra.
  assert (HM : 0 < 1 + m * (1 - d)) by nra.
  assert (Hpw : p * w * (1 + m * (1 - d)) <= w).
  { pose proof (Qmult_le_weak_l w _ _ Hw Hdecay). lra. }
  destruct (Qlt_le_dec (p * w) eps) as [|Hge]; [done|].
  assert (eps * (1 + m * (1 - d)) <= p * w * (1 + m * (1 - d)))
    by (apply Qmult_le_compat_r; lra).
  lra.
Qed.

Lemma least_index (P : nat → Prop) `{!∀ n, Decision (P n)} (T : nat) :
  P T → ∃ n, P n ∧ ∀ j, (j < n)%nat → ¬ P j.
Proof.
  assert (Hgen : ∀ T, (∃ n, P n ∧ ∀ j, (j < n)%nat → ¬ P j)
                      ∨ (∀ j, (j < T)%nat → ¬ P j)).
  { clear T. induction T as [|T [IH|IH]].
    - right. intros j Hj. lia.
    - by left.
    - destruct (decide (P T)) as [HP|HP].
      + left. exists T. done.
      + right. intros j Hj. destruct (decide (j = T)) as [->|]; [done|].
        apply IH. lia. }
  intros HP. destruct (Hgen (S T)) as [Hex|Hnone]; [done|].
  exfalso. apply (Hnone T); [lia|done].
Qed.

(** ** Counting the settled pages *)

Section CountFacts.
Context {F : Type} {NF : Number F}.

Lemma pass_cons (corpus : corpus_t) (d : F) (k : string) (t : list string)
    (st : (string → F) * Z) :
  pass corpus d (k :: t) st = pass corpus d t (page_step corpus d st k).
Proof. done. Qed.

Lemma pass_app (corpus : corpus_t) (d : F) (l1 l2 : list string)
    (st : (string → F) * Z) :
  pass corpus d (l1 ++ l2) st = pass corpus d l2 (pass corpus d l1 st).
Proof. unfold pass. apply foldl_app. Qed.

(** A pass leaves the pages it does not visit alone. *)
Lemma pass_other (corpus : corpus_t) (d : F) (todo : list string)
    (st : (string → F) * Z) (q : string) :
  q ∉ todo → (pass corpus d todo st).1 q = st.1 q.
Proof.
  revert st. induction todo as [|k t IH]; intros st Hq; [done|].
  apply not_elem_of_cons in Hq as [Hne Hq]. rewrite pass_cons, IH by done.
  unfold page_step, upd. simpl. by rewrite decide_False.
Qed.

(** The rank function after a pass does not depend on the counter. *)
Lemma pass_fst_count (corpus : corpus_t) (d : F) (todo : list string)
    (r : string → F) (c1 c2 : Z) :
  (pass corpus d todo (r, c1)).1 = (pass corpus d todo (r, c2)).1.
Proof.
  revert r c1 c2. induction todo as [|k t IH]; intros r c1 c2; [done|].
  rewrite !pass_cons. unfold page_step. cbn [fst snd]. apply IH.
Qed.

Lemma settled_head (corpus : corpus_t) (d : F) (k : string) (t : list string)
    (r : string → F) :
  k ∉ t →
  settled corpus d (k :: t) r k =
    lt (absv (sub (r k) (new_rank corpus d r k))) threshold.
Proof.
  intros Hk. unfold settled. rewrite pass_cons, pass_other by done.
  unfold page_step, upd. cbn [fst snd]. by rewrite decide_True.
Qed.

Lemma settled_tail (corpus : corpus_t) (d : F) (k : string) (t : list string)
    (r : string → F) (k' : string) :
  k' ≠ k →
  settled corpus d (k :: t) r k' =
    settled corpus d t (upd r k (new_rank corpus d r k)) k'.
Proof.
  intros Hne. unfold settled. rewrite pass_cons. unfold page_step.
  cbn [fst snd]. rewrite (pass_fst_count corpus d t _ _ 0%Z).
  f_equal. f_equal. f_equal. unfold upd. by rewrite decide_False.
Qed.

Lemma pass_count_bounds (corpus : corpus_t) (d : F) (todo : list string)
    (r : string → F) (count : Z) :
  (count <= (pass corpus d todo (r, count)).2 <= count + Z.of_nat (length todo))%Z.
Proof.
  revert r count. induction todo as [|k t IH]; intros r count.
  - simpl. lia.
  - rewrite pass_cons. unfold page_step. cbn [fst snd length].
    destruct (lt _ _).
    + specialize (IH (upd r k (new_rank corpus d r k)) (count + 1)%Z). lia.
    + specialize (IH (upd r k (new_rank corpus d r k)) count). lia.
Qed.

(** The counter reaches the number of visited pages exactly when every one
    of them is settled. *)
Lemma pass_count_full (corpus : corpus_t) (d : F) (todo : list string) :
  NoDup todo →
  ∀ r count,
    (pass corpus d todo (r, count)).2 = (count + Z.of_nat (length todo))%Z ↔
    ∀ k, k ∈ todo → settled corpus d todo r k = true.
Proof.
  induction todo as [|k t IH]; intros Hnd r count.
  - simpl. split; [|lia]. intros _ k Hk. by apply not_elem_of_nil in Hk.
  - apply NoDup_cons in Hnd as [Hk Hnd]. specialize (IH Hnd).
    rewrite pass_cons. unfold page_step. cbn [fst snd length].
    pose proof (settled_head corpus d k t r Hk) as Hhead.
    destruct (lt (absv (sub (r k) (new_rank corpus d r k))) threshold) eqn:Hlt.
    + replace (count + Z.of_nat (S (length t)))%Z
        with ((count + 1) + Z.of_nat (length t))%Z by lia.
      rewrite (IH (upd r k (new_rank corpus d r k)) (count + 1)%Z). split.
      * intros Hall k' Hk'. apply elem_of_cons in Hk' as [->|Hk']; [done|].
        rewrite settled_tail by (intros ->; done). by apply Hall.
      * intros Hall k' Hk'.
        rewrite <- (settled_tail corpus d k t r k') by (intros ->; done).
        apply Hall. by apply list_elem_of_further.
    + pose proof (pass_count_bounds corpus d t
                    (upd r k (new_rank corpus d r k)) count).
      split; [lia|].
      intros Hall. specialize (Hall k (list_elem_of_here _ _)). congruence.
Qed.

Lemma loop_fun_first (corpus : corpus_t) (d : F) (n : nat) :
  converged corpus d n →
  (∀ j, (j < n)%nat → ¬ converged corpus d j) →
  ∀ fuel,
    loop_fun corpus d fuel (uniform corpus) =
      if decide (n < fuel)%nat then Some (sweeps_fun corpus d (S n)) else None.
Proof.
  unfold converged, sweeps_fun.
  set (step := λ r : string → F, (sweep_fun corpus d r).1).
  generalize (uniform corpus). induction n as [|n IH]; intros r0 Hconv Hfirst fuel.
  - destruct fuel as [|fuel]; [done|]. cbn [loop_fun].
    change (Nat.iter 0 step r0) with r0 in Hconv.
    change (Nat.iter 1 step r0) with (step r0). unfold step.
    destruct (sweep_fun corpus d r0) as [r' count] eqn:Hsw. simpl in Hconv.
    rewrite decide_True by done. by rewrite decide_True by lia.
  - destruct fuel as [|fuel]; [done|]. cbn [loop_fun].
    pose proof (Hfirst 0%nat ltac:(lia)) as H0.
    change (Nat.iter 0 step r0) with r0 in H0.
    destruct (sweep_fun corpus d r0) as [r' count] eqn:Hsw. simpl in H0.
    rewrite decide_False by done.
    assert (Hshift : ∀ m, Nat.iter (S m) step r0 = Nat.iter m step r').
    { intros m. rewrite Nat.iter_succ_r. unfold step at 2. by rewrite Hsw. }
    rewrite (IH r').
    + rewrite <- Hshift. destruct (decide (n < fuel)%nat);
        [rewrite decide_True by lia|rewrite decide_False by lia]; done.
    + by rewrite <- Hshift.
    + intros j Hj. rewrite <- Hshift. apply Hfirst. lia.
Qed.
End CountFacts.

(** ** Termination of the [while] loop in exact arithmetic *)

Lemma sweeps_run {F : Type} {NF : Number F} (corpus : corpus_t) (d : F) (n : nat) :
  unique_keys corpus →
  sweeps corpus d n = Ok (tabulate (sweeps_fun corpus d n) (Dict.keys corpus)).
Proof.
  intros Hnd. induction n as [|n IH].
  - by apply initial_ranks_run.
  - cbn [sweeps]. rewrite IH. cbn [mbind result_bind].
    rewrite sweep_run by done. done.
Qed.

Lemma sweeps_fun_gs (corpus : corpus_t) (d : Q) (n : nat) (q : string) :
  sweeps_fun corpus d (S n) q ==
    gs corpus (teleport corpus d) d (Dict.keys corpus) (sweeps_fun corpus d n) q.
Proof.
  change (sweeps_fun corpus d (S n))
    with (sweep_fun corpus d (sweeps_fun corpus d n)).1.
  apply pass_gs.
Qed.

Lemma change_step (corpus : corpus_t) (d : Q) (n : nat) (q : string) :
  change corpus d (S n) q ==
    gs corpus 0 d (Dict.keys corpus) (change corpus d n) q.
Proof.
  unfold change at 1. rewrite (sweeps_fun_gs corpus d (S n) q).
  rewrite (sweeps_fun_gs corpus d n q).
  rewrite gs_sub.
  apply gs_ext. intros q'. unfold change.
  rewrite (sweeps_fun_gs corpus d n q'). reflexivity.
Qed.

Lemma wsum_change (corpus : corpus_t) (d : Q) (n : nat) :
  unique_keys corpus → 0 <= d → d < 1 →
  wsum corpus d (change corpus d n) (Dict.keys corpus) <=
    qpow d n * wsum corpus d (change corpus d 0) (Dict.keys corpus).
Proof.
  intros Hnd Hd0 Hd1. induction n as [|n IH].
  - simpl. lra.
  - rewrite (wsum_ext corpus d (change corpus d (S n))
               (gs corpus 0 d (Dict.keys corpus) (change corpus d n)))
      by (intros k _; apply change_step).
    pose proof (gs_contracts corpus d (change corpus d n) Hnd Hd0 Hd1).
    cbn [qpow]. nra.
Qed.

Lemma wsum_nonneg (corpus : corpus_t) (d : Q) (e : string → Q)
    (todo : list string) :
  0 <= d → d < 1 → NoDup todo → 0 <= wsum corpus d e todo.
Proof.
  intros Hd0 Hd1. induction todo as [|k t IH]; intros Hnd; [simpl; lra|].
  apply NoDup_cons in Hnd as [_ Hnd]. cbn [wsum].
  pose proof (colsum_nonneg (links_of corpus k) t).
  pose proof (colsum_le_1 (links_of corpus k) t Hnd).
  pose proof (Qabs_nonneg (e k)). specialize (IH Hnd).
  assert (0 <= (1 - d * colsum (links_of corpus k) t) * Qabs (e k)).
  { apply Qmult_le_0_compat; [nra|done]. }
  lra.
Qed.

Lemma lt_Q_spec (x y : Q) : lt x y = true ↔ x < y.
Proof.
  simpl. destruct (Qle_bool y x) eqn:Hb; simpl.
  - apply Qle_bool_iff in Hb. split; [done|]. intros Hlt. lra.
  - split; [|done]. intros _. apply Qnot_le_lt. intros Hle.
    apply Qle_bool_iff in Hle. congruence.
Qed.

Lemma converged_iff (corpus : corpus_t) (d : Q) (n : nat) :
  unique_keys corpus →
  converged corpus d n ↔ ∀ k, k ∈ Dict.keys corpus → small_change corpus d n k.
Proof.
  intros Hnd. unfold converged, sweep_fun.
  rewrite <- (keys_length corpus).
  rewrite <- (Z.add_0_l (Z.of_nat (length (Dict.keys corpus)))).
  rewrite pass_count_full by done.
  split; intros Hall k Hk; specialize (Hall k Hk).
  - apply lt_Q_spec in Hall. exact Hall.
  - apply lt_Q_spec. exact Hall.
Qed.

Lemma eventually_converged (corpus : corpus_t) (d : Q) :
  unique_keys corpus → 0 <= d → d < 1 → ∃ n, converged corpus d n.
Proof.
  intros Hnd Hd0 Hd1.
  destruct (eventually_small d
              (wsum corpus d (change corpus d 0) (Dict.keys corpus))
              ((1 - d) * (5 / 10000)) Hd0 Hd1) as [n Hn].
  { by apply wsum_nonneg. }
  { assert (0 < 5 / 10000) by reflexivity. nra. }
  exists n. apply converged_iff; [done|]. intros k Hk. unfold small_change.
  pose proof (wsum_change corpus d n Hnd Hd0 Hd1) as Hw.
  pose proof (wsum_bounds corpus d (change corpus d n) (Dict.keys corpus) k
                Hd0 Hd1 Hnd Hk) as Hb.
  assert (Habs : Qabs (sweeps_fun corpus d n k - sweeps_fun corpus d (S n) k)
                 == Qabs (change corpus d n k)).
  { unfold change. rewrite Qabs_Qminus. reflexivity. }
  rewrite Habs.
  assert (Hlt : (1 - d) * Qabs (change corpus d n k) < (1 - d) * (5 / 10000)) by lra.
  apply Qmult_lt_l in Hlt; [done|lra].
Qed.

(** What [sweeps] and [sweep] return, read as rank functions. *)
Lemma sweeps_sweep_inv {F : Type} {NF : Number F} (corpus : corpus_t) (d : F)
    (n : nat) (before ranks : list (string * F)) (count : Z) :
  unique_keys corpus →
  sweeps corpus d n = Ok before →
  sweep corpus d before = Ok (ranks, count) →
  before = tabulate (sweeps_fun corpus d n) (Dict.keys corpus) ∧
  ranks = tabulate (sweeps_fun corpus d (S n)) (Dict.keys corpus) ∧
  count = (sweep_fun corpus d (sweeps_fun corpus d n)).2.
Proof.
  intros Hnd Hb Hs. rewrite sweeps_run in Hb by done.
  inversion Hb; subst before. rewrite sweep_run in Hs by done.
  by inversion Hs.
Qed.

(** A pass counts every page exactly when every page passes the test of
    line 159. *)
Lemma converged_settled {F : Type} {NF : Number F} (corpus : corpus_t) (d : F)
    (n : nat) :
  unique_keys corpus →
  converged corpus d n ↔
  ∀ page, page ∈ Dict.keys corpus →
    lt (absv (sub (sweeps_fun corpus d n page) (sweeps_fun corpus d (S n) page)))
       threshold = true.
Proof.
  intros Hnd. unfold converged, sweep_fun.
  rewrite <- (keys_length corpus).
  apply (pass_count_full corpus d (Dict.keys corpus) Hnd
           (sweeps_fun corpus d n) 0%Z).
Qed.

(** As long as no pass counts every page the loop goes on. *)
Lemma loop_fun_never {F : Type} {NF : Number F} (corpus : corpus_t) (d : F) :
  (∀ n, ¬ converged corpus d n) →
  ∀ fuel, loop_fun corpus d fuel (uniform corpus) = None.
Proof.
  intros Hnever fuel.
  assert (Hgen : ∀ fuel k, loop_fun corpus d fuel (sweeps_fun corpus d k) = None).
  { clear fuel. induction fuel as [|fuel IH]; intros k; [done|].
    cbn [loop_fun]. pose proof (Hnever k) as Hk. unfold converged in Hk.
    specialize (IH (S k)).
    change (sweeps_fun corpus d (S k))
      with (sweep_fun corpus d (sweeps_fun corpus d k)).1 in IH.
    destruct (sweep_fun corpus d (sweeps_fun corpus d k)) as [r' count].
    cbn [fst snd] in *. by rewrite decide_False. }
  apply (Hgen fuel 0%nat).
Qed.

(** In binary64 the loop does not always end.  On [cyc4] with the damping
    factor 0.9999999999999999 the first pass leaves the ranks
    (0.5, 2^-55, 0.25, 0.5); from there each pass turns them into
    (0.25, 2^-55, 0.5, 0.25) and the next one back, counting one page of
    four every time. *)
Lemma sweep_cyc4_first :
  initial_ranks cyc4 =
    Ok [("A", 0.25); ("D", 0.25); ("C", 0.25); ("B", 0.25)]%float ∧
  sweep cyc4 below_one [("A", 0.25); ("D", 0.25); ("C", 0.25); ("B", 0.25)]%float =
    Ok ([("A", 0.5); ("D", 0x1p-55); ("C", 0.25); ("B", 0.5)]%float, 1%Z).
Proof. split; vm_compute; reflexivity. Qed.

Lemma sweep_cyc4_there :
  sweep cyc4 below_one [("A", 0.5); ("D", 0x1p-55); ("C", 0.25); ("B", 0.5)]%float =
    Ok ([("A", 0.25); ("D", 0x1p-55); ("C", 0.5); ("B", 0.25)]%float, 1%Z).
Proof. vm_compute. reflexivity. Qed.

Lemma sweep_cyc4_back :
  sweep cyc4 below_one [("A", 0.25); ("D", 0x1p-55); ("C", 0.5); ("B", 0.25)]%float =
    Ok ([("A", 0.5); ("D", 0x1p-55); ("C", 0.25); ("B", 0.5)]%float, 1%Z).
Proof. vm_compute. reflexivity. Qed.

Lemma loop_cyc4 (fuel : nat) :
  loop cyc4 below_one fuel
       [("A", 0.5); ("D", 0x1p-55); ("C", 0.25); ("B", 0.5)]%float = None ∧
  loop cyc4 below_one fuel
       [("A", 0.25); ("D", 0x1p-55); ("C", 0.5); ("B", 0.25)]%float = None.
Proof.
  induction fuel as [|fuel [IH1 IH2]]; [done|]. cbn [loop].
  rewrite sweep_cyc4_there, sweep_cyc4_back.
  rewrite !decide_False by (by vm_compute). done.
Qed.

Lemma iterate_pagerank_cyc4 (fuel : nat) :
  iterate_pagerank cyc4 below_one fuel = None.
Proof.
  unfold iterate_pagerank. destruct sweep_cyc4_first as [-> Hfirst].
  destruct fuel as [|fuel]; [done|]. cbn [loop]. rewrite Hfirst.
  rewrite decide_False by (by vm_compute). apply loop_cyc4.
Qed.

(** C4, as the code has it.  [iterate_pagerank] takes no threshold and no
    iteration cap and returns the rank map alone.  In every arithmetic it
    returns exactly at the first pass that counts every page (the changes
    of all pages are below the built-in 0.0005): the loop is still running
    at every bound up to that pass and returns its ranks for every bound
    above it, and when no pass counts every page it returns for no bound.
    Over exact rationals such a pass exists on every graph for a damping
    factor in (0,1), so there the loop ends. *)
Theorem iterate_pagerank_returns_at_convergence (corpus : corpus_t) (d : Q) :
  valid corpus → corpus ≠ [] → 0 < d ∧ d < 1 →
  (∀ (F : Type) (NF : Number F) (d' : F) (n : nat)
     (before ranks : list (string * F)),
     sweeps corpus d' n = Ok before →
     sweep corpus d' before = Ok (ranks, Z.of_nat (length corpus)) →
     (∀ j, (j < n)%nat →
        ∃ rj rj' count, sweeps corpus d' j = Ok rj ∧
                        sweep corpus d' rj = Ok (rj', count) ∧
                        count ≠ Z.of_nat (length corpus)) →
     (∀ page, page ∈ Dict.keys corpus →
        ∃ old new, Dict.get before page = Some old ∧
                   Dict.get ranks page = Some new ∧
                   lt (absv (sub old new)) threshold = true) ∧
     ∀ fuel, iterate_pagerank corpus d' fuel =
               if decide (n < fuel)%nat then Some (Ok ranks) else None) ∧
  (∀ (F : Type) (NF : Number F) (d' : F),
     (∀ n, ∃ rn rn' count, sweeps corpus d' n = Ok rn ∧
                           sweep corpus d' rn = Ok (rn', count) ∧
                           count ≠ Z.of_nat (length corpus)) →
     ∀ fuel, iterate_pagerank corpus d' fuel = None) ∧
  ∃ (n : nat) (before ranks : list (string * Q)),
    sweeps corpus d n = Ok before ∧
    sweep corpus d before = Ok (ranks, Z.of_nat (length corpus)) ∧
    (∀ page, page ∈ Dict.keys corpus →
       ∃ old new, Dict.get before page = Some old ∧
                  Dict.get ranks page = Some new ∧
                  Qabs (old - new) < 5 / 10000) ∧
    (∀ j, (j < n)%nat →
       ∃ rj rj' count, sweeps corpus d j = Ok rj ∧
                       sweep corpus d rj = Ok (rj', count) ∧
                       count ≠ Z.of_nat (length corpus)) ∧
    (∀ fuel, iterate_pagerank corpus d fuel =
               if decide (n < fuel)%nat then Some (Ok ranks) else None).
Proof.
  intros (Hnd & _ & _) _ [Hd0 Hd1]. split; [|split].
  - intros F NF d' n before ranks Hbefore Hsweep Hearlier.
    destruct (sweeps_sweep_inv corpus d' n before ranks _ Hnd Hbefore Hsweep)
      as (-> & -> & Hcount).
    assert (Hconv : converged corpus d' n) by done.
    split.
    + intros page Hpage. eexists _, _.
      split; [by apply get_tabulate|]. split; [by apply get_tabulate|].
      by apply (converged_settled corpus d' n Hnd).
    + intros fuel. rewrite iterate_pagerank_run by done.
      rewrite (loop_fun_first corpus d' n).
      * by destruct (decide (n < fuel)%nat).
      * done.
      * intros j Hj Hconvj.
        destruct (Hearlier j Hj) as (rj & rj' & count & Hrj & Hsw & Hne).
        destruct (sweeps_sweep_inv corpus d' j rj rj' count Hnd Hrj Hsw)
          as (_ & _ & ->).
        by apply Hne.
  - intros F NF d' Hnever fuel. rewrite iterate_pagerank_run by done.
    rewrite loop_fun_never; [done|]. intros n Hconv.
    destruct (Hnever n) as (rn & rn' & count & Hrn & Hsw & Hne).
    destruct (sweeps_sweep_inv corpus d' n rn rn' count Hnd Hrn Hsw)
      as (_ & _ & ->).
    by apply Hne.
  - destruct (eventually_converged corpus d Hnd) as [T HT]; [lra|done|].
    destruct (least_index (converged corpus d) T HT) as (n & Hn & Hfirst).
    exists n, (tabulate (sweeps_fun corpus d n) (Dict.keys corpus)),
           (tabulate (sweeps_fun corpus d (S n)) (Dict.keys corpus)).
    split; [by apply sweeps_run|]. split; [|split; [|split]].
    + rewrite sweep_run by done. unfold converged in Hn. by rewrite Hn.
    + intros page Hpage. eexists _, _.
      split; [by apply get_tabulate|]. split; [by apply get_tabulate|].
      by apply (converged_iff corpus d n Hnd).
    + intros j Hj. eexists _, _, _. split; [by apply sweeps_run|].
      split; [by apply sweep_run|]. by apply Hfirst.
    + intros fuel. rewrite iterate_pagerank_run by done.
      rewrite (loop_fun_first corpus d n Hn Hfirst).
      by destruct (decide (n < fuel)%nat).
Qed.

Lemma iterate_pagerank_returns_at_convergence_witness :
  (∀ (F : Type) (NF : Number F) (d' : F) (n : nat)
     (before ranks : list (string * F)),
     sweeps tri d' n = Ok before →
     sweep tri d' before = Ok (ranks, Z.of_nat (length tri)) →
     (∀ j, (j < n)%nat →
        ∃ rj rj' count, sweeps tri d' j = Ok rj ∧
                        sweep tri d' rj = Ok (rj', count) ∧
                        count ≠ Z.of_nat (length tri)) →
     (∀ page, page ∈ Dict.keys tri →
        ∃ old new, Dict.get before page = Some old ∧
                   Dict.get ranks page = Some new ∧
                   lt (absv (sub old new)) threshold = true) ∧
     ∀ fuel, iterate_pagerank tri d' fuel =
               if decide (n < fuel)%nat then Some (Ok ranks) else None) ∧
  (∀ (F : Type) (NF : Number F) (d' : F),
     (∀ n, ∃ rn rn' count, sweeps tri d' n = Ok rn ∧
                           sweep tri d' rn = Ok (rn', count) ∧
                           count ≠ Z.of_nat (length tri)) →
     ∀ fuel, iterate_pagerank tri d' fuel = None) ∧
  ∃ (n : nat) (before ranks : list (string * Q)),
    sweeps tri (17 # 20) n = Ok before ∧
    sweep tri (17 # 20) before = Ok (ranks, Z.of_nat (length tri)) ∧
    (∀ page, page ∈ Dict.keys tri →
       ∃ old new, Dict.get before page = Some old ∧
                  Dict.get ranks page = Some new ∧
                  Qabs (old - new) < 5 / 10000) ∧
    (∀ j, (j < n)%nat →
       ∃ rj rj' count, sweeps tri (17 # 20) j = Ok rj ∧
                       sweep tri (17 # 20) rj = Ok (rj', count) ∧
                       count ≠ Z.of_nat (length tri)) ∧
    (∀ fuel, iterate_pagerank tri (17 # 20) fuel =
               if decide (n < fuel)%nat then Some (Ok ranks) else None).
Proof.
  apply (iterate_pagerank_returns_at_convergence tri (17 # 20)).
  - apply (bool_decide_unpack _). vm_compute. reflexivity.
  - discriminate.
  - split; reflexivity.
Defined.

(** C4 at two inputs.  On the dangling-page graph of the specification
    with damping 0.85, over exact rationals, the first pass does not count
    every page, the loop is still running after five passes, and what it
    returns at its sixth pass is a rank map without a flag: there is no
    cap.  In binary64, the arithmetic of the interpreter, on the valid
    graph [cyc4] with the damping factor 0.9999999999999999 the loop
    returns for no bound on the number of passes: it runs forever. *)
Lemma iterate_pagerank_no_cap :
  (valid tri ∧
   ∃ r0 r1 count r,
     initial_ranks tri = Ok r0 ∧
     sweep tri (17 # 20) r0 = Ok (r1, count) ∧
     count ≠ Z.of_nat (length tri) ∧
     iterate_pagerank tri (17 # 20) 1 = None ∧
     iterate_pagerank tri (17 # 20) 5 = None ∧
     iterate_pagerank tri (17 # 20) 6 = Some (Ok r) ∧
     ∃ v1 v, Dict.get r1 "A" = Some v1 ∧ Dict.get r "A" = Some v ∧ ¬ v1 == v) ∧
  (valid cyc4 ∧ cyc4 ≠ [] ∧
   PrimFloat.ltb 0 below_one = true ∧ PrimFloat.ltb below_one 1 = true ∧
   ∀ fuel, iterate_pagerank cyc4 below_one fuel = None).
Proof.
  split.
  - split; [apply (bool_decide_unpack _); vm_compute; reflexivity|].
    eexists _, _, _, _.
    split; [vm_compute; reflexivity|].
    split; [vm_compute; reflexivity|].
    split; [vm_compute; discriminate|].
    split; [vm_compute; reflexivity|].
    split; [vm_compute; reflexivity|].
    split; [vm_compute; reflexivity|].
    eexists _, _. split; [vm_compute; reflexivity|].
    split; [vm_compute; reflexivity|].
    vm_compute. discriminate.
  - split; [apply (bool_decide_unpack _); vm_compute; reflexivity|].
    split; [discriminate|].
    split; [vm_compute; reflexivity|]. split; [vm_compute; reflexivity|].
    apply iterate_pagerank_cyc4.
Qed.

(** ** In-place update against a synchronous pass *)

Section InPlace.
Context {F : Type} {NF : Number F}.

Lemma incoming_ext (corpus : corpus_t) (r1 r2 : string → F) (key : string) :
  (∀ page, page ∈ Dict.keys corpus → r1 page = r2 page) →
  incoming corpus r1 key = incoming corpus r2 key.
Proof.
  unfold incoming. generalize (of_int 0).
  induction corpus as [|[page links] cs IH]; intros sigma Hr; [done|].
  cbn [foldl]. rewrite (Hr page) by apply list_elem_of_here.
  apply IH. intros page' Hin. apply Hr. by apply list_elem_of_further.
Qed.

Lemma new_rank_ext (corpus : corpus_t) (d : F) (r1 r2 : string → F) (key : string) :
  (∀ page, page ∈ Dict.keys corpus → r1 page = r2 page) →
  new_rank corpus d r1 key = new_rank corpus d r2 key.
Proof. intros Hr. unfold new_rank. by rewrite (incoming_ext corpus r1 r2). Qed.

(** The value a pass leaves at [key] is the recurrence evaluated on the
    state reached after the keys before it. *)
Lemma pass_at (corpus : corpus_t) (d : F) (pre suf : list string) (key : string)
    (r : string → F) :
  NoDup (pre ++ key :: suf) →
  (pass corpus d (pre ++ key :: suf) (r, 0%Z)).1 key =
    new_rank corpus d (pass corpus d pre (r, 0%Z)).1 key.
Proof.
  intros Hnd. apply NoDup_app in Hnd as (_ & _ & Hnd).
  apply NoDup_cons in Hnd as [Hkey _].
  rewrite pass_app, pass_cons, pass_other by done.
  unfold page_step, upd. cbn [fst]. by rewrite decide_True.
Qed.

Lemma pass_before (corpus : corpus_t) (d : F) (pre suf : list string)
    (r : string → F) (q : string) :
  NoDup (pre ++ suf) → q ∈ pre →
  (pass corpus d (pre ++ suf) (r, 0%Z)).1 q = (pass corpus d pre (r, 0%Z)).1 q.
Proof.
  intros Hnd Hq. rewrite pass_app. apply pass_other.
  apply NoDup_app in Hnd as (_ & Hdisj & _). by apply Hdisj.
Qed.

(** C1, as the code has it.  One pass of the loop body handles the pages in
    corpus order and overwrites each rank as soon as it is computed: the
    value stored for a page is the recurrence of lines 147-157 evaluated on
    the map in which the pages before it already hold their new values and
    the remaining pages still hold the values of the previous pass. *)
Theorem sweep_in_place (corpus : corpus_t) (d : F) (ranks : list (string * F))
    (pre suf : list string) (key : string) :
  unique_keys corpus →
  Dict.keys ranks = Dict.keys corpus →
  Dict.keys corpus = pre ++ key :: suf →
  ∃ ranks' count v,
    sweep corpus d ranks = Ok (ranks', count) ∧
    Dict.keys ranks' = Dict.keys corpus ∧
    Dict.get ranks' key = Some v ∧
    new_value corpus d (mixed pre ranks' ranks) key = Ok v.
Proof.
  intros Hnd Hkeys Hsplit.
  set (r := λ k, default (of_int 0) (Dict.get ranks k)).
  assert (Hranks : ranks = tabulate r (Dict.keys corpus)).
  { rewrite <- Hkeys. apply tabulate_get. by rewrite Hkeys. }
  set (r' := (sweep_fun corpus d r).1).
  assert (Hkey : key ∈ Dict.keys corpus) by (rewrite Hsplit; set_solver).
  exists (tabulate r' (Dict.keys corpus)), (sweep_fun corpus d r).2, (r' key).
  split; [rewrite Hranks; by apply sweep_run|].
  split; [apply keys_tabulate|]. split; [by apply get_tabulate|].
  set (m := λ q, if decide (q ∈ pre) then r' q else r q).
  assert (Hmixed : mixed pre (tabulate r' (Dict.keys corpus)) ranks =
                   tabulate m (Dict.keys corpus)).
  { rewrite Hranks at 1. unfold mixed, tabulate. rewrite map_map.
    apply map_ext_in. intros q Hq. apply list_elem_of_In in Hq. cbn [fst snd].
    unfold m. destruct (decide (q ∈ pre)); [|done].
    fold (tabulate r' (Dict.keys corpus)). by rewrite get_tabulate. }
  assert (Hr' : ∀ q, r' q = (pass corpus d (pre ++ key :: suf) (r, 0%Z)).1 q).
  { intros q. unfold r', sweep_fun. by rewrite Hsplit. }
  assert (Hnd' : NoDup (pre ++ key :: suf)) by (by rewrite <- Hsplit).
  rewrite Hmixed. rewrite new_value_run.
  - f_equal. rewrite Hr', pass_at by done.
    apply new_rank_ext. intros q _. unfold m.
    destruct (decide (q ∈ pre)) as [Hq|Hq].
    + rewrite Hr'. by apply pass_before.
    + by rewrite pass_other.
  - done.
  - intros ->. by apply not_elem_of_nil in Hkey.
Qed.
End InPlace.

Lemma sweep_in_place_witness :
  ∃ ranks' count v,
    sweep chain (1 # 2) [("A", 1 # 2); ("B", 1 # 2)] = Ok (ranks', count) ∧
    Dict.keys ranks' = Dict.keys chain ∧
    Dict.get ranks' "B" = Some v ∧
    new_value chain (1 # 2)
      (mixed ["A"] ranks' [("A", 1 # 2); ("B", 1 # 2)]) "B" = Ok v.
Proof.
  apply (sweep_in_place chain (1 # 2) [("A", 1 # 2); ("B", 1 # 2)] ["A"] [] "B").
  - apply (bool_decide_unpack _). vm_compute. reflexivity.
  - reflexivity.
  - reflexivity.
Defined.

(** C1 on the two-page graph A -> B with damping 1/2, from the ranks 1/2,
    1/2: the code gives B the value 1/4 + 1/2 * (1/4) = 3/8, computed from
    the rank of A it has just overwritten, where the synchronous pass gives
    1/4 + 1/2 * (1/2) = 1/2. *)
Lemma sweep_not_synchronous :
  valid chain ∧ chain ≠ [] ∧ (0 < 1 # 2 ∧ 1 # 2 < 1) ∧
  ∃ r0 r count r' count' b b',
    initial_ranks chain = Ok r0 ∧
    sweep chain (1 # 2) r0 = Ok (r, count) ∧
    sweep_synchronous chain (1 # 2) r0 = Ok (r', count') ∧
    Dict.get r "B" = Some b ∧ Dict.get r' "B" = Some b' ∧
    b == 3 # 8 ∧ b' == 1 # 2 ∧ ¬ b == b'.
Proof.
  split; [apply (bool_decide_unpack _); vm_compute; reflexivity|].
  split; [discriminate|]. split; [split; reflexivity|].
  eexists _, _, _, _, _, _, _.
  split; [vm_compute; reflexivity|].
  split; [vm_compute; reflexivity|].
  split; [vm_compute; reflexivity|].
  split; [vm_compute; reflexivity|].
  split; [vm_compute; reflexivity|].
  split; [vm_compute; reflexivity|].
  split; [vm_compute; reflexivity|].
  vm_compute. discriminate.
Qed.

(** ** The sum of the ranks after a pass *)










(** ** The one-page graph *)

(** Sampling side of C9, over exact rationals: every visit is to the one
    page, which ends with n times 1/n, that is 1. *)
Lemma sample_pagerank_lone (d : Q) (n : Z) (rng : nat → nat) :
  0 < d ∧ d < 1 → (1 <= n)%Z →
  ∃ v, sample_pagerank lone d n rng = Ok [("A", v)] ∧ v == 1.
Proof.
  intros Hd Hn.
  destruct (sample_pagerank_counts lone d n rng)
    as (rank & Hrun & Hkeys & _ & _ & Hsum);
    [apply (bool_decide_unpack _); vm_compute; reflexivity|done|done|done|].
  destruct rank as [|[k v] [|? ?]]; try discriminate Hkeys.
  simpl in Hkeys. inversion Hkeys; subst k.
  exists v. split; [done|]. unfold total_rank in Hsum. simpl in Hsum. lra.
Qed.

Lemma new_rank_lone (d : Q) (r : string → Q) :
  new_rank lone d r "A" = (1 - d) / 1 + d * 0.
Proof.
  unfold new_rank, incoming. cbn [lone foldl length].
  by rewrite decide_False by set_solver.
Qed.

(** C9 for the iterative estimate of the one-page graph, over exact
    rationals and for every damping factor in (0,1): the loop returns
    within two passes, and the rank it returns for the page is 1 - d, not
    1. *)
Theorem iterate_pagerank_lone (d : Q) :
  0 < d ∧ d < 1 →
  ∃ v, iterate_pagerank lone d 2 = Some (Ok [("A", v)]) ∧
       v == 1 - d ∧ ¬ v == 1.
Proof.
  intros [Hd0 Hd1]. exists ((1 - d) / 1 + d * 0).
  split; [|split; [field|intros Heq; field_simplify in Heq; lra]].
  rewrite iterate_pagerank_run
    by (apply (bool_decide_unpack _); vm_compute; reflexivity).
  assert (Hstep : ∀ r count,
    page_step lone d (r, count) "A" =
      (upd r "A" ((1 - d) / 1 + d * 0),
       if lt (absv (sub (r "A") ((1 - d) / 1 + d * 0))) threshold
       then (count + 1)%Z else count)).
  { intros r count. unfold page_step. cbn [fst snd].
    by rewrite new_rank_lone. }
  assert (Hsettled : ∀ r : string → Q,
    r "A" = (1 - d) / 1 + d * 0 →
    lt (absv (sub (r "A") ((1 - d) / 1 + d * 0))) threshold = true).
  { intros r Hr. apply lt_Q_spec. rewrite Hr.
    change (Qabs ((1 - d) / 1 + d * 0 - ((1 - d) / 1 + d * 0)) < 5 / 10000).
    setoid_replace ((1 - d) / 1 + d * 0 - ((1 - d) / 1 + d * 0)) with 0
      using relation Qeq by ring.
    reflexivity. }
  cbn [loop_fun]. unfold sweep_fun, pass. cbn [lone Dict.keys map fst foldl].
  rewrite Hstep. cbn [length].
  destruct (lt (absv (sub (uniform lone "A") ((1 - d) / 1 + d * 0))) threshold).
  - rewrite decide_True by done. simpl. unfold upd.
    by rewrite decide_True.
  - rewrite decide_False by done. rewrite Hstep.
    rewrite Hsettled by (unfold upd; by rewrite decide_True).
    rewrite decide_True by done. simpl. unfold upd. by rewrite decide_True.
Qed.

Lemma iterate_pagerank_lone_witness :
  ∃ v, iterate_pagerank lone (17 # 20) 2 = Some (Ok [("A", v)]) ∧
       v == 1 - (17 # 20) ∧ ¬ v == 1.
Proof.
  apply (iterate_pagerank_lone (17 # 20)). split; reflexivity.
Defined.

(** ** [crawl]: the two loops *)

Section CrawlFacts.
Context {V : Type}.
Implicit Types (d : list (string * V)) (k : string) (v : V).

Lemma keys_set d k v :
  Dict.keys (Dict.set d k v) =
    if decide (k ∈ Dict.keys d) then Dict.keys d else Dict.keys d ++ [k].
Proof.
  destruct (decide (k ∈ Dict.keys d)) as [Hin|Hnin].
  - by apply keys_set_present.
  - rewrite set_fresh by done. unfold Dict.keys. by rewrite map_app.
Qed.

Lemma set_unique d k v : NoDup (Dict.keys d) → NoDup (Dict.keys (Dict.set d k v)).
Proof.
  intros Hnd. rewrite keys_set. destruct (decide (k ∈ Dict.keys d)); [done|].
  apply NoDup_app. split; [done|]. split.
  - intros x Hx Hxk. apply list_elem_of_singleton in Hxk. by subst.
  - apply NoDup_singleton.
Qed.
End CrawlFacts.

(** After the first loop the keys are unique and no page is among its own
    links. *)
Lemma read_pages_invariant (directory : list (string * string)) (pages : corpus_t) :
  unique_keys pages → no_self_loops pages →
  unique_keys (foldl read_page pages directory) ∧
  no_self_loops (foldl read_page pages directory).
Proof.
  revert pages. induction directory as [|[filename contents] rest IH];
    intros pages Hnd Hself; [done|].
  cbn [foldl]. apply IH; unfold read_page.
  - destruct (is_html filename); [|done]. by apply set_unique.
  - destruct (is_html filename); [|done].
    unfold no_self_loops in *. rewrite Forall_forall in *.
    intros [k v] Hin. apply get_member in Hin; [|by apply set_unique].
    cbn [fst snd]. destruct (decide (k = filename)) as [->|Hne].
    + rewrite get_set_eq in Hin. inversion Hin; subst. set_solver.
    + rewrite get_set_ne in Hin by done.
      apply get_Some_member in Hin. apply (Hself (k, v) Hin).
Qed.

Lemma keep_known_tabulate (f : string → gset string) (ks : list string) (k : string) :
  NoDup ks → k ∈ ks →
  keep_known (tabulate f ks) k =
    Ok (tabulate (upd f k (filter (λ link, link ∈ ks) (f k))) ks).
Proof.
  intros Hnd Hk. unfold keep_known, Dict.lookup.
  rewrite get_tabulate by done. cbn [mbind result_bind].
  rewrite keys_tabulate. by rewrite set_tabulate.
Qed.

(** The second loop replaces every link set by its part among the keys. *)
Lemma keep_known_run (ks todo : list string) :
  NoDup ks → NoDup todo → todo ⊆ ks →
  ∀ f : string → gset string,
    for_each keep_known todo (tabulate f ks) =
      Ok (tabulate (λ q, if decide (q ∈ todo)
                         then filter (λ link, link ∈ ks) (f q) else f q) ks).
Proof.
  intros Hnd. induction todo as [|k todo IH]; intros Hndt Hsub f.
  - done.
  - apply NoDup_cons in Hndt as [Hk Hndt].
    cbn [for_each]. rewrite keep_known_tabulate by (done || set_solver).
    cbn [mbind result_bind]. rewrite IH by (done || set_solver). f_equal. apply tabulate_ext.
    intros q _. unfold upd. destruct (decide (q = k)) as [->|Hne].
    + rewrite decide_False by done. rewrite decide_True; [done|].
      apply list_elem_of_here.
    + destruct (decide (q ∈ todo)) as [Hq|Hq].
      * rewrite decide_True; [done|]. by apply list_elem_of_further.
      * rewrite decide_False; [done|]. set_solver.
Qed.

(** [crawl] never raises; what it returns is the dictionary of the first
    loop with every link set cut down to the keys. *)
Lemma crawl_run (directory : list (string * string)) :
  let pages := foldl read_page [] directory in
  crawl directory =
    Ok (tabulate (λ q, filter (λ link, link ∈ Dict.keys pages)
                         (default ∅ (Dict.get pages q)))
                 (Dict.keys pages)).
Proof.
  intros pages. unfold crawl. fold pages.
  destruct (read_pages_invariant directory []) as [Hnd Hself];
    [apply NoDup_nil_2|apply Forall_nil_2|]. fold pages in Hnd, Hself.
  rewrite (tabulate_get pages ∅ Hnd) at 2.
  rewrite keep_known_run by done. f_equal. apply tabulate_ext.
  intros q Hq. by rewrite decide_True.
Qed.

(** A file whose name does not occur in the listing leaves no trace. *)
Lemma read_pages_other (directory : list (string * string)) (pages : corpus_t)
    (filename : string) :
  filename ∉ map fst directory →
  Dict.get (foldl read_page pages directory) filename = Dict.get pages filename.
Proof.
  revert pages. induction directory as [|[name contents] rest IH];
    intros pages Hnin; [done|].
  cbn [foldl map fst] in *. apply not_elem_of_cons in Hnin as [Hne Hnin].
  rewrite IH by done. unfold read_page.
  destruct (is_html name); [|done]. by rewrite get_set_ne.
Qed.

Lemma read_pages_get (directory : list (string * string)) (pages : corpus_t)
    (filename contents : string) :
  NoDup (map fst directory) → (filename, contents) ∈ directory →
  is_html filename = true →
  Dict.get (foldl read_page pages directory) filename =
    Some (list_to_set (find_links contents) ∖ {[filename]}).
Proof.
  revert pages. induction directory as [|[name text] rest IH];
    intros pages Hnd Hin Hhtml.
  - by apply not_elem_of_nil in Hin.
  - cbn [foldl map fst] in *. apply NoDup_cons in Hnd as [Hname Hnd].
    apply elem_of_cons in Hin as [Heq|Hin].
    + inversion Heq; subst name text. rewrite read_pages_other by done.
      unfold read_page. rewrite Hhtml. by rewrite get_set_eq.
    + by apply IH.
Qed.

Lemma read_pages_keys (directory : list (string * string)) (pages : corpus_t) :
  NoDup (Dict.keys pages ++ map fst directory) →
  Dict.keys (foldl read_page pages directory) =
    Dict.keys pages ++ filter (λ name, is_html name = true) (map fst directory).
Proof.
  revert pages. induction directory as [|[name text] rest IH]; intros pages Hnd.
  - cbn [foldl map filter]. by rewrite filter_nil, app_nil_r.
  - cbn [foldl map fst] in *.
    apply NoDup_app in Hnd as (Hk & Hdisj & Hnd').
    apply NoDup_cons in Hnd' as [Hname Hrest].
    assert (Hfresh : name ∉ Dict.keys pages).
    { intros Hin. apply (Hdisj _ Hin), list_elem_of_here. }
    rewrite filter_cons. unfold read_page at 2.
    destruct (is_html name) eqn:Hhtml.
    + rewrite decide_True by done. rewrite IH.
      * rewrite keys_set, decide_False by done. by rewrite <- app_assoc.
      * rewrite keys_set, decide_False by done. rewrite <- app_assoc.
        apply NoDup_app. split; [done|]. split.
        -- intros x Hx Hx'. apply (Hdisj _ Hx). done.
        -- by apply NoDup_cons.
    + rewrite decide_False by done. apply IH.
      apply NoDup_app. split; [done|]. split; [|done].
      intros x Hx Hx'. apply (Hdisj _ Hx). by apply list_elem_of_further.
Qed.

Lemma read_pages_html (directory : list (string * string)) (pages : corpus_t) :
  foldl read_page pages directory =
    foldl read_page pages (filter (λ entry, is_html entry.1 = true) directory).
Proof.
  revert pages. induction directory as [|[name text] rest IH]; intros pages;
    [done|].
  rewrite filter_cons. cbn [foldl fst]. unfold read_page at 2.
  destruct (is_html name) eqn:Hhtml.
  - rewrite decide_True by done. cbn [foldl]. unfold read_page at 3.
    rewrite Hhtml. apply IH.
  - rewrite decide_False by done. apply IH.
Qed.

(** ** [crawl]: what a caller can rely on *)

(** X1.  The corpus [crawl] returns satisfies the invariants the
    estimators expect: page names are unique, every link points to a page
    of the corpus, and no page links to itself.  Whether [crawl] returns is
    a matter of the file system and not part of this statement. *)
Theorem crawl_valid (directory : list (string * string)) (corpus : corpus_t) :
  crawl directory = Ok corpus → valid corpus.
Proof.
  intros Hrun. rewrite crawl_run in Hrun. cbn zeta in Hrun.
  inversion Hrun as [Hcorpus]. clear Hrun Hcorpus.
  destruct (read_pages_invariant directory []) as [Hnd Hself];
    [apply NoDup_nil_2|apply Forall_nil_2|].
  set (pages := foldl read_page [] directory) in *.
  split; [|split].
  - unfold unique_keys. by rewrite keys_tabulate.
  - unfold closed. rewrite keys_tabulate. apply Forall_forall.
    intros [k v] Hin. unfold tabulate in Hin.
    apply list_elem_of_In in Hin. apply in_map_iff in Hin as (q & Heq & Hq).
    inversion Heq; subst. cbn [snd]. intros link Hlink.
    apply elem_of_filter in Hlink as [Hlink _]. by apply elem_of_list_to_set.
  - unfold no_self_loops. apply Forall_forall.
    intros [k v] Hin. unfold tabulate in Hin.
    apply list_elem_of_In in Hin. apply in_map_iff in Hin as (q & Heq & Hq).
    inversion Heq; subst. cbn [fst snd].
    apply list_elem_of_In in Hq. apply get_is_Some in Hq as [links Hget].
    rewrite Hget. cbn [default]. apply get_Some_member in Hget.
    unfold no_self_loops in Hself. rewrite Forall_forall in Hself.
    specialize (Hself _ Hget). cbn [fst snd] in Hself.
    intros Hk. by apply elem_of_filter in Hk as [_ Hk].
Qed.

Lemma crawl_valid_witness :
  ∃ corpus, crawl site = Ok corpus ∧ valid corpus.
Proof.
  eexists. split; [vm_compute; reflexivity|].
  apply (crawl_valid site). vm_compute. reflexivity.
Defined.

(** X2.  When the listing names each file once, the pages of the corpus
    are exactly the files whose name ends in [.html], in listing order. *)
Theorem crawl_pages (directory : list (string * string)) :
  NoDup (map fst directory) →
  ∃ corpus, crawl directory = Ok corpus ∧
    Dict.keys corpus = filter (λ name, is_html name = true) (map fst directory).
Proof.
  intros Hnd. eexists. split; [apply crawl_run|].
  rewrite keys_tabulate. by rewrite read_pages_keys.
Qed.

(** X3.  The links recorded for a page are the [href] targets found in its
    text that name another [.html] file of the listing. *)
Theorem crawl_links (directory : list (string * string))
    (filename contents : string) :
  NoDup (map fst directory) → (filename, contents) ∈ directory →
  is_html filename = true →
  ∃ corpus links, crawl directory = Ok corpus ∧
    Dict.get corpus filename = Some links ∧
    ∀ link, link ∈ links ↔
      link ∈ find_links contents ∧ link ≠ filename ∧
      is_html link = true ∧ link ∈ map fst directory.
Proof.
  intros Hnd Hin Hhtml. eexists. eexists. split; [apply crawl_run|].
  assert (Hkeys : Dict.keys (foldl read_page [] directory) =
                  filter (λ name, is_html name = true) (map fst directory))
    by by rewrite read_pages_keys.
  assert (Hname : filename ∈ map fst directory).
  { apply list_elem_of_In, in_map_iff. exists (filename, contents).
    split; [done|]. by apply list_elem_of_In. }
  split.
  - rewrite get_tabulate; [done|]. rewrite Hkeys.
    apply list_elem_of_filter. by split.
  - intros link. rewrite (read_pages_get _ _ _ contents) by done.
    simpl (default _ _). rewrite elem_of_filter, Hkeys, list_elem_of_filter.
    rewrite elem_of_difference, elem_of_list_to_set, elem_of_singleton. tauto.
Qed.

(** X4.  Files whose name does not end in [.html] are invisible to
    [crawl]: removing them from the listing changes nothing. *)
Theorem crawl_ignores_other_files (directory : list (string * string)) :
  crawl directory = crawl (filter (λ entry, is_html entry.1 = true) directory).
Proof. unfold crawl. by rewrite <- read_pages_html. Qed.

Lemma crawl_pages_witness :
  ∃ corpus, crawl site = Ok corpus ∧
    Dict.keys corpus = filter (λ name, is_html name = true) (map fst site).
Proof.
  apply (crawl_pages site). apply (bool_decide_unpack _). vm_compute. reflexivity.
Defined.

Lemma crawl_links_witness :
  ∃ corpus links, crawl site = Ok corpus ∧
    Dict.get corpus "2.html" = Some links ∧
    ∀ link, link ∈ links ↔
      link ∈ find_links (link_to "1.html" +:+ "and" +:+ link_to "elsewhere.html") ∧
      link ≠ "2.html" ∧ is_html link = true ∧ link ∈ map fst site.
Proof.
  apply (crawl_links site).
  - apply (bool_decide_unpack _). vm_compute. reflexivity.
  - apply (bool_decide_unpack _). vm_compute. reflexivity.
  - vm_compute. reflexivity.
Defined.

(** ** The pattern of line 39 *)

Section Matcher.
Context {R : Type}.
Implicit Types (p : ascii → bool) (k : list ascii → option R) (s : list ascii).

(** A successful repetition consumed a run of admissible characters and
    then continued successfully. *)
Lemma greedy_star_inv p k s r :
  greedy_star p k s = Some r →
  ∃ pre suf, s = pre ++ suf ∧ Forall (λ c, p c = true) pre ∧ k suf = Some r.
Proof.
  induction s as [|c s IH]; cbn [greedy_star]; intros H.
  - by exists [], [].
  - destruct (p c) eqn:Hc; [|by exists [], (c :: s)].
    destruct (greedy_star p k s) as [r'|] eqn:Hs; [|by exists [], (c :: s)].
    destruct (IH H) as (pre & suf & -> & Hpre & Hk).
    exists (c :: pre), suf. split; [done|]. split; [by constructor|done].
Qed.

Lemma greedy_plus_inv p k s r :
  greedy_plus p k s = Some r →
  ∃ pre suf, s = pre ++ suf ∧ pre ≠ [] ∧ Forall (λ c, p c = true) pre ∧
             k suf = Some r.
Proof.
  destruct s as [|c s]; cbn [greedy_plus]; [done|].
  destruct (p c) eqn:Hc; [|done]. intros H.
  apply greedy_star_inv in H as (pre & suf & -> & Hpre & Hk).
  exists (c :: pre), suf. split; [done|]. split; [done|].
  split; [by constructor|done].
Qed.

Lemma lazy_star_inv p k s r :
  lazy_star p k s = Some r →
  ∃ pre suf, s = pre ++ suf ∧ Forall (λ c, p c = true) pre ∧ k suf = Some r.
Proof.
  induction s as [|c s IH]; cbn [lazy_star]; intros H.
  - destruct (k []) eqn:Hk; [|done]. exists [], []. by rewrite Hk.
  - destruct (k (c :: s)) eqn:Hk; [exists [], (c :: s); by rewrite Hk|].
    destruct (p c) eqn:Hc; [|done].
    destruct (IH H) as (pre & suf & -> & Hpre & Hk').
    exists (c :: pre), suf. split; [done|]. split; [by constructor|done].
Qed.

(** The greedy repetition runs through admissible characters as long as
    what follows succeeds. *)
Lemma greedy_star_run p k pre suf r :
  Forall (λ c, p c = true) pre → greedy_star p k suf = Some r →
  greedy_star p k (pre ++ suf) = Some r.
Proof.
  intros Hpre Hsuf. induction Hpre as [|c pre Hc _ IH]; [done|].
  cbn [app greedy_star]. by rewrite Hc, IH.
Qed.

Lemma greedy_star_stop p k c s :
  p c = false → greedy_star p k (c :: s) = k (c :: s).
Proof. intros Hc. cbn [greedy_star]. by rewrite Hc. Qed.

(** The lazy repetition passes the characters at which the continuation
    fails. *)
Lemma lazy_star_run p k pre suf :
  Forall (λ c, p c = true) pre →
  (∀ a b, pre = a ++ b → b ≠ [] → k (b ++ suf) = None) →
  lazy_star p k (pre ++ suf) = lazy_star p k suf.
Proof.
  intros Hpre. induction Hpre as [|c pre Hc _ IH]; intros Hfail; [done|].
  pose proof (Hfail [] (c :: pre) eq_refl ltac:(done)) as Hhere.
  cbn [app] in Hhere. cbn [app lazy_star]. rewrite Hhere, Hc. apply IH. intros a b -> Hb. by apply (Hfail (c :: a) b).
Qed.

Lemma lazy_star_here p k s r : k s = Some r → lazy_star p k s = Some r.
Proof. intros Hk. destruct s; cbn [lazy_star]; by rewrite Hk. Qed.
End Matcher.

(** Literal characters of a pattern. *)
Lemma match_literal (lit : list ascii) (items : list item)
    (opened group s : list ascii) :
  match_items (map Chr lit ++ items) opened group (lit ++ s) =
    match_items items opened group s.
Proof.
  induction lit as [|c lit IH]; [done|].
  cbn [map app match_items]. by rewrite decide_True.
Qed.

Lemma match_literal_inv (lit : list ascii) (items : list item)
    (opened group s : list ascii) r :
  match_items (map Chr lit ++ items) opened group s = Some r →
  ∃ s', s = lit ++ s' ∧ match_items items opened group s' = Some r.
Proof.
  revert s. induction lit as [|c lit IH]; intros s H; [by exists s|].
  cbn [map app match_items] in H. destruct s as [|c' s]; [done|].
  destruct (decide (c = c')) as [->|]; [|done].
  destruct (IH _ H) as (s' & -> & Hs'). by exists s'.
Qed.

Lemma match_literal_fail (lit : list ascii) (items : list item)
    (opened group s : list ascii) :
  ¬ lit `prefix_of` s →
  match_items (map Chr lit ++ items) opened group s = None.
Proof.
  intros Hpre.
  destruct (match_items (map Chr lit ++ items) opened group s) eqn:H; [|done].
  apply match_literal_inv in H as (s' & -> & _).
  destruct Hpre. by apply prefix_app_r.
Qed.

(** The pattern, cut at its repetitions. *)
Lemma href_pattern_parts :
  href_pattern =
    map Chr [lt_sign; "a"%char] ++
    Plus is_space :: LazyStar (other_than gt_sign) ::
    map Chr href_chars ++
    [Open; Star (other_than dquote); Close; Chr dquote].
Proof. reflexivity. Qed.

Lemma other_than_true (c c' : ascii) : other_than c c' = true ↔ c' ≠ c.
Proof. unfold other_than. destruct (decide (c' = c)); split; done. Qed.

Lemma Forall_other_than (c : ascii) (s : list ascii) :
  Forall (λ c', other_than c c' = true) s ↔ c ∉ s.
Proof.
  rewrite Forall_forall. split.
  - intros H Hin. specialize (H c Hin). by apply other_than_true in H.
  - intros H c' Hc'. apply other_than_true. by intros ->.
Qed.

(** The group of a match: the text between the quotes. *)
Lemma match_group (target rest : list ascii) :
  dquote ∉ target →
  match_items [Open; Star (other_than dquote); Close; Chr dquote] [] []
              (target ++ dquote :: rest) = Some (target, rest).
Proof.
  intros Hq. cbn [match_items]. apply greedy_star_run.
  { by apply Forall_other_than. }
  rewrite greedy_star_stop by (by unfold other_than; rewrite decide_True).
  cbn [match_items]. rewrite decide_True by done. f_equal. f_equal.
  rewrite length_app. cbn [length].
  replace (length target + S (length rest) - S (length rest))%nat
    with (length target) by lia.
  by rewrite take_app_length.
Qed.

Lemma match_group_inv (s group rest : list ascii) :
  match_items [Open; Star (other_than dquote); Close; Chr dquote] [] [] s
    = Some (group, rest) →
  s = group ++ dquote :: rest ∧ dquote ∉ group.
Proof.
  cbn [match_items]. intros H.
  apply greedy_star_inv in H as (pre & suf & -> & Hpre & H).
  destruct suf as [|c suf]; [done|].
  destruct (decide (dquote = c)) as [<-|]; [|done].
  rewrite length_app in H. cbn [length] in H.
  replace (length pre + S (length suf) - S (length suf))%nat
    with (length pre) in H by lia.
  rewrite take_app_length in H. inversion H; subst.
  split; [done|]. by apply Forall_other_than.
Qed.

(** What a match of the whole pattern at the start of a text looks like. *)
Lemma href_match_inv (s group rest : list ascii) :
  match_items href_pattern [] [] s = Some (group, rest) →
  ∃ ws attrs,
    s = anchor (ws ++ attrs) group ++ rest ∧
    ws ≠ [] ∧ Forall (λ c, is_space c = true) ws ∧
    (gt_sign ∉ attrs) ∧ dquote ∉ group.
Proof.
  rewrite href_pattern_parts. intros H.
  apply match_literal_inv in H as (s1 & -> & H).
  cbn [match_items] in H.
  apply greedy_plus_inv in H as (ws & s2 & -> & Hne & Hws & H).
  apply lazy_star_inv in H as (attrs & s3 & -> & Hattrs & H).
  apply match_literal_inv in H as (s4 & -> & H).
  apply match_group_inv in H as [-> Hq].
  exists ws, attrs. split; [|split; [done|split; [done|split; [|done]]]].
  - unfold anchor. by rewrite <- !app_assoc.
  - by apply Forall_other_than.
Qed.

Lemma prefix_app_short (l x y : list ascii) :
  l `prefix_of` x ++ y → (length l <= length x)%nat → l `prefix_of` x.
Proof.
  intros [k Hk] Hlen. exists (drop (length l) x).
  assert (Hl : l = take (length l) x).
  { rewrite <- (take_app_le x y) by done. rewrite Hk.
    by rewrite take_app_length. }
  rewrite Hl at 1. by rewrite take_drop.
Qed.

Lemma href_last_suffix (a b : list ascii) :
  href_last (a ++ b) = true → href_last b = true.
Proof.
  induction a as [|c a IH]; [done|]. cbn [app href_last].
  intros H. apply andb_true_iff in H as [_ H]. by apply IH.
Qed.

(** Inside attributes that pass [href_last], the rest of the pattern fails
    to match. *)
Lemma href_last_fail (attrs : list ascii) (items : list item)
    (opened group rest : list ascii) :
  href_last attrs = true →
  ∀ a b, attrs = a ++ b → b ≠ [] →
    match_items (map Chr href_chars ++ items) opened group
                (b ++ href_chars ++ rest) = None.
Proof.
  intros Hlast a b -> Hb. apply href_last_suffix in Hlast.
  destruct b as [|c b]; [done|]. cbn [href_last] in Hlast.
  apply andb_true_iff in Hlast as [Hhere _]. apply negb_true_iff in Hhere.
  apply bool_decide_eq_false in Hhere. apply match_literal_fail.
  intros Hpre. apply Hhere. rewrite app_assoc in Hpre.
  apply prefix_app_short in Hpre; [done|].
  rewrite length_app. cbn [length]. lia.
Qed.

Lemma href_attrs (attrs : list ascii) (items : list item)
    (opened group rest : list ascii) r :
  gt_sign ∉ attrs → href_last attrs = true →
  match_items (map Chr href_chars ++ items) opened group (href_chars ++ rest)
    = Some r →
  greedy_star is_space
    (lazy_star (other_than gt_sign)
       (match_items (map Chr href_chars ++ items) opened group))
    (attrs ++ href_chars ++ rest) = Some r.
Proof.
  intros Hgt Hlast Htail. induction attrs as [|c attrs IH].
  - cbn [app]. change (href_chars ++ rest) with ("h"%char :: tl href_chars ++ rest).
    rewrite greedy_star_stop by done. by apply lazy_star_here.
  - assert (Hlazy : lazy_star (other_than gt_sign)
                      (match_items (map Chr href_chars ++ items) opened group)
                      ((c :: attrs) ++ href_chars ++ rest) = Some r).
    { rewrite lazy_star_run.
      - by apply lazy_star_here.
      - by apply Forall_other_than.
      - by apply href_last_fail. }
    apply not_elem_of_cons in Hgt as [_ Hgt].
    cbn [href_last] in Hlast. apply andb_true_iff in Hlast as [_ Hlast].
    specialize (IH Hgt Hlast). cbn [app greedy_star].
    destruct (is_space c); [by rewrite IH|done].
Qed.

(** Attributes without the letter h pass [href_last]. *)
Lemma href_last_no_h (attrs : list ascii) :
  "h"%char ∉ attrs → href_last attrs = true.
Proof.
  induction attrs as [|c attrs IH]; [done|]. intros Hh.
  apply not_elem_of_cons in Hh as [Hc Hh]. cbn [href_last].
  rewrite IH by done. rewrite andb_true_r. apply negb_true_iff.
  apply bool_decide_eq_false. intros [k Hk]. cbn in Hk. by inversion Hk.
Qed.

(** A match of the whole pattern at the start of an anchor. *)
Lemma href_match (c : ascii) (attrs target rest : list ascii) :
  is_space c = true → gt_sign ∉ c :: attrs → href_last (c :: attrs) = true →
  dquote ∉ target →
  match_items href_pattern [] [] (anchor (c :: attrs) target ++ rest)
    = Some (target, rest).
Proof.
  intros Hc Hgt Hlast Hq. rewrite href_pattern_parts. unfold anchor.
  rewrite <- !app_assoc. rewrite match_literal.
  cbn [match_items app greedy_plus]. rewrite Hc.
  cbn [href_last] in Hlast. apply andb_true_iff in Hlast as [_ Hlast].
  apply not_elem_of_cons in Hgt as [_ Hgt].
  apply href_attrs; [done..|]. rewrite match_literal. by apply match_group.
Qed.

(** ** [re.findall] with the pattern of line 39 *)

Lemma findall_inv (pattern : list item) (s : list ascii) (skip : nat)
    (group : list ascii) :
  group ∈ findall pattern s skip →
  ∃ before suf rest,
    s = before ++ suf ∧ match_items pattern [] [] suf = Some (group, rest).
Proof.
  revert skip. induction s as [|c s IH]; intros skip; cbn [findall].
  - destruct skip; [|by intros ?%not_elem_of_nil].
    destruct (match_items pattern [] [] []) as [[g rest]|] eqn:Hm;
      [|by intros ?%not_elem_of_nil].
    intros ->%list_elem_of_singleton. by exists [], [], rest.
  - assert (Hlater : ∀ n, group ∈ findall pattern s n →
              ∃ before suf rest, c :: s = before ++ suf ∧
                match_items pattern [] [] suf = Some (group, rest)).
    { intros n Hin. destruct (IH _ Hin) as (before & suf & rest & -> & Hm).
      by exists (c :: before), suf, rest. }
    destruct skip; [|by apply Hlater].
    destruct (match_items pattern [] [] (c :: s)) as [[g rest]|] eqn:Hm;
      [|by apply Hlater].
    intros [->|Hin]%elem_of_cons; [|by eapply Hlater].
    by exists [], (c :: s), rest.
Qed.

Lemma findall_skip (pattern : list item) (x t : list ascii) :
  findall pattern (x ++ t) (length x) = findall pattern t 0.
Proof. induction x as [|c x IH]; [done|]. by cbn [app length findall]. Qed.

(** After a match that consumed something, the search resumes where the
    match ended. *)
Lemma findall_hit (pattern : list item) (x rest group : list ascii) :
  x ≠ [] → match_items pattern [] [] (x ++ rest) = Some (group, rest) →
  findall pattern (x ++ rest) 0 = group :: findall pattern rest 0.
Proof.
  intros Hx Hm. destruct x as [|c x]; [done|].
  cbn [app findall] in *. rewrite Hm. f_equal.
  cbn [length]. rewrite length_app.
  replace (S (length x + length rest) - length rest - 1)%nat
    with (length x) by lia.
  apply findall_skip.
Qed.

(** Positions at which the pattern does not match are passed over. *)
Lemma findall_miss (pattern : list item) (before rest : list ascii) :
  (∀ a b, before = a ++ b → b ≠ [] →
     match_items pattern [] [] (b ++ rest) = None) →
  findall pattern (before ++ rest) 0 = findall pattern rest 0.
Proof.
  induction before as [|c before IH]; intros Hfail; [done|].
  pose proof (Hfail [] (c :: before) eq_refl ltac:(done)) as Hhere.
  cbn [app findall] in *. rewrite Hhere. apply IH.
  intros a b -> Hb. by apply (Hfail (c :: a) b).
Qed.

Lemma no_anchor_suffix (a b : list ascii) :
  no_anchor (a ++ b) = true → no_anchor b = true.
Proof.
  induction a as [|c a IH]; [done|]. cbn [app no_anchor].
  intros H. apply andb_true_iff in H as [_ H]. by apply IH.
Qed.

(** A text without [<] passes [no_anchor]. *)
Lemma no_anchor_no_lt (text : list ascii) :
  lt_sign ∉ text → no_anchor text = true.
Proof.
  induction text as [|c1 text IH]; [done|]. intros Hlt.
  apply not_elem_of_cons in Hlt as [Hc Hlt]. cbn [no_anchor].
  rewrite IH by done. rewrite andb_true_r.
  destruct text as [|c2 [|c3 text]]; [done..|].
  by rewrite bool_decide_eq_false_2.
Qed.

(** In a text without [<a] and white space, followed by nothing or by
    [<], the pattern matches nowhere. *)
Lemma no_anchor_fail (before rest : list ascii) :
  no_anchor before = true →
  match rest with [] => True | c :: _ => c = lt_sign end →
  ∀ a b, before = a ++ b → b ≠ [] →
    match_items href_pattern [] [] (b ++ rest) = None.
Proof.
  intros Hno Hrest a b -> Hb. apply no_anchor_suffix in Hno.
  destruct b as [|c1 b]; [done|]. cbn [no_anchor] in Hno.
  apply andb_true_iff in Hno as [Hhere _].
  unfold href_pattern. cbn [app match_items].
  destruct (decide (lt_sign = c1)) as [<-|]; [|done].
  destruct b as [|c2 b].
  { destruct rest as [|c rest]; [done|]. subst c. done. }
  cbn [app]. destruct (decide ("a"%char = c2)) as [<-|]; [|done].
  unfold greedy_plus. destruct b as [|c3 b].
  { destruct rest as [|c rest]; [done|]. subst c. done. }
  cbn [app]. rewrite !bool_decide_eq_true_2 in Hhere by done.
  cbn [andb] in Hhere. apply negb_true_iff in Hhere. by rewrite Hhere.
Qed.

Lemma find_links_chars (text : list ascii) :
  find_links (string_of_list_ascii text) =
    map string_of_list_ascii (findall href_pattern text 0).
Proof. unfold find_links. by rewrite list_ascii_of_string_of_list_ascii. Qed.

(** X5.  Every link reported for a text stands in the text inside an
    anchor: [<a], white space, attributes without [>], [href=], and the
    link between double quotes; the link itself holds no double quote. *)
Theorem find_links_sound (contents link : string) :
  link ∈ find_links contents →
  ∃ before ws attrs after,
    list_ascii_of_string contents =
      before ++ anchor (ws ++ attrs) (list_ascii_of_string link) ++ after ∧
    ws ≠ [] ∧ Forall (λ c, is_space c = true) ws ∧
    (gt_sign ∉ attrs) ∧ dquote ∉ list_ascii_of_string link.
Proof.
  unfold find_links. intros Hin. apply list_elem_of_In in Hin.
  apply in_map_iff in Hin as (group & <- & Hin). apply list_elem_of_In in Hin.
  apply findall_inv in Hin as (before & suf & rest & Hs & Hm).
  apply href_match_inv in Hm as (ws & attrs & -> & Hne & Hws & Hgt & Hq).
  exists before, ws, attrs, rest.
  by rewrite list_ascii_of_string_of_list_ascii.
Qed.

Lemma find_links_sound_witness :
  ∃ before ws attrs after,
    list_ascii_of_string (link_to "1.html" +:+ "and" +:+ link_to "elsewhere.html") =
      before ++ anchor (ws ++ attrs) (list_ascii_of_string "elsewhere.html")
        ++ after ∧
    ws ≠ [] ∧ Forall (λ c, is_space c = true) ws ∧
    (gt_sign ∉ attrs) ∧ dquote ∉ list_ascii_of_string "elsewhere.html".
Proof.
  apply (find_links_sound
           (link_to "1.html" +:+ "and" +:+ link_to "elsewhere.html")
           "elsewhere.html").
  apply (bool_decide_unpack _). vm_compute. reflexivity.
Defined.

(** X6.  An anchor is found, and the search goes on behind it: when a text
    consists of a part without [<a] and white space, then an anchor whose
    attributes begin with white space, hold no [>] and no earlier [href=]
    with a quote, and whose target holds no double quote, the links of the
    text are that target followed by the links of the rest. *)
Theorem find_links_anchor (contents : string) (c : ascii)
    (before attrs target after : list ascii) :
  list_ascii_of_string contents =
    before ++ anchor (c :: attrs) target ++ after →
  no_anchor before = true → is_space c = true → gt_sign ∉ c :: attrs →
  href_last (c :: attrs) = true → dquote ∉ target →
  find_links contents =
    string_of_list_ascii target :: find_links (string_of_list_ascii after).
Proof.
  intros Hs Hno Hc Hgt Hlast Hq. rewrite find_links_chars.
  unfold find_links. rewrite Hs.
  rewrite findall_miss by (by apply no_anchor_fail).
  rewrite (findall_hit _ (anchor (c :: attrs) target) after target);
    [done|done|]. by apply href_match.
Qed.

Lemma find_links_anchor_witness :
  find_links (link_to "1.html" +:+ "and" +:+ link_to "elsewhere.html") =
    string_of_list_ascii (list_ascii_of_string "1.html") ::
    find_links (string_of_list_ascii
      (gt_sign :: list_ascii_of_string ("and" +:+ link_to "elsewhere.html"))).
Proof.
  apply (find_links_anchor _ " "%char [] []).
  - vm_compute. reflexivity.
  - reflexivity.
  - reflexivity.
  - apply (bool_decide_unpack _). vm_compute. reflexivity.
  - vm_compute. reflexivity.
  - apply (bool_decide_unpack _). vm_compute. reflexivity.
Defined.

(** X7.  A text without [<a] followed by white space has no links. *)
Theorem find_links_none (contents : string) :
  no_anchor (list_ascii_of_string contents) = true → find_links contents = [].
Proof.
  intros Hno. unfold find_links.
  rewrite <- (app_nil_r (list_ascii_of_string contents)).
  rewrite findall_miss by (by apply no_anchor_fail). reflexivity.
Qed.

Lemma find_links_none_witness :
  find_links "<b>a page</b> <abbr>without</abbr> links" = [].
Proof. apply find_links_none. vm_compute. reflexivity. Defined.

(** ** [transition_model]: further properties *)

Section MissingPage.
Context {F : Type} {NF : Number F}.

(** X10.  Asked for a page that is not a key of the corpus,
    [transition_model] counts no page at all and fails in the division of
    line 82, whatever the damping factor. *)
Theorem transition_model_missing_page (corpus : corpus_t) (page : string)
    (damping_factor : F) :
  unique_keys corpus → page ∉ Dict.keys corpus →
  transition_model corpus page damping_factor = Raise ZeroDivisionError.
Proof.
  intros Hnd Hpage. unfold transition_model.
  rewrite scan_corpus_spec by done.
  destruct (Dict.get corpus page) as [linked|] eqn:Hget.
  { by apply get_Some_keys in Hget. }
  reflexivity.
Qed.
End MissingPage.

Lemma transition_model_missing_page_witness :
  transition_model tri "D" (17 # 20) = Raise ZeroDivisionError.
Proof.
  apply transition_model_missing_page.
  - apply (bool_decide_unpack _). vm_compute. reflexivity.
  - apply (bool_decide_unpack _). vm_compute. reflexivity.
Defined.

Lemma prob_le_1 (linked : gset string) (d : Q) (total : Z) (q : string) :
  0 <= d → d < 1 → (0 < total)%Z → prob linked d total q <= 1.
Proof.
  intros Hd0 Hd1 Htot. unfold prob. simpl.
  assert (Htot' : 1 <= inject_Z total).
  { change 1 with (inject_Z 1). rewrite <- Zle_Qle. lia. }
  assert (Hbase : (inject_Z 1 - d) / inject_Z total <= 1 - d).
  { apply Qle_shift_div_r; [lra|]. change (inject_Z 1) with 1. nra. }
  destruct (decide (q ∈ linked)) as [Hq|]; [|lra].
  assert (Hk : 1 <= inject_Z (Z.of_nat (size linked))).
  { change 1 with (inject_Z 1). rewrite <- Zle_Qle.
    assert (size linked ≠ 0%nat); [|lia].
    intros Hz. apply size_empty_inv in Hz. set_solver. }
  assert (d / inject_Z (Z.of_nat (size linked)) <= d); [|lra].
  apply Qle_shift_div_r; [lra|]. nra.
Qed.

(** X11.  For a page of the corpus and a damping factor in [0,1), the model
    has one entry per page, in corpus order, and every entry is a
    probability: above 0 and at most 1.  The links need not stay inside the
    corpus for this. *)
Theorem transition_model_range (corpus : corpus_t) (page : string) (d : Q) :
  unique_keys corpus → page ∈ Dict.keys corpus → 0 <= d ∧ d < 1 →
  ∃ model,
    transition_model corpus page d = Ok model ∧
    Dict.keys model = Dict.keys corpus ∧
    ∀ q, q ∈ Dict.keys corpus →
      ∃ v, Dict.get model q = Some v ∧ 0 < v ∧ v <= 1.
Proof.
  intros Hnd Hpage [Hd0 Hd1].
  destruct (get_is_Some _ _ Hpage) as [linked Hget].
  eexists. split; [by apply transition_model_spec|].
  split; [by rewrite keys_tabulate|].
  assert (Htot : (0 < Z.of_nat (size (linked ∪ list_to_set (Dict.keys corpus))))%Z).
  { assert (size (linked ∪ list_to_set (Dict.keys corpus)) ≠ 0%nat); [|lia].
    intros Hz. apply size_empty_inv in Hz.
    assert (page ∈ linked ∪ list_to_set (Dict.keys corpus)) as Hin
      by (apply elem_of_union_r; by apply elem_of_list_to_set).
    rewrite Hz in Hin. by apply elem_of_empty in Hin. }
  intros q Hq. eexists. split; [by apply get_tabulate|].
  split; [by apply prob_pos|by apply prob_le_1].
Qed.

Lemma transition_model_range_witness :
  ∃ model,
    transition_model tri "C" (17 # 20) = Ok model ∧
    Dict.keys model = Dict.keys tri ∧
    ∀ q, q ∈ Dict.keys tri →
      ∃ v, Dict.get model q = Some v ∧ 0 < v ∧ v <= 1.
Proof.
  apply (transition_model_range tri "C" (17 # 20)).
  - apply (bool_decide_unpack _). vm_compute. reflexivity.
  - apply (bool_decide_unpack _). vm_compute. reflexivity.
  - split; lra.
Defined.

Lemma transition_model_linked_sum_witness :
  ∃ model, transition_model tri "A" (17 # 20) = Ok model ∧ total_rank model == 1.
Proof.
  apply (transition_model_linked_sum tri "A" {["B"; "C"]}).
  - apply (bool_decide_unpack _). vm_compute. reflexivity.
  - apply (bool_decide_unpack _). vm_compute. reflexivity.
  - vm_compute. reflexivity.
  - vm_compute. lia.
Defined.

(** ** From the directory to the ranks

    [crawl], then both estimators on the corpus it returns. *)

(** X8.  Over exact rationals: whenever [crawl] returns a corpus for a
    listing that names each file once and has at least one [.html] file,
    then for a damping factor in (0,1) and a sample count of at least 1
    [sample_pagerank] returns ranks for exactly the [.html] files that add
    up to 1, and [iterate_pagerank] ends after finitely many passes with
    ranks for the same files.  Nothing is said here of the binary64 run. *)
Theorem crawl_then_rank (directory : list (string * string))
    (corpus : corpus_t) (d : Q) (n : Z) (rng : nat → nat) :
  crawl directory = Ok corpus →
  NoDup (map fst directory) →
  filter (λ name, is_html name = true) (map fst directory) ≠ [] →
  0 < d ∧ d < 1 → (1 <= n)%Z →
  ∃ sampled iterated passes,
    sample_pagerank corpus d n rng = Ok sampled ∧
    Dict.keys sampled = filter (λ name, is_html name = true) (map fst directory) ∧
    total_rank sampled == 1 ∧
    (∀ fuel, iterate_pagerank corpus d fuel =
               if decide (passes < fuel)%nat then Some (Ok iterated) else None) ∧
    Dict.keys iterated = filter (λ name, is_html name = true) (map fst directory).
Proof.
  intros Hrun Hnd Hhtml [Hd0 Hd1] Hn.
  rewrite crawl_run in Hrun. cbn zeta in Hrun.
  assert (Hkeys : Dict.keys (foldl read_page [] directory) =
                  filter (λ name, is_html name = true) (map fst directory))
    by by rewrite read_pages_keys.
  destruct (read_pages_invariant directory []) as [Hunique _];
    [apply NoDup_nil_2|apply Forall_nil_2|].
  assert (Hck : Dict.keys corpus =
                filter (λ name, is_html name = true) (map fst directory)).
  { inversion Hrun. by rewrite keys_tabulate. }
  assert (Hcu : unique_keys corpus).
  { unfold unique_keys. rewrite Hck, <- Hkeys. exact Hunique. }
  assert (Hne : corpus ≠ []).
  { intros Hnil. rewrite Hnil in Hck. by rewrite <- Hck in Hhtml. }
  destruct (sample_pagerank_counts corpus d n rng) as
    (sampled & Hsample & Hsk & _ & _ & Hsum); [done|done|done|done|].
  destruct (eventually_converged corpus d Hcu) as [T HT]; [lra|done|].
  destruct (least_index (converged corpus d) T HT) as (passes & Hp & Hfirst).
  exists sampled,
         (tabulate (sweeps_fun corpus d (S passes)) (Dict.keys corpus)), passes.
  split; [done|]. split; [by rewrite Hsk|]. split; [done|].
  split.
  - intros fuel. rewrite iterate_pagerank_run by done.
    rewrite (loop_fun_first corpus d passes Hp Hfirst).
    by destruct (decide (passes < fuel)%nat).
  - by rewrite keys_tabulate.
Qed.

Lemma crawl_then_rank_witness :
  ∃ corpus sampled iterated passes,
    crawl site = Ok corpus ∧
    sample_pagerank corpus (17 # 20) 10000 (λ i, i) = Ok sampled ∧
    Dict.keys sampled = filter (λ name, is_html name = true) (map fst site) ∧
    total_rank sampled == 1 ∧
    (∀ fuel, iterate_pagerank corpus (17 # 20) fuel =
               if decide (passes < fuel)%nat then Some (Ok iterated) else None) ∧
    Dict.keys iterated = filter (λ name, is_html name = true) (map fst site).
Proof.
  exists [("1.html", {["2.html"]}); ("2.html", {["1.html"]})].
  destruct (crawl_then_rank site
              [("1.html", {["2.html"]}); ("2.html", {["1.html"]})]
              (17 # 20) 10000 (λ i, i))
    as (sampled & iterated & passes & Hranks).
  - vm_compute. reflexivity.
  - apply (bool_decide_unpack _). vm_compute. reflexivity.
  - vm_compute. discriminate.
  - split; reflexivity.
  - lia.
  - exists sampled, iterated, passes. split; [vm_compute; reflexivity|].
    exact Hranks.
Defined.

Lemma read_pages_none (directory : list (string * string)) (pages : corpus_t) :
  filter (λ name, is_html name = true) (map fst directory) = [] →
  foldl read_page pages directory = pages.
Proof.
  revert pages. induction directory as [|[name text] rest IH]; intros pages;
    [done|].
  cbn [map fst foldl]. rewrite filter_cons. unfold read_page at 2.
  destruct (is_html name).
  - by rewrite decide_True.
  - rewrite decide_False by done. apply IH.
Qed.

Section NoPages.
Context {F : Type} {NF : Number F}.

(** X9.  A directory without any [.html] file gives the empty corpus; on
    it [sample_pagerank] fails with [IndexError] at its first draw, for
    every damping factor and sample count, while [iterate_pagerank] divides
    by nothing and returns the empty rank map in its first pass. *)
Theorem crawl_no_pages (directory : list (string * string))
    (damping_factor : F) (n : Z) (rng : nat → nat) (fuel : nat) :
  filter (λ name, is_html name = true) (map fst directory) = [] →
  ∃ corpus,
    crawl directory = Ok corpus ∧ corpus = [] ∧
    sample_pagerank corpus damping_factor n rng = Raise IndexError ∧
    iterate_pagerank corpus damping_factor (S fuel) = Some (Ok []).
Proof.
  intros Hnone. exists []. split; [|done].
  unfold crawl. by rewrite read_pages_none.
Qed.
End NoPages.

Lemma crawl_no_pages_witness :
  ∃ corpus,
    crawl [("notes.txt", link_to "1.html"); ("index.htm", "text")] = Ok corpus ∧
    corpus = [] ∧
    sample_pagerank corpus (17 # 20) 10000 (λ i, i) = Raise IndexError ∧
    iterate_pagerank corpus (17 # 20) 1 = Some (Ok []).
Proof. apply crawl_no_pages. vm_compute. reflexivity. Defined.

(** ** [iterate_pagerank]: the ranks it returns *)

(** The loop ends, and what it returns is the rank function of the first
    pass that counts every page. *)
Lemma iterate_pagerank_result (corpus : corpus_t) (d : Q) :
  unique_keys corpus → 0 <= d → d < 1 →
  ∃ n,
    converged corpus d n ∧
    ∀ fuel, iterate_pagerank corpus d fuel =
              if decide (n < fuel)%nat
              then Some (Ok (tabulate (sweeps_fun corpus d (S n)) (Dict.keys corpus)))
              else None.
Proof.
  intros Hnd Hd0 Hd1.
  destruct (eventually_converged corpus d Hnd Hd0 Hd1) as [T HT].
  destruct (least_index (converged corpus d) T HT) as (n & Hn & Hfirst).
  exists n. split; [done|]. intros fuel.
  rewrite iterate_pagerank_run by done.
  rewrite (loop_fun_first corpus d n Hn Hfirst).
  by destruct (decide (n < fuel)%nat).
Qed.

(** The value a pass leaves for a key is the recurrence evaluated on the
    rank function as it stood when the key was handled. *)
Lemma sweeps_fun_at (corpus : corpus_t) (d : Q) (n : nat)
    (pre suf : list string) (key : string) :
  unique_keys corpus → Dict.keys corpus = pre ++ key :: suf →
  sweeps_fun corpus d (S n) key ==
    teleport corpus d
    + d * lin corpus (pass corpus d pre (sweeps_fun corpus d n, 0%Z)).1 key.
Proof.
  intros Hnd Hkeys.
  change (sweeps_fun corpus d (S n))
    with (sweep_fun corpus d (sweeps_fun corpus d n)).1.
  unfold sweep_fun. rewrite Hkeys.
  rewrite pass_at by (by rewrite <- Hkeys). apply new_rank_lin.
Qed.

Lemma teleport_nonneg (corpus : corpus_t) (d : Q) : d < 1 → 0 <= teleport corpus d.
Proof.
  intros Hd1. unfold teleport, pages, Qdiv. apply Qmult_le_0_compat; [lra|].
  apply Qinv_le_0_compat. change 0 with (inject_Z 0). rewrite <- Zle_Qle. lia.
Qed.

Lemma lin_nonneg (corpus : corpus_t) (r : string → Q) (key : string) :
  (∀ q, 0 <= r q) → 0 <= lin corpus r key.
Proof.
  intros Hr. unfold lin. apply Qsum_nonneg. intros kv _.
  apply Qmult_le_0_compat; [apply weight_nonneg|apply Hr].
Qed.

Lemma pass_nonneg (corpus : corpus_t) (d : Q) (todo : list string) :
  0 <= d → d < 1 →
  ∀ st, (∀ q, 0 <= st.1 q) → ∀ q, 0 <= (pass corpus d todo st).1 q.
Proof.
  intros Hd0 Hd1. induction todo as [|k todo IH]; intros st Hst; [done|].
  rewrite pass_cons. apply IH. intros q. unfold page_step. cbn [fst].
  unfold upd. destruct (decide (q = k)) as [->|]; [|apply Hst].
  rewrite new_rank_lin.
  pose proof (teleport_nonneg corpus d Hd1).
  pose proof (lin_nonneg corpus st.1 k Hst). nra.
Qed.

Lemma sweeps_fun_nonneg (corpus : corpus_t) (d : Q) (n : nat) :
  0 <= d → d < 1 → ∀ q, 0 <= sweeps_fun corpus d n q.
Proof.
  intros Hd0 Hd1. induction n as [|n IH]; intros q.
  - change (sweeps_fun corpus d 0 q) with (1 / pages corpus).
    unfold Qdiv, pages. apply Qmult_le_0_compat; [lra|].
    apply Qinv_le_0_compat. change 0 with (inject_Z 0). rewrite <- Zle_Qle. lia.
  - change (sweeps_fun corpus d (S n))
      with (sweep_fun corpus d (sweeps_fun corpus d n)).1.
    unfold sweep_fun. by apply pass_nonneg.
Qed.

(** X15.  Over exact rationals and for a damping factor in [0,1), every
    rank [iterate_pagerank] returns is at least the constant term (1 - d)/N
    of the recurrence, so no page of a non-empty corpus ends with rank 0 or
    below. *)
Theorem iterate_pagerank_floor (corpus : corpus_t) (d : Q) :
  unique_keys corpus → 0 <= d ∧ d < 1 →
  ∃ passes ranks,
    (∀ fuel, iterate_pagerank corpus d fuel =
               if decide (passes < fuel)%nat then Some (Ok ranks) else None) ∧
    ∀ page, page ∈ Dict.keys corpus →
      ∃ v, Dict.get ranks page = Some v ∧
           (1 - d) / inject_Z (Z.of_nat (length corpus)) <= v ∧ 0 < v.
Proof.
  intros Hnd [Hd0 Hd1].
  destruct (iterate_pagerank_result corpus d Hnd Hd0 Hd1) as (n & _ & Hrun).
  eexists n, _. split; [exact Hrun|]. intros page Hpage.
  eexists. split; [by apply get_tabulate|].
  destruct (list_elem_of_split _ _ Hpage) as (pre & suf & Hkeys).
  rewrite (sweeps_fun_at corpus d n pre suf page Hnd Hkeys).
  assert (Hlin : 0 <= lin corpus
                   (pass corpus d pre (sweeps_fun corpus d n, 0%Z)).1 page).
  { apply lin_nonneg. apply pass_nonneg; [done..|].
    by apply sweeps_fun_nonneg. }
  assert (Hpos : 0 < teleport corpus d).
  { unfold teleport. apply Qlt_shift_div_l; [|lra].
    apply inject_Z_nat_pos. rewrite <- keys_length, Hkeys, length_app.
    cbn [length]. lia. }
  fold (pages corpus). fold (teleport corpus d). split; nra.
Qed.

Lemma iterate_pagerank_floor_witness :
  ∃ passes ranks,
    (∀ fuel, iterate_pagerank tri (17 # 20) fuel =
               if decide (passes < fuel)%nat then Some (Ok ranks) else None) ∧
    ∀ page, page ∈ Dict.keys tri →
      ∃ v, Dict.get ranks page = Some v ∧
           (1 - (17 # 20)) / inject_Z (Z.of_nat (length tri)) <= v ∧ 0 < v.
Proof.
  apply (iterate_pagerank_floor tri (17 # 20)).
  - apply (bool_decide_unpack _). vm_compute. reflexivity.
  - split; lra.
Defined.

Section NoIncoming.
Context {F : Type} {NF : Number F}.

(** What the loop returns is what a pass has left. *)
Lemma loop_fun_Some (corpus : corpus_t) (d : F) (fuel : nat)
    (r r' : string → F) :
  loop_fun corpus d fuel r = Some r' → ∃ r0, r' = (sweep_fun corpus d r0).1.
Proof.
  revert r. induction fuel as [|fuel IH]; intros r Hrun; [done|].
  cbn [loop_fun] in Hrun.
  destruct (sweep_fun corpus d r) as [r1 count] eqn:Hsw.
  destruct (decide (count = Z.of_nat (length corpus))).
  - inversion Hrun; subst. exists r. by rewrite Hsw.
  - by apply (IH r1).
Qed.

(** For a page that no page links to, the sum of lines 148-154 stays at its
    initial 0. *)
Lemma incoming_none (corpus : corpus_t) (r : string → F) (key : string) :
  Forall (λ kv, key ∉ kv.2) corpus → incoming corpus r key = of_int 0.
Proof.
  unfold incoming. generalize (of_int 0).
  induction corpus as [|[page links] corpus IH]; intros sigma Hno; [done|].
  apply Forall_cons in Hno as [Hhere Hno]. cbn [foldl snd] in *.
  rewrite decide_False by done. by apply IH.
Qed.

(** X16.  In every arithmetic, whenever [iterate_pagerank] returns, a page
    that no page links to has the rank lines 147-157 compute from an empty
    sum: (1 - d)/N + d * 0, evaluated in that arithmetic. *)
Theorem iterate_pagerank_no_incoming (corpus : corpus_t) (d : F)
    (page : string) (fuel : nat) (ranks : list (string * F)) :
  unique_keys corpus → page ∈ Dict.keys corpus →
  Forall (λ kv, page ∉ kv.2) corpus →
  iterate_pagerank corpus d fuel = Some (Ok ranks) →
  Dict.get ranks page =
    Some (add (quot (sub (of_int 1) d) (of_int (Z.of_nat (length corpus))))
              (mul d (of_int 0))).
Proof.
  intros Hnd Hpage Hno Hrun. rewrite iterate_pagerank_run in Hrun by done.
  destruct (loop_fun corpus d fuel (uniform corpus)) as [r'|] eqn:Hloop; [|done].
  cbn in Hrun. inversion Hrun; subst ranks. clear Hrun.
  apply loop_fun_Some in Hloop as [r0 ->].
  rewrite get_tabulate by done. f_equal.
  destruct (list_elem_of_split _ _ Hpage) as (pre & suf & Hkeys).
  unfold sweep_fun. rewrite Hkeys. rewrite pass_at by (by rewrite <- Hkeys).
  unfold new_rank. by rewrite incoming_none.
Qed.
End NoIncoming.

Lemma iterate_pagerank_no_incoming_witness :
  ∃ ranks,
    iterate_pagerank chain 0x1.b333333333333p-1%float 2 = Some (Ok ranks) ∧
    Dict.get ranks "A" =
      Some (add (quot (sub (of_int 1) 0x1.b333333333333p-1%float)
                      (of_int (Z.of_nat (length chain))))
                (mul 0x1.b333333333333p-1%float (of_int 0))).
Proof.
  eexists. split; [vm_compute; reflexivity|].
  apply (iterate_pagerank_no_incoming chain _ "A" 2%nat).
  - apply (bool_decide_unpack _). vm_compute. reflexivity.
  - apply (bool_decide_unpack _). vm_compute. reflexivity.
  - apply (bool_decide_unpack _). vm_compute. reflexivity.
  - vm_compute. reflexivity.
Defined.

Lemma weight_le_1 (links : gset string) (key : string) : weight links key <= 1.
Proof.
  unfold weight. destruct (decide (key ∈ links)) as [Hin|]; [|lra].
  assert (Hk : 1 <= inject_Z (Z.of_nat (size links))).
  { change 1 with (inject_Z 1). rewrite <- Zle_Qle.
    assert (size links ≠ 0%nat); [|lia].
    intros Hz. apply size_empty_inv in Hz. set_solver. }
  apply Qle_shift_div_r; lra.
Qed.

Lemma lin_mono (corpus : corpus_t) (r1 r2 : string → Q) (key : string) :
  (∀ page, page ∈ Dict.keys corpus → r1 page <= r2 page) →
  lin corpus r1 key <= lin corpus r2 key.
Proof.
  intros Hle. unfold lin. apply Qsum_le. intros [page links] Hin.
  cbn [fst snd]. apply Qmult_le_weak_l; [apply weight_nonneg|].
  apply Hle. apply list_elem_of_In. apply in_map_iff.
  exists (page, links). split; [done|]. by apply list_elem_of_In.
Qed.

Lemma lin_const_bound (corpus : corpus_t) (c : Q) (key : string) :
  0 <= c → lin corpus (λ _, c) key <= pages corpus * c.
Proof.
  intros Hc. unfold lin, pages.
  rewrite <- (Qsum_const c corpus). apply Qsum_le. intros [page links] _.
  cbn [snd]. pose proof (weight_le_1 links key).
  pose proof (weight_nonneg links key). nra.
Qed.

(** X17.  Over exact rationals and for a damping factor in [0,1), the
    ranks [iterate_pagerank] returns satisfy the PageRank recurrence up to
    the threshold: for every page, the returned rank
    differs from (1 - d)/N + d * (the sum of rank(q)/outdegree(q) over the
    pages q linking to it, taken in the returned ranks) by at most
    d * 0.0005 * N. *)
Theorem iterate_pagerank_residual (corpus : corpus_t) (d : Q) :
  unique_keys corpus → 0 <= d ∧ d < 1 →
  ∃ passes ranks,
    (∀ fuel, iterate_pagerank corpus d fuel =
               if decide (passes < fuel)%nat then Some (Ok ranks) else None) ∧
    ∀ page, page ∈ Dict.keys corpus →
      ∃ v, Dict.get ranks page = Some v ∧
           Qabs (v - ((1 - d) / inject_Z (Z.of_nat (length corpus))
                      + d * lin corpus (λ q, default 0 (Dict.get ranks q)) page))
             <= d * (5 / 10000) * inject_Z (Z.of_nat (length corpus)).
Proof.
  intros Hnd [Hd0 Hd1].
  destruct (iterate_pagerank_result corpus d Hnd Hd0 Hd1) as (n & Hn & Hrun).
  eexists n, _. split; [exact Hrun|]. intros page Hpage.
  eexists. split; [by apply get_tabulate|].
  set (r := sweeps_fun corpus d n). set (r' := sweeps_fun corpus d (S n)).
  destruct (list_elem_of_split _ _ Hpage) as (pre & suf & Hkeys).
  set (g := (pass corpus d pre (r, 0%Z)).1).
  assert (Hv : r' page == teleport corpus d + d * lin corpus g page)
    by by apply (sweeps_fun_at corpus d n pre suf).
  assert (Hread : lin corpus
                    (λ q, default 0 (Dict.get (tabulate r' (Dict.keys corpus)) q))
                    page == lin corpus r' page).
  { apply lin_ext. intros q Hq. by rewrite get_tabulate. }
  assert (Hsmall : ∀ q, q ∈ Dict.keys corpus → Qabs (g q - r' q) <= 5 / 10000).
  { intros q Hq. destruct (decide (q ∈ pre)) as [Hpre|Hpre].
    - assert (Heq : r' q = g q).
      { unfold r', g.
        change (sweeps_fun corpus d (S n))
          with (sweep_fun corpus d (sweeps_fun corpus d n)).1.
        unfold sweep_fun. rewrite Hkeys. apply pass_before; [|done].
        by rewrite <- Hkeys. }
      rewrite Heq. setoid_replace (g q - g q) with 0 using relation Qeq by ring.
      done.
    - assert (Heq : g q = r q) by (unfold g; by rewrite pass_other).
      rewrite Heq. apply Qlt_le_weak.
      by apply (converged_iff corpus d n Hnd). }
  assert (Hlin : Qabs (lin corpus g page - lin corpus r' page)
                 <= pages corpus * (5 / 10000)).
  { rewrite <- lin_sub. eapply Qle_trans; [apply lin_abs|].
    eapply Qle_trans;
      [|apply (lin_const_bound corpus (5 / 10000) page); by vm_compute].
    apply lin_mono. intros q Hq. by apply Hsmall. }
  fold (pages corpus). fold (teleport corpus d). rewrite Hread, Hv.
  setoid_replace (teleport corpus d + d * lin corpus g page
                  - (teleport corpus d + d * lin corpus r' page))
    with (d * (lin corpus g page - lin corpus r' page))
    using relation Qeq by ring.
  rewrite Qabs_Qmult, (Qabs_pos d) by done.
  setoid_replace (d * (5 / 10000) * pages corpus)
    with (d * (pages corpus * (5 / 10000))) using relation Qeq by ring.
  by apply Qmult_le_weak_l.
Qed.

Lemma iterate_pagerank_residual_witness :
  ∃ passes ranks,
    (∀ fuel, iterate_pagerank tri (17 # 20) fuel =
               if decide (passes < fuel)%nat then Some (Ok ranks) else None) ∧
    ∀ page, page ∈ Dict.keys tri →
      ∃ v, Dict.get ranks page = Some v ∧
           Qabs (v - ((1 - (17 # 20)) / inject_Z (Z.of_nat (length tri))
                      + (17 # 20)
                        * lin tri (λ q, default 0 (Dict.get ranks q)) page))
             <= (17 # 20) * (5 / 10000) * inject_Z (Z.of_nat (length tri)).
Proof.
  apply (iterate_pagerank_residual tri (17 # 20)).
  - apply (bool_decide_unpack _). vm_compute. reflexivity.
  - split; lra.
Defined.

(** ** [sample_pagerank]: further properties *)

(** X13.  Over exact rationals, every rank [sample_pagerank] returns lies
    between 0 and 1.  In binary64 the roundings of the repeated [+= 1/n] can
    carry a rank above 1, see [sample_pagerank_above_one]. *)
Theorem sample_pagerank_range (corpus : corpus_t) (d : Q) (n : Z)
    (rng : nat → nat) :
  unique_keys corpus → corpus ≠ [] → 0 < d ∧ d < 1 → (1 <= n)%Z →
  ∃ rank,
    sample_pagerank corpus d n rng = Ok rank ∧
    ∀ page, page ∈ Dict.keys corpus →
      ∃ v, Dict.get rank page = Some v ∧ 0 <= v ∧ v <= 1.
Proof.
  intros Hnd Hne Hd Hn.
  destruct (sample_pagerank_counts corpus d n rng Hnd Hne Hd Hn)
    as (rank & Hrun & _ & Hlen & Hval & _).
  exists rank. split; [done|]. intros page Hpage.
  destruct (Hval page Hpage) as (v & Hget & Hv). exists v. split; [done|].
  assert (HnQ : 0 < inject_Z n).
  { change 0 with (inject_Z 0). rewrite <- Zlt_Qlt. lia. }
  assert (Hcount : (visit_count page (visits corpus d n rng) <= Z.to_nat n)%nat).
  { rewrite <- Hlen. unfold visit_count. apply length_filter. }
  rewrite Hv. split.
  - apply Qle_shift_div_l; [done|]. rewrite Qmult_0_l.
    change 0 with (inject_Z 0). rewrite <- Zle_Qle. lia.
  - apply Qle_shift_div_r; [done|]. rewrite Qmult_1_l.
    rewrite <- Zle_Qle. lia.
Qed.

Lemma sample_pagerank_range_witness :
  ∃ rank,
    sample_pagerank tri (17 # 20) 10000 (λ i, i) = Ok rank ∧
    ∀ page, page ∈ Dict.keys tri →
      ∃ v, Dict.get rank page = Some v ∧ 0 <= v ∧ v <= 1.
Proof.
  apply (sample_pagerank_range tri (17 # 20) 10000 (λ i, i)).
  - apply (bool_decide_unpack _). vm_compute. reflexivity.
  - discriminate.
  - split; reflexivity.
  - lia.
Defined.

Lemma foldl_Qplus_zero (w : Q) (ws : list Q) :
  w == 0 → Forall (λ x, x == 0) ws → foldl Qplus w ws == 0.
Proof.
  revert w. induction ws as [|x ws IH]; intros w Hw Hall; cbn [foldl]; [done|].
  apply Forall_cons in Hall as [Hx Hall]. apply IH; [|done].
  rewrite Hw, Hx. reflexivity.
Qed.

(** X14.  The damping factor is not checked: with damping 1 every weight of
    the model of a page without links is 0, and as soon as the walk has to
    leave such a page [random.choices] fails with [ValueError].  Here the
    first page drawn has no links and at least two samples are asked for. *)
Theorem sample_pagerank_damping_one (corpus : corpus_t) (page : string)
    (n : Z) (rng : nat → nat) :
  unique_keys corpus → Dict.get corpus page = Some ∅ →
  choices (rng 0%nat) (Dict.keys corpus) = Ok page → (2 <= n)%Z →
  sample_pagerank corpus 1 n rng = Raise ValueError.
Proof.
  intros Hnd Hget Hdraw Hn.
  pose proof (get_Some_keys _ _ _ Hget) as Hpage.
  unfold sample_pagerank. rewrite zero_ranks by done. rewrite Hdraw.
  cbn [mbind result_bind]. rewrite record_visit_spec by done.
  rewrite decide_False by lia. cbn [mbind result_bind].
  destruct (Z.to_nat (n - 1)) as [|steps] eqn:Hsteps; [lia|].
  cbn [walk]. rewrite (transition_model_spec corpus page ∅ 1 Hnd Hget).
  cbn [mbind result_bind]. rewrite keys_tabulate, values_tabulate.
  set (total := Z.of_nat (size (∅ ∪ list_to_set (Dict.keys corpus)))).
  assert (Hzero : ∀ q, prob ∅ 1 total q == 0).
  { intros q. unfold prob. rewrite decide_False by set_solver.
    cbn [quot sub of_int Q_Number]. change (inject_Z 1) with 1.
    unfold Qdiv. ring. }
  unfold choices_weighted. rewrite decide_False by (by rewrite length_map; intros ?).
  destruct (Dict.keys corpus) as [|k ks]; [by apply not_elem_of_nil in Hpage|].
  cbn [map].
  assert (Htotal : foldl Qplus (prob ∅ 1 total k) (map (prob ∅ 1 total) ks)
                   + inject_Z 0 == 0).
  { rewrite foldl_Qplus_zero.
    - reflexivity.
    - apply Hzero.
    - apply Forall_forall. intros x Hx. apply list_elem_of_In in Hx.
      apply in_map_iff in Hx as (q & <- & _). apply Hzero. }
  cbn [add of_int lt finite Q_Number].
  assert (Hle : Qle_bool (foldl Qplus (prob ∅ 1 total k)
                            (map (prob ∅ 1 total) ks) + inject_Z 0)
                         (inject_Z 0) = true).
  { apply Qle_bool_iff. rewrite Htotal. done. }
  by rewrite Hle.
Qed.

Lemma sample_pagerank_damping_one_witness :
  sample_pagerank tri 1 10000 (λ i, (i + 2)%nat) = Raise ValueError.
Proof.
  apply (sample_pagerank_damping_one tri "C").
  - apply (bool_decide_unpack _). vm_compute. reflexivity.
  - reflexivity.
  - reflexivity.
  - lia.
Defined.

(** ** [crawl] and the order of the listing *)

Lemma get_tabulate_absent {V : Type} (f : string → V) (ks : list string)
    (k : string) :
  k ∉ ks → Dict.get (tabulate f ks) k = None.
Proof.
  intros Hk. destruct (Dict.get (tabulate f ks) k) eqn:Hget; [|done].
  apply get_Some_keys in Hget. by rewrite keys_tabulate in Hget.
Qed.

(** What [crawl] records for a name, in terms of the listing alone. *)
Lemma crawl_get (directory : list (string * string)) (page : string) :
  NoDup (map fst directory) →
  ∃ corpus,
    crawl directory = Ok corpus ∧
    Dict.keys corpus = filter (λ name, is_html name = true) (map fst directory) ∧
    (page ∉ Dict.keys corpus → Dict.get corpus page = None) ∧
    ∀ contents, (page, contents) ∈ directory → is_html page = true →
      Dict.get corpus page =
        Some (filter (λ link, link ∈ filter (λ name, is_html name = true)
                                       (map fst directory))
                (list_to_set (find_links contents) ∖ {[page]})).
Proof.
  intros Hnd. eexists. split; [apply crawl_run|].
  assert (Hkeys : Dict.keys (foldl read_page [] directory) =
                  filter (λ name, is_html name = true) (map fst directory))
    by by rewrite read_pages_keys.
  rewrite keys_tabulate. split; [done|]. split.
  - intros Hpage. by apply get_tabulate_absent.
  - intros contents Hin Hhtml. rewrite get_tabulate.
    + rewrite (read_pages_get _ _ _ contents) by done.
      simpl (default _ _). by rewrite Hkeys.
    + rewrite Hkeys. apply list_elem_of_filter. split; [done|].
      apply list_elem_of_In, in_map_iff. exists (page, contents).
      split; [done|]. by apply list_elem_of_In.
Qed.

(** X18.  The link graph does not depend on the order in which the
    directory is listed: two listings of the same files give the same pages
    and, for every page, the same links. *)
Theorem crawl_order_independent (directory directory' : list (string * string)) :
  NoDup (map fst directory) → directory ≡ₚ directory' →
  ∃ corpus corpus',
    crawl directory = Ok corpus ∧ crawl directory' = Ok corpus' ∧
    Dict.keys corpus ≡ₚ Dict.keys corpus' ∧
    ∀ page, Dict.get corpus page = Dict.get corpus' page.
Proof.
  intros Hnd Hperm.
  assert (Hnames : map fst directory ≡ₚ map fst directory')
    by (by apply Permutation_map).
  assert (Hnd' : NoDup (map fst directory')) by by rewrite <- Hnames.
  assert (Hhtml : filter (λ name, is_html name = true) (map fst directory) ≡ₚ
                  filter (λ name, is_html name = true) (map fst directory'))
    by by rewrite Hnames.
  destruct (crawl_get directory EmptyString Hnd)
    as (corpus & Hrun & Hkeys & _).
  destruct (crawl_get directory' EmptyString Hnd')
    as (corpus' & Hrun' & Hkeys' & _).
  exists corpus, corpus'. split; [done|]. split; [done|].
  split; [by rewrite Hkeys, Hkeys'|]. intros page.
  destruct (crawl_get directory page Hnd) as (c & Hc & _ & Hout & Hin).
  destruct (crawl_get directory' page Hnd') as (c' & Hc' & _ & Hout' & Hin').
  rewrite Hrun in Hc. rewrite Hrun' in Hc'.
  inversion Hc; subst c. inversion Hc'; subst c'.
  destruct (decide (page ∈ Dict.keys corpus)) as [Hpage|Hpage].
  - rewrite Hkeys in Hpage. apply list_elem_of_filter in Hpage as [Hp Hname].
    apply list_elem_of_In, in_map_iff in Hname as ([name contents] & Heq & Hmem).
    cbn [fst] in Heq. subst name. apply list_elem_of_In in Hmem.
    rewrite (Hin contents) by done.
    rewrite (Hin' contents); [|by rewrite <- Hperm|done].
    f_equal. apply set_eq. intros link. rewrite !elem_of_filter.
    by rewrite Hhtml.
  - rewrite Hout by done. rewrite Hout'; [done|].
    by rewrite Hkeys', <- Hhtml, <- Hkeys.
Qed.

Lemma crawl_order_independent_witness :
  ∃ corpus corpus',
    crawl site = Ok corpus ∧ crawl (reverse site) = Ok corpus' ∧
    Dict.keys corpus ≡ₚ Dict.keys corpus' ∧
    ∀ page, Dict.get corpus page = Dict.get corpus' page.
Proof.
  apply (crawl_order_independent site (reverse site)).
  - apply (bool_decide_unpack _). vm_compute. reflexivity.
  - symmetry. apply reverse_Permutation.
Defined.
